(** * pptx-localizer: slide text extraction and reintegration

    A shallow embedding of
      - [core/extraction/slide_text_extractor.py]  (the slide model reader), and
      - [core/reintegration/reintegrator_all.py]   (the alignment writer and
        the container rewrites),
    followed by the properties of the specification settled against it.

    Modelling conventions.
      - A Python [str] is a list of Unicode code points ([list N]); the
        functions that look at characters ([strip], [splitlines], slicing)
        do so code point by code point, as Python does.
      - XML names (tags, attribute keys) are Rocq strings in the
        ["{namespace}local"] spelling that ElementTree and lxml use.
      - A parsed XML part is a tree of elements.  An element reference held
        by the Python code (an entry of a [findall] result, a loop variable)
        is the path of child indices from the root of the tree; in-place
        mutation of [.text] and of an attribute is a relabelling of the node
        at that path, so that nodes reached twice see each other's writes.
      - Element tails, comments and processing instructions are not read or
        written by the code and are left out of the tree.
      - Python exceptions are an explicit [Raise] result. *)

From Stdlib Require Import ZArith NArith List String Ascii Bool Lia.
From Stdlib Require Import Floats.SpecFloat DecimalString QArith.
From stdpp Require Import base option list strings gmap.

Close Scope Q_scope.
Open Scope string_scope.
Open Scope list_scope.
Open Scope nat_scope.

(* ================================================================== *)
(** * Python strings *)
(* ================================================================== *)

Abbreviation pystr := (list N).

(** An ASCII literal as a Python string. *)
Definition s2u (s : string) : pystr := map N_of_ascii (list_ascii_of_string s).

Definition LF : N := 10.        (* '\n' *)
Definition TAB : N := 9.        (* '\t' *)
Definition BACKSLASH : N := 92.
Definition LOWER_N : N := 110.
Definition LOWER_T : N := 116.
Definition SPACE : N := 32.

(** ["\\n"] and ["\\t"]: the two-character literal sequences. *)
Definition LIT_N : pystr := [BACKSLASH; LOWER_N].
Definition LIT_T : pystr := [BACKSLASH; LOWER_T].

(** [str.isspace] for one code point (CPython's [_PyUnicode_IsWhitespace]). *)
Definition isspace (c : N) : bool :=
  ((9 <=? c) && (c <=? 13) || (28 <=? c) && (c <=? 32)
   || (c =? 133) || (c =? 160) || (c =? 5760)
   || (8192 <=? c) && (c <=? 8202)
   || (c =? 8232) || (c =? 8233) || (c =? 8239) || (c =? 8287)
   || (c =? 12288))%N.

Fixpoint lstrip (s : pystr) : pystr :=
  match s with
  | c :: s' => if isspace c then lstrip s' else s
  | [] => []
  end.

(** [s.strip()] *)
Definition strip (s : pystr) : pystr := rev (lstrip (rev (lstrip s))).

(** Python truthiness of a string. *)
Definition truthy (s : pystr) : bool :=
  match s with [] => false | _ :: _ => true end.

(** [x or ""] for an optional string. *)
Definition or_empty (o : option pystr) : pystr := default [] o.

(** [sep.join(parts)] *)
Fixpoint join (sep : pystr) (parts : list pystr) : pystr :=
  match parts with
  | [] => []
  | [p] => p
  | p :: ps => p ++ sep ++ join sep ps
  end.

(** [s.replace("\n", "\\n")] *)
Fixpoint escape_newlines (s : pystr) : pystr :=
  match s with
  | [] => []
  | c :: s' => if (c =? LF)%N then LIT_N ++ escape_newlines s'
               else c :: escape_newlines s'
  end.

(** The line boundaries of [str.splitlines]. *)
Definition is_linebreak (c : N) : bool :=
  ((c =? 10) || (c =? 11) || (c =? 12) || (c =? 13)
   || (c =? 28) || (c =? 29) || (c =? 30)
   || (c =? 133) || (c =? 8232) || (c =? 8233))%N.

(** [s.splitlines()]: [cur] is the line being read, in reverse.  A carriage
    return followed by a line feed is one boundary; a final line with no
    boundary after it is kept unless it is empty. *)
Fixpoint splitlines_go (s : pystr) (cur : pystr) : list pystr :=
  match s with
  | [] => match cur with [] => [] | _ => [rev cur] end
  | c :: s' =>
      if is_linebreak c then
        match s' with
        | d :: s'' =>
            if ((c =? 13) && (d =? 10))%N
            then rev cur :: splitlines_go s'' []
            else rev cur :: splitlines_go s' []
        | [] => [rev cur]
        end
      else splitlines_go s' (c :: cur)
  end.

Definition splitlines (s : pystr) : list pystr := splitlines_go s [].

(** Splitting at line feeds only, the inverse of [join [LF]]. *)
Fixpoint split_lf_go (s : pystr) (cur : pystr) : list pystr :=
  match s with
  | [] => [rev cur]
  | c :: s' => if (c =? LF)%N then rev cur :: split_lf_go s' []
               else split_lf_go s' (c :: cur)
  end.

Definition split_lf (s : pystr) : list pystr := split_lf_go s [].

(** [int(s)]: surrounding whitespace, an optional sign, decimal digits
    with single underscores between them.  [None] stands for [ValueError].

    A digit is a decimal digit of any script: [decimal_blocks] lists the
    first code point of every block of ten decimal digits of Unicode 14.0,
    the version CPython 3.11 carries (later versions add blocks). *)
Definition decimal_blocks : list N :=
  [48; 1632; 1776; 1984; 2406; 2534; 2662; 2790; 2918; 3046; 3174; 3302;
   3430; 3558; 3664; 3792; 3872; 4160; 4240; 6112; 6160; 6470; 6608; 6784;
   6800; 6992; 7088; 7232; 7248; 42528; 43216; 43264; 43472; 43504; 43600;
   44016; 65296; 66720; 68912; 69734; 69872; 69942; 70096; 70384; 70736;
   70864; 71248; 71360; 71472; 71904; 72016; 72784; 73040; 73120; 92768;
   92864; 93008; 120782; 120792; 120802; 120812; 120822; 123200; 123632;
   125264; 130032]%N.

Definition digit_val (c : N) : option Z :=
  (fun b => Z.of_N (c - b))
    <$> List.find (fun b => (b <=? c) && (c <? b + 10))%N decimal_blocks.

Fixpoint int_digits (s : pystr) (acc : Z) (after_digit : bool) : option Z :=
  match s with
  | [] => if after_digit then Some acc else None
  | c :: s' =>
      match digit_val c with
      | Some d => int_digits s' (10 * acc + d)%Z true
      | None =>
          if ((c =? 95)%N && after_digit)%bool then
            match s' with
            | d :: _ => match digit_val d with
                        | Some _ => int_digits s' acc false
                        | None => None
                        end
            | [] => None
            end
          else None
      end
  end.

(** The longest numeral [int] converts, in digits
    ([sys.get_int_max_str_digits()], by default). *)
Definition MAX_STR_DIGITS : nat := 4300.

Definition digit_count (s : pystr) : nat :=
  length (List.filter (fun c => bool_decide (is_Some (digit_val c))) s).

Definition py_int (s : pystr) : option Z :=
  if bool_decide (MAX_STR_DIGITS < digit_count s) then None
  else
    match strip s with
    | c :: s' =>
        if (c =? 45)%N then Z.opp <$> int_digits s' 0 false
        else if (c =? 43)%N then int_digits s' 0 false
        else int_digits (c :: s') 0 false
    | [] => None
    end.

(* ================================================================== *)
(** * XML trees *)
(* ================================================================== *)

Definition NS_A  := "http://schemas.openxmlformats.org/drawingml/2006/main".
Definition NS_P  := "http://schemas.openxmlformats.org/presentationml/2006/main".
Definition NS_CT := "http://schemas.openxmlformats.org/package/2006/content-types".
Definition NS_M  := "http://schemas.openxmlformats.org/officeDocument/2006/math".
Definition NS_XML := "http://www.w3.org/XML/1998/namespace".

(** [f"{{{ns}}}{local}"] *)
Definition qn (ns local : string) : string := "{" +:+ ns +:+ "}" +:+ local.

Definition a_t := qn NS_A "t".
Definition a_r := qn NS_A "r".
Definition a_p := qn NS_A "p".
Definition a_br := qn NS_A "br".
Definition a_tab := qn NS_A "tab".
Definition a_fld := qn NS_A "fld".
Definition a_pPr := qn NS_A "pPr".
Definition a_buChar := qn NS_A "buChar".
Definition a_lstStyle := qn NS_A "lstStyle".
Definition a_txBody := qn NS_A "txBody".
Definition p_txBody := qn NS_P "txBody".
Definition p_sp := qn NS_P "sp".
Definition p_grpSp := qn NS_P "grpSp".
Definition p_graphicFrame := qn NS_P "graphicFrame".
Definition p_cSld := qn NS_P "cSld".
Definition p_spTree := qn NS_P "spTree".
Definition p_nvSpPr := qn NS_P "nvSpPr".
Definition p_nvPr := qn NS_P "nvPr".
Definition p_ph := qn NS_P "ph".
Definition p_sld := qn NS_P "sld".
Definition m_t := qn NS_M "t".
Definition m_oMath := qn NS_M "oMath".
Definition m_oMathPara := qn NS_M "oMathPara".
Definition xml_space := qn NS_XML "space".

(** What an element carries besides its children. *)
Record Label := mkLabel {
  tag : string;
  attrib : list (string * pystr);
  text : option pystr
}.

#[local] Unset Elimination Schemes.
Inductive Element := Elem (lab : Label) (kids : list Element).
#[local] Set Elimination Schemes.

Definition label (e : Element) : Label := match e with Elem l _ => l end.
Definition children (e : Element) : list Element :=
  match e with Elem _ ks => ks end.
Definition etag (e : Element) : string := tag (label e).
Definition etext (e : Element) : option pystr := text (label e).

Definition has_tag (t : string) (e : Element) : bool := bool_decide (etag e = t).

(** [el.get(key)] *)
Fixpoint get_attr (key : string) (attrs : list (string * pystr)) : option pystr :=
  match attrs with
  | [] => None
  | (k, v) :: rest => if bool_decide (k = key) then Some v else get_attr key rest
  end.

(** [el.set(key, value)]: overwrite in place, or add at the end. *)
Fixpoint set_attr (key : string) (v : pystr) (attrs : list (string * pystr))
  : list (string * pystr) :=
  match attrs with
  | [] => [(key, v)]
  | (k, w) :: rest =>
      if bool_decide (k = key) then (k, v) :: rest
      else (k, w) :: set_attr key v rest
  end.

Definition eget (key : string) (e : Element) : option pystr :=
  get_attr key (attrib (label e)).

(** ** Element references *)

Abbreviation path := (list nat).

(** The element a reference denotes. *)
Fixpoint node (e : Element) (p : path) {struct p} : option Element :=
  match p with
  | [] => Some e
  | i :: p' =>
      match children e !! i with
      | Some c => node c p'
      | None => None
      end
  end.

(** In-place update of the label of the referenced element; the children
    stay where they are. *)
Fixpoint relabel (f : Label → Label) (e : Element) (p : path) {struct p}
  : Element :=
  match p with
  | [] => Elem (f (label e)) (children e)
  | i :: p' => Elem (label e) (alter (fun c => relabel f c p') i (children e))
  end.

(** The proper descendants of an element, in document order: [el.iter()]
    without [el] itself. *)
Fixpoint descendants (e : Element) : list Element :=
  match e with
  | Elem _ ks => flat_map (fun k => k :: descendants k) ks
  end.

(** The same, as references relative to the element. *)
Fixpoint desc_paths (e : Element) : list path :=
  match e with
  | Elem _ ks =>
      (fix go (ks : list Element) (i : nat) : list path :=
         match ks with
         | [] => []
         | k :: ks' => ([i] :: map (cons i) (desc_paths k)) ++ go ks' (S i)
         end) ks 0
  end.

(** References among [ps] whose element carries the tag. *)
Definition with_tag (root : Element) (t : string) (ps : list path) : list path :=
  List.filter (fun p => match node root p with
                        | Some e => has_tag t e
                        | None => false
                        end) ps.

(** ElementPath step [//tag] from each context reference. *)
Definition step_desc (root : Element) (t : string) (ctx : list path) : list path :=
  flat_map (fun p => match node root p with
                     | Some e => with_tag root t (map (app p) (desc_paths e))
                     | None => []
                     end) ctx.

(** ElementPath step [/tag] from each context reference. *)
Definition step_child (root : Element) (t : string) (ctx : list path) : list path :=
  flat_map (fun p => match node root p with
                     | Some e => with_tag root t
                                   (map (fun i => p ++ [i]) (seq 0 (length (children e))))
                     | None => []
                     end) ctx.

(** [el.findall(".//tag")] and [el.find("tag")] on a subtree, by value. *)
Definition findall_desc (t : string) (e : Element) : list Element :=
  List.filter (has_tag t) (descendants e).

Definition find_child (t : string) (e : Element) : option Element :=
  head (List.filter (has_tag t) (children e)).

(* ================================================================== *)
(** * Extraction: [slide_text_extractor.py] *)
(* ================================================================== *)

(** Placeholder types to skip (date / slide number / footer / header). *)
Definition _SKIP_PH_TYPES : list pystr :=
  [s2u "dt"; s2u "sldNum"; s2u "ftr"; s2u "hdr"].

(** [value in collection], where [value] may be [None]. *)
Definition opt_in (o : option pystr) (l : list pystr) : bool :=
  match o with
  | Some v => bool_decide (v ∈ l)
  | None => false
  end.

(** What one direct child of a run adds to the run's text. *)
Definition run_child_text (child : Element) : pystr :=
  if has_tag a_t child then or_empty (etext child)
  else if has_tag a_tab child then [TAB]
  else if has_tag a_br child then [LF]
  else [].

(** [_text_from_run]: the direct children first, then every OfficeMath
    text nested anywhere under the run. *)
Definition _text_from_run (a_r_el : Element) : pystr :=
  concat (map run_child_text (children a_r_el))
  ++ concat (map (fun mt => or_empty (etext mt)) (findall_desc m_t a_r_el)).

(** The [char] of the first [a:buChar] child, when it is a non-empty string. *)
Definition buChar_of (pr : Element) : pystr :=
  match find_child a_buChar pr with
  | Some bu => match eget "char" bu with
               | Some ch => if truthy ch then ch else []
               | None => []
               end
  | None => []
  end.

(** [f"a:lvl{k}pPr"] for the clamped level [k]. *)
Definition lvl_name (k : Z) : string :=
  qn NS_A ("lvl" +:+ String (ascii_of_N (48 + Z.to_N k)) "" +:+ "pPr").

(** The paragraph level read from [pPr]: 0 when the attribute is absent,
    empty or not an integer. *)
Definition paragraph_lvl (pPr : option Element) : Z :=
  match pPr with
  | Some pr =>
      match eget "lvl" pr with
      | Some v => default 0%Z (py_int (if truthy v then v else s2u "0"))
      | None => 0%Z
      end
  | None => 0%Z
  end.

(** The bullet of a paragraph (lines 69-93 of the extractor). *)
Definition paragraph_bullet (p_elem : Element) (lstStyle : option Element) : pystr :=
  let pPr := find_child a_pPr p_elem in
  let bullet := match pPr with Some pr => buChar_of pr | None => [] end in
  if negb (truthy bullet) then
    match lstStyle with
    | Some ls =>
        let lvl := paragraph_lvl pPr in
        match find_child (lvl_name (Z.max 1 (Z.min 9 (lvl + 1)))) ls with
        | Some lvl_pPr =>
            let ch2 := buChar_of lvl_pPr in
            if truthy ch2 then ch2 else bullet
        | None => bullet
        end
    | None => bullet
    end
  else bullet.

(** What one direct child of a paragraph adds to the body. *)
Definition paragraph_child_text (child : Element) : pystr :=
  if has_tag a_r child || has_tag a_fld child then _text_from_run child
  else if has_tag a_br child then [LF]
  else if has_tag a_tab child then [TAB]
  else if has_tag m_t child then or_empty (etext child)
  else [].

Definition paragraph_body (p_elem : Element) : pystr :=
  concat (map paragraph_child_text (children p_elem)).

(** The one-character strings after which no space follows the bullet:
    [":", ";", ".", ",", ")", "-", "—", "·", " "]. *)
Definition NO_SPACE_AFTER_BULLET : list pystr :=
  [[58]; [59]; [46]; [44]; [41]; [45]; [8212]; [183]; [32]]%N.

(** [_extract_paragraph_text] *)
Definition _extract_paragraph_text (p_elem : Element) (lstStyle : option Element)
  : pystr :=
  let bullet := paragraph_bullet p_elem lstStyle in
  let body := paragraph_body p_elem in
  if truthy bullet then
    bullet ++ (if bool_decide (take 1 body ∈ NO_SPACE_AFTER_BULLET) then []
               else [SPACE]) ++ body
  else body.

(** The text bodies of a slide in the order the extractor visits them:
    every [a:txBody] first, then every [p:txBody]. *)
Definition tx_bodies (root : Element) : list path :=
  step_desc root a_txBody [[]] ++ step_desc root p_txBody [[]].

(** The first [p:ph] under the shape at [sp] has one of the skipped types. *)
Definition first_ph_is_skipped (root : Element) (sp : path) : bool :=
  match head (step_desc root p_ph [sp]) with
  | Some ph =>
      match node root ph with
      | Some ph_el => opt_in (eget "type" ph_el) _SKIP_PH_TYPES
      | None => false
      end
  | None => false
  end.

(** [skip_this]: the first [p:sp] of the slide, in document order, whose
    subtree holds the text body decides. *)
Definition skip_this (root : Element) (txBody : path) : bool :=
  match List.find (fun sp => bool_decide (sp `prefix_of` txBody))
                  (step_desc root p_sp [[]]) with
  | Some sp => first_ph_is_skipped root sp
  | None => false
  end.

(** The paragraphs that contribute a line, in the order of their lines,
    each with the list style of its text body. *)
Definition retained_paragraphs (root : Element) : list (path * option Element) :=
  flat_map
    (fun txBody =>
       if skip_this root txBody then []
       else
         let lstStyle := node root txBody ≫= find_child a_lstStyle in
         map (fun p => (p, lstStyle)) (step_child root a_p [txBody]))
    (tx_bodies root).

(** [_iter_all_paragraphs_from_slide_xml], on a part that parsed. *)
Definition _iter_all_paragraphs_from_slide_xml (root : Element) : list pystr :=
  map (fun '(p, lstStyle) =>
         match node root p with
         | Some p_elem => _extract_paragraph_text p_elem lstStyle
         | None => []
         end)
      (retained_paragraphs root).

(** The text written to [slide{i}.txt]. *)
Definition line_file (lines : list pystr) : pystr :=
  join [LF] (map escape_newlines lines).

(** ** Containers and results *)

(** A part of the container: bytes that parse to a tree, or bytes on which
    the XML parser raises (kept as they are; media parts are of this kind). *)
Inductive Part :=
  | Unparsable (raw : list N)
  | Parsed (root : Element).

(** Member names of the archive.  [SlideXml n] is [ppt/slides/slide{n}.xml],
    [MediaFile b] is [ppt/media/{b}]. *)
Inductive PartName :=
  | SlideXml (n : nat)
  | ContentTypesXml
  | MediaFile (basename : string)
  | OtherFile (name : string).

#[global] Instance PartName_eq_dec : EqDecision PartName.
Proof. solve_decision. Defined.

(** The members of an archive, in the order they are stored. *)
Abbreviation Container := (list (PartName * Part)).

Fixpoint read_part (c : Container) (name : PartName) : option Part :=
  match c with
  | [] => None
  | (k, v) :: c' => if bool_decide (k = name) then Some v else read_part c' name
  end.

Fixpoint write_part (c : Container) (name : PartName) (v : Part) : Container :=
  match c with
  | [] => [(name, v)]
  | (k, w) :: c' =>
      if bool_decide (k = name) then (k, v) :: c'
      else (k, w) :: write_part c' name v
  end.

Inductive Exn :=
  | ParseError (slide : nat)
  | BadZipFile
  | ZipWriteError.

Inductive result (A : Type) :=
  | Ok (a : A)
  | Raise (e : Exn).
Arguments Ok {A} a.
Arguments Raise {A} e.

(** [extract_slide_text]: probe [slide1.xml], [slide2.xml], ... until one
    is missing.  [probes] bounds the number of probes; the state is the
    output directory ([slide{i}.txt] under key [i]), which keeps the files
    written before a failure. *)
Fixpoint extract_loop (probes : nat) (zf : Container) (slide_idx : nat)
    (out_dir : gmap nat pystr) : gmap nat pystr * result (list nat) :=
  match probes with
  | O => (out_dir, Ok [])
  | S probes' =>
      match read_part zf (SlideXml slide_idx) with
      | None => (out_dir, Ok [])
      | Some (Unparsable _) => (out_dir, Raise (ParseError slide_idx))
      | Some (Parsed root) =>
          let lines := _iter_all_paragraphs_from_slide_xml root in
          let out_dir' := <[slide_idx := line_file lines]> out_dir in
          match extract_loop probes' zf (S slide_idx) out_dir' with
          | (d, Ok saved) => (d, Ok (slide_idx :: saved))
          | (d, Raise e) => (d, Raise e)
          end
      end
  end.

Definition extract_slide_text (zf : Container) (out_dir : gmap nat pystr)
  : gmap nat pystr * result (list nat) :=
  extract_loop (S (length zf)) zf 1 out_dir.

(* ================================================================== *)
(** * Reintegration: [reintegrator_all.py] *)
(* ================================================================== *)

(** What [_log] is called with. *)
Inductive LogMsg :=
  | WarnTruncateRuns (dropped : nat)
  | WarnTruncateParagraphs (dropped : nat)
  | InfoNoParagraphs
  | SkipSlide (slide : nat)
  | InfoSlide (slide : nat) (method : string) (runs wrote : nat)
  | ErrorContentTypes
  | InfoReplaced (basename : string)
  | Done.

(** [_read_lines]: a missing file reads as no lines.  Reading in text mode
    turns each carriage return (with or without a line feed after it) into
    a line feed first; [splitlines] puts its boundaries at the same places
    on the untranslated text. *)
Definition _read_lines (txt : option pystr) : list pystr :=
  match txt with
  | None => []
  | Some content => splitlines content
  end.

(** [_split_keep_seps]: [buf] is the segment being read, in reverse. *)
Fixpoint split_keep_seps_go (s : pystr) (buf : pystr) {struct s}
  : list (pystr * pystr) :=
  match s with
  | [] => [(rev buf, [])]
  | ch :: rest =>
      let real_or_plain :=
        if ((ch =? LF) || (ch =? TAB))%N then
          (rev buf, if (ch =? LF)%N then LIT_N else LIT_T)
            :: split_keep_seps_go rest []
        else split_keep_seps_go rest (ch :: buf) in
      if (ch =? BACKSLASH)%N then
        match rest with
        | d :: rest' =>
            if ((d =? LOWER_N) || (d =? LOWER_T))%N then
              (rev buf, if (d =? LOWER_N)%N then LIT_N else LIT_T)
                :: split_keep_seps_go rest' []
            else real_or_plain
        | [] => real_or_plain
        end
      else real_or_plain
  end.

Definition _split_keep_seps (s : pystr) : list (pystr * pystr) :=
  split_keep_seps_go s [].

(** ** Collectors *)

(** [_find_runs]: every [a:t] under the root. *)
Definition _find_runs (root : Element) : list Element := findall_desc a_t root.

(** ElementPath [".//p:nvSpPr/p:nvPr/p:ph"] on a subtree. *)
Definition find_nv_ph (sp_el : Element) : option Element :=
  head (flat_map (fun nvPr => List.filter (has_tag p_ph) (children nvPr))
          (flat_map (fun nvSpPr => List.filter (has_tag p_nvPr) (children nvSpPr))
             (findall_desc p_nvSpPr sp_el))).

Definition _shape_is_skipped_placeholder (sp_el : Element) : bool :=
  match find_nv_ph sp_el with
  | None => false
  | Some ph =>
      opt_in (eget "type" ph) [s2u "sldNum"; s2u "dt"; s2u "ftr"; s2u "hdr"]
  end.

(** Index and value of the first child with the tag. *)
Fixpoint find_child_from (t : string) (ks : list Element) (i : nat)
  : option (nat * Element) :=
  match ks with
  | [] => None
  | k :: ks' => if has_tag t k then Some (i, k) else find_child_from t ks' (S i)
  end.

(** References to every [a:p] under the element at [pre]. *)
Definition paragraphs_under (pre : path) (e : Element) : list path :=
  map (app pre)
      (List.filter (fun q => match node e q with
                             | Some d => has_tag a_p d
                             | None => false
                             end) (desc_paths e)).

(** [_collect_paragraphs_from_node]; [pre] is the reference of [e]. *)
Fixpoint _collect_paragraphs_from_node (pre : path) (e : Element) : list path :=
  match e with
  | Elem l ks =>
      let recurse :=
        (fix go (ks : list Element) (i : nat) : list path :=
           match ks with
           | [] => []
           | k :: ks' =>
               _collect_paragraphs_from_node (pre ++ [i]) k ++ go ks' (S i)
           end) ks 0 in
      if bool_decide (tag l = p_sp) then
        if _shape_is_skipped_placeholder e then []
        else
          match find_child_from p_txBody ks 0 with
          | Some (i, tx) => paragraphs_under (pre ++ [i]) tx
          | None => []
          end
      else if bool_decide (tag l = p_grpSp) then recurse
      else if bool_decide (tag l = p_graphicFrame) then paragraphs_under pre e
      else recurse
  end.

(** [_collect_paragraphs] *)
Definition _collect_paragraphs (root : Element) : list path :=
  match head (step_child root p_spTree (step_desc root p_cSld [[]])) with
  | None => paragraphs_under [] root
  | Some sp_tree =>
      match node root sp_tree with
      | Some st =>
          flat_map (fun '(i, child) =>
                      _collect_paragraphs_from_node (sp_tree ++ [i]) child)
                   (imap (fun i child => (i, child)) (children st))
      | None => []
      end
  end.

(** ** Paragraph-level writer *)

(** [not(ancestor::m:oMath or ancestor::m:oMathPara)] for the element at
    [r]: no element on the way from the root down to its parent is math. *)
Definition no_math_ancestor (root : Element) (r : path) : bool :=
  forallb (fun k => match node root (take k r) with
                    | Some anc => negb (has_tag m_oMath anc || has_tag m_oMathPara anc)
                    | None => true
                    end)
          (seq 0 (length r)).

(** XPath [".//a:r[not(ancestor::m:oMath or ancestor::m:oMathPara)]/a:t"]
    from the paragraph at [p], in document order: the [a:t] under the
    paragraph whose parent is an [a:r] under the paragraph with no math
    ancestor. *)
Definition plain_t_nodes (root : Element) (p : path) : list path :=
  match node root p with
  | None => []
  | Some p_el =>
      List.filter
        (fun t =>
           let r := removelast t in
           match node root t, node root r with
           | Some t_el, Some r_el =>
               has_tag a_t t_el && has_tag a_r r_el
               && bool_decide (length p < length r)
               && no_math_ancestor root r
           | _, _ => false
           end)
        (map (app p) (desc_paths p_el))
  end.

Definition text_at (root : Element) (t : path) : pystr :=
  match node root t with
  | Some t_el => or_empty (etext t_el)
  | None => []
  end.

(** [_visible_plaintext_outside_math] *)
Definition _visible_plaintext_outside_math (root : Element) (p : path) : pystr :=
  concat (map (text_at root) (plain_t_nodes root p)).

Definition set_text (s : pystr) (l : Label) : Label :=
  mkLabel (tag l) (attrib l) (Some s).

(** [_set_xml_space_preserve] *)
Definition _set_xml_space_preserve (l : Label) : Label :=
  mkLabel (tag l) (set_attr xml_space (s2u "preserve") (attrib l)) (text l).

(** [_replace_plaintext_preserving_math]: the loop state is the tree and
    the [first] flag. *)
Definition _replace_plaintext_preserving_math (root : Element) (p : path)
    (new_text : pystr) : Element :=
  fst (fold_left
         (fun '(tree, first) t =>
            if first : bool
            then (relabel (fun l => _set_xml_space_preserve (set_text new_text l)) tree t,
                  false)
            else (relabel (set_text []) tree t, false))
         (plain_t_nodes root p) (root, true)).

(** ** Run-level writer *)

Definition new_element (t : string) : Element := Elem (mkLabel t [] None) [].

(** The [a:t] that [_replace_single_t_with_segments] creates for a segment. *)
Definition new_t (seg : pystr) : Element :=
  Elem (_set_xml_space_preserve (set_text seg (mkLabel a_t [] None))) [].

(** The elements [_replace_single_t_with_segments] appends to the parent. *)
Definition segment_elements (text : pystr) : list Element :=
  flat_map (fun '(seg, sep) =>
              new_t seg ::
              (if bool_decide (sep = LIT_N) then [new_element a_br]
               else if bool_decide (sep = LIT_T) then [new_element a_tab]
               else []))
           (_split_keep_seps text).

(** The loop [for t_el, text in zip(t_nodes, lines)] of [_patch_slide_runs]
    on the subtree [e], with the lines not yet paired.  Each [a:t] child is
    removed from its parent and its segments are appended after the
    children that stay; an [a:t] nested inside a removed one still takes its
    line, in a subtree that is no longer part of the slide.  When the lines
    run out the remaining elements are left as they are. *)
Fixpoint patch_runs (e : Element) (lines : list pystr) : Element * list pystr :=
  match e with
  | Elem l ks =>
      let '(kept, added, rest) :=
        (fix go (ks : list Element) (lines : list pystr)
           : list Element * list Element * list pystr :=
           match ks with
           | [] => ([], [], lines)
           | k :: ks' =>
               if has_tag a_t k then
                 match lines with
                 | [] => let '(kept, added, rest) := go ks' [] in
                         (k :: kept, added, rest)
                 | text :: lines' =>
                     let '(kept, added, rest) :=
                       go ks' (drop (length (findall_desc a_t k)) lines') in
                     (kept, segment_elements text ++ added, rest)
                 end
               else
                 let '(k', lines1) := patch_runs k lines in
                 let '(kept, added, rest) := go ks' lines1 in
                 (k' :: kept, added, rest)
           end) ks lines in
      (Elem l (kept ++ added), rest)
  end.

(** ** Slide-level methods *)

(** The padding and truncation both methods apply to the lines, with the
    number of dropped lines when there are any. *)
Definition fit_lines (n_xml : nat) (lines : list pystr) : list pystr * option nat :=
  let n_txt := length lines in
  if bool_decide (n_txt < n_xml) then (lines ++ replicate (n_xml - n_txt) [], None)
  else if bool_decide (n_xml < n_txt) then (take n_xml lines, Some (n_txt - n_xml))
  else (lines, None).

(** [_patch_slide_runs]: the tree written back, the log, the count. *)
Definition _patch_slide_runs (root : Element) (lines : list pystr)
  : Element * list LogMsg * nat :=
  let n_xml := length (_find_runs root) in
  let '(lines', dropped) := fit_lines n_xml lines in
  let log := match dropped with Some d => [WarnTruncateRuns d] | None => [] end in
  (fst (patch_runs root lines'), log, n_xml).

(** The body of the loop over [zip(p_nodes, lines)] in
    [_patch_slide_paragraphs]. *)
Definition patch_paragraph (root : Element) (p : path) (text : pystr) : Element :=
  let visible := strip (_visible_plaintext_outside_math root p) in
  if truthy visible then _replace_plaintext_preserving_math root p text
  else root.

Definition patch_paragraphs (root : Element) (pairs : list (path * pystr)) : Element :=
  fold_left (fun tree '(p, text) => patch_paragraph tree p text) pairs root.

(** [_patch_slide_paragraphs] *)
Definition _patch_slide_paragraphs (root : Element) (lines : list pystr)
  : Element * list LogMsg * nat :=
  let p_nodes := _collect_paragraphs root in
  let n_xml := length p_nodes in
  if bool_decide (n_xml = 0) then (root, [InfoNoParagraphs], 0)
  else
    let '(lines', dropped) := fit_lines n_xml lines in
    let log := match dropped with
               | Some d => [WarnTruncateParagraphs d]
               | None => []
               end in
    (patch_paragraphs root (zip p_nodes lines'), log, n_xml).

(** ** The hybrid chooser *)

(** Binary64 arithmetic: 53 bits of precision, exponents below 1024. *)
Definition prec : Z := 53.
Definition emax : Z := 1024.

(** [float(n)] *)
Definition float_of_nat (n : nat) : spec_float :=
  binary_normalize prec emax (Z.of_nat n) 0 false.

(** The doubles that the literals [0.90] and [1.15] denote. *)
Definition F0_90 : spec_float := S754_finite false 8106479329266893 (-53).
Definition F1_15 : spec_float := S754_finite false 5179139571476070 (-52).

(** [_choose_method] *)
Definition _choose_method (n_runs n_lines : nat) : string :=
  if bool_decide (n_lines = 0) then "paragraphs"
  else
    let ratio := SFdiv prec emax (float_of_nat n_runs) (float_of_nat n_lines) in
    let diff := Z.abs (Z.of_nat n_runs - Z.of_nat n_lines) in
    if SFleb F0_90 ratio && SFleb ratio F1_15 && (diff <=? 2)%Z then "runs"
    else "paragraphs".

(** [_patch_slide_hybrid]: the tree written back and the log, then the
    returned [(method, n_runs, count)]. *)
Definition _patch_slide_hybrid (root : Element) (txt_lines : list pystr)
  : Element * list LogMsg * (string * nat * nat) :=
  let n_runs := length (_find_runs root) in
  let method := _choose_method n_runs (length txt_lines) in
  let '(root', log, count) :=
    if bool_decide (method = "runs") then _patch_slide_runs root txt_lines
    else _patch_slide_paragraphs root txt_lines in
  (root', log, (method, n_runs, count)).

(** ** The file system and the archive *)

(** The files the operations touch: archives by path. *)
Abbreviation FS := (gmap string Container).

(** [with zipfile.ZipFile(path, "w") as zout: for f in files: zout.write(f)].
    Opening truncates the file.  With [fault = Some k] the write of member
    [k] raises: the members before it are in the file when the exception
    leaves the [with] block. *)
Definition zip_write (fs : FS) (path : string) (members : Container)
    (fault : option nat) : FS * result unit :=
  match fault with
  | Some k =>
      if bool_decide (k < length members)
      then (<[path := take k members]> fs, Raise ZipWriteError)
      else (<[path := members]> fs, Ok ())
  | None => (<[path := members]> fs, Ok ())
  end.

(** [slide{n}.xml], the name [sorted] compares. *)
Definition slide_file_name (n : nat) : string :=
  "slide" +:+ NilZero.string_of_uint (Nat.to_uint n) +:+ ".xml".

Fixpoint insert_by_name (n : nat) (l : list nat) : list nat :=
  match l with
  | [] => [n]
  | m :: l' =>
      if String.leb (slide_file_name n) (slide_file_name m) then n :: l
      else m :: insert_by_name n l'
  end.

(** [sorted(slides_dir.glob("slide*.xml"))], as slide numbers. *)
Definition sorted_slides (c : Container) : list nat :=
  foldr insert_by_name []
        (omap (fun '(k, _) => match k with SlideXml n => Some n | _ => None end) c).

(** The loop over the slide parts in [reintegrate_translated_slide_text]:
    [tmp] is the extracted tree of files, [txt_dir] holds [slide{n}.txt]
    under key [n]. *)
Fixpoint reintegrate_slides (slides : list nat) (txt_dir : gmap nat pystr)
    (tmp : Container) (modified : nat)
  : result (Container * list LogMsg * nat) :=
  match slides with
  | [] => Ok (tmp, [], modified)
  | slide_num :: slides' =>
      let lines := _read_lines (txt_dir !! slide_num) in
      match lines with
      | [] =>
          match reintegrate_slides slides' txt_dir tmp modified with
          | Ok (tmp', log, m) => Ok (tmp', SkipSlide slide_num :: log, m)
          | Raise e => Raise e
          end
      | _ :: _ =>
          match read_part tmp (SlideXml slide_num) with
          | Some (Parsed root) =>
              let '(root', log1, (method, n_runs, wrote)) :=
                _patch_slide_hybrid root lines in
              let tmp1 := write_part tmp (SlideXml slide_num) (Parsed root') in
              let modified1 :=
                if bool_decide (0 < wrote) then S modified else modified in
              match reintegrate_slides slides' txt_dir tmp1 modified1 with
              | Ok (tmp', log, m) =>
                  Ok (tmp', log1 ++ InfoSlide slide_num method n_runs wrote :: log, m)
              | Raise e => Raise e
              end
          | _ => Raise (ParseError slide_num)
          end
      end
  end.

(** [reintegrate_translated_slide_text] *)
Definition reintegrate_translated_slide_text (fs : FS) (pptx_in : string)
    (txt_dir : gmap nat pystr) (pptx_out : string) (fault : option nat)
  : FS * result (nat * list LogMsg) :=
  match fs !! pptx_in with
  | None => (fs, Raise BadZipFile)
  | Some zin =>
      match reintegrate_slides (sorted_slides zin) txt_dir zin 0 with
      | Raise e => (fs, Raise e)
      | Ok (tmp, log, modified) =>
          match zip_write fs pptx_out tmp fault with
          | (fs', Ok _) => (fs', Ok (modified, log ++ [Done]))
          | (fs', Raise e) => (fs', Raise e)
          end
      end
  end.

(** ** Audio *)

Definition ct_Default := qn NS_CT "Default".

(** The manifest patch (lines 286-295): declare [m4a] unless some
    [ct:Default] already does; a manifest that does not parse is logged. *)
Definition ensure_m4a_declared (tmp : Container) : Container * list LogMsg :=
  match read_part tmp ContentTypesXml with
  | Some (Parsed root) =>
      if existsb (fun e => bool_decide (eget "Extension" e = Some (s2u "m4a")))
                 (findall_desc ct_Default root)
      then (tmp, [])
      else
        let entry := Elem (mkLabel ct_Default
                             [("Extension", s2u "m4a");
                              ("ContentType", s2u "audio/mp4")] None) [] in
        (write_part tmp ContentTypesXml
           (Parsed (Elem (label root) (children root ++ [entry]))), [])
  | _ => (tmp, [ErrorContentTypes])
  end.

(** The loop over [tts_dir.glob("*.m4a")]. *)
Fixpoint replace_audio (tts : list (string * list N)) (tmp : Container)
    (replaced : nat) : Container * list LogMsg * nat :=
  match tts with
  | [] => (tmp, [], replaced)
  | (name, data) :: tts' =>
      match read_part tmp (MediaFile name) with
      | Some _ =>
          let '(tmp', log, r) :=
            replace_audio tts' (write_part tmp (MediaFile name) (Unparsable data))
                          (S replaced) in
          (tmp', InfoReplaced name :: log, r)
      | None => replace_audio tts' tmp replaced
      end
  end.

(** [PurePath.with_suffix] on the text of a path.  The name is what follows
    the last slash; its suffix starts at its last dot, unless that dot is
    the first or the last character of the name. *)
Definition is_char (c : ascii) (a : ascii) : bool := bool_decide (a = c).

Fixpoint span_until (f : ascii → bool) (l : list ascii) : list ascii * list ascii :=
  match l with
  | [] => ([], [])
  | a :: l' => if f a then ([], l)
               else let '(pre, post) := span_until f l' in (a :: pre, post)
  end.

Definition with_suffix (p : string) (suffix : string) : string :=
  let '(rev_name, rev_dir) := span_until (is_char "/") (rev (list_ascii_of_string p)) in
  let '(rev_ext, rev_rest) := span_until (is_char ".") rev_name in
  let rev_stem :=
    match rev_ext, rev_rest with
    | _ :: _, _ :: b :: stem => b :: stem
    | _, _ => rev_name
    end in
  string_of_list_ascii
    (rev (rev (list_ascii_of_string suffix) ++ rev_stem ++ rev_dir)).

(** [shutil.move(src, dst)] *)
Definition move (fs : FS) (src dst : string) : FS :=
  match fs !! src with
  | Some c => <[dst := c]> (delete src fs)
  | None => fs
  end.

(** [reintegrate_audio_to_pptx] *)
Definition reintegrate_audio_to_pptx (fs : FS) (pptx_path : string)
    (tts_dir : list (string * list N)) (fault : option nat)
  : FS * result (nat * list LogMsg) :=
  match fs !! pptx_path with
  | None => (fs, Raise BadZipFile)
  | Some zin =>
      let '(tmp1, log1) := ensure_m4a_declared zin in
      let '(tmp2, log2, replaced) := replace_audio tts_dir tmp1 0 in
      let new_pptx := with_suffix pptx_path ".tmp.pptx" in
      match zip_write fs new_pptx tmp2 fault with
      | (fs', Ok _) => (move fs' new_pptx pptx_path, Ok (replaced, log1 ++ log2 ++ [Done]))
      | (fs', Raise e) => (fs', Raise e)
      end
  end.

(** [reintegrate_text_and_audio]: the copy, then both rewrites of the copy. *)
Definition reintegrate_text_and_audio (fs : FS) (pptx_in : string)
    (txt_dir : gmap nat pystr) (tts_dir : list (string * list N))
    (pptx_out : string) (fault_text fault_audio : option nat)
  : FS * result unit :=
  match fs !! pptx_in with
  | None => (fs, Raise BadZipFile)
  | Some c =>
      let fs0 := <[pptx_out := c]> fs in
      match reintegrate_translated_slide_text fs0 pptx_out txt_dir pptx_out fault_text with
      | (fs1, Raise e) => (fs1, Raise e)
      | (fs1, Ok _) =>
          match reintegrate_audio_to_pptx fs1 pptx_out tts_dir fault_audio with
          | (fs2, Raise e) => (fs2, Raise e)
          | (fs2, Ok _) => (fs2, Ok ())
          end
      end
  end.

(* ================================================================== *)
(** * Sample slides *)
(* ================================================================== *)

Definition el (t : string) (attrs : list (string * pystr)) (txt : option pystr)
    (ks : list Element) : Element := Elem (mkLabel t attrs txt) ks.

Definition mk_t (s : pystr) : Element := el a_t [] (Some s) [].
Definition mk_run (s : pystr) : Element := el a_r [] None [mk_t s].
Definition mk_p (ks : list Element) : Element := el a_p [] None ks.
Definition mk_txBody (ps : list Element) : Element := el p_txBody [] None ps.

(** A shape: its non-visual properties, with a placeholder of the given
    type when there is one, and its text body. *)
Definition mk_sp (ph_type : option pystr) (ps : list Element) : Element :=
  el p_sp [] None
     [el p_nvSpPr [] None
         [el p_nvPr [] None
             match ph_type with
             | Some ty => [el p_ph [("type", ty)] None []]
             | None => []
             end];
      mk_txBody ps].

Definition mk_slide (shapes : list Element) : Element :=
  el p_sld [] None [el p_cSld [] None [el p_spTree [] None shapes]].


(* ================================================================== *)
(** * Definitions used in the statements *)
(* ================================================================== *)

(** The references below a list of siblings, the first of them being
    child [i]. *)
Definition desc_paths_from (ks : list Element) (i : nat) : list path :=
  concat (imap (fun j k => [i + j] :: map (cons (i + j)) (desc_paths k)) ks).

(** A sequence of in-place updates with the same function. *)
Definition relabel_all (g : Label → Label) (e : Element) (ts : list path) : Element :=
  fold_left (fun tree t => relabel g tree t) ts e.

(** The label of the first target after the paragraph writer: the tag it
    had, the line as its text, and its attributes with [xml:space] set to
    [preserve]. *)
Definition write_first (new_text : pystr) (l : Label) : Label :=
  mkLabel (tag l) (set_attr xml_space (s2u "preserve") (attrib l)) (Some new_text).

(** The label of the element at [q] after the paragraph writer ran on the
    targets [ts]. *)
Definition patched_label (ts : list path) (line : pystr) (q : path) (l : Label)
  : Label :=
  match ts with
  | [] => l
  | t1 :: rest =>
      if decide (q = t1) then write_first line l
      else if decide (q ∈ rest) then mkLabel (tag l) (attrib l) (Some [])
      else l
  end.

(** The element asks for its whitespace to be kept. *)
Definition space_preserved (e : Element) : bool :=
  bool_decide (eget xml_space e = Some (s2u "preserve")).

(** Every [a:t] among the elements asks for its whitespace to be kept. *)
Definition texts_preserved (es : list Element) : bool :=
  forallb (fun d => negb (has_tag a_t d) || space_preserved d) es.

(** The inner loop of [patch_runs], over the children of an element. *)
Fixpoint patch_runs_kids (ks : list Element) (lines : list pystr)
  : list Element * list Element * list pystr :=
  match ks with
  | [] => ([], [], lines)
  | k :: ks' =>
      if has_tag a_t k then
        match lines with
        | [] => let '(kept, added, rest) := patch_runs_kids ks' [] in
                (k :: kept, added, rest)
        | text :: lines' =>
            let '(kept, added, rest) :=
              patch_runs_kids ks' (drop (length (findall_desc a_t k)) lines') in
            (kept, segment_elements text ++ added, rest)
        end
      else
        let '(k', lines1) := patch_runs k lines in
        let '(kept, added, rest) := patch_runs_kids ks' lines1 in
        (k' :: kept, added, rest)
  end.

(** The number of elements with the tag below a list of siblings, the
    siblings included. *)
Definition count_tag (t : string) (ks : list Element) : nat :=
  length (List.filter (has_tag t) (flat_map (fun k => k :: descendants k) ks)).

(** Every [a:t] below the element is a leaf, as the schema has it. *)
Definition t_leaves (e : Element) : bool :=
  forallb (fun d => negb (has_tag a_t d) || bool_decide (children d = []))
          (descendants e).

(** The lines one per structural unit: line [i] of the file, or the empty
    string when the file has no line [i]. *)
Definition one_line_per_unit (n_xml : nat) (lines : list pystr) : list pystr :=
  map (fun i => default [] (lines !! i)) (seq 0 n_xml).

(** An element that is not an [a:t], or an [a:t] without children. *)
Definition leafy (d : Element) : bool :=
  negb (has_tag a_t d) || bool_decide (children d = []).

(** The number of paragraph elements of a slide. *)
Definition n_paragraphs (e : Element) : nat := length (findall_desc a_p e).

(** One pass of the loop of [reintegrate_translated_slide_text] over a
    slide that parsed: skipped when its text file is missing or empty. *)
Definition reintegrate_slide (root : Element) (txt : option pystr) : Element :=
  match _read_lines txt with
  | [] => root
  | lines => (_patch_slide_hybrid root lines).1.1
  end.

(** Extraction of a slide followed by reintegration of the unedited file. *)
Definition roundtrip_slide (root : Element) : Element :=
  reintegrate_slide root
    (Some (line_file (_iter_all_paragraphs_from_slide_xml root))).

(** ** The bullet rule in the words of the specification *)

(** The bullet character a properties element gives: the [char] of its
    [a:buChar], when there is one and it is not the empty string. *)
Definition bullet_char (pr : option Element) : option pystr :=
  match (pr ≫= find_child a_buChar) ≫= eget "char" with
  | Some (c :: ch) => Some (c :: ch)
  | _ => None
  end.

(** The integer a plain decimal numeral denotes: ASCII digits, the last
    of them the units, after an optional minus sign. *)
Definition ascii_digit (c : N) : bool := ((48 <=? c) && (c <=? 57))%N.

Fixpoint units_first (rs : list N) : Z :=
  match rs with
  | [] => 0%Z
  | d :: rs' => (Z.of_N d - 48 + 10 * units_first rs')%Z
  end.

Definition numeral_value (v : pystr) : option Z :=
  let '(negative, ds) :=
    match v with
    | c :: ds => if (c =? 45)%N then (true, ds) else (false, v)
    | [] => (false, [])
    end in
  if truthy ds && forallb ascii_digit ds
  then Some (if negative then - units_first (rev ds) else units_first (rev ds))%Z
  else None.

(** The nesting level of a paragraph: the value of the [lvl] attribute of
    its properties, 0 when there are no properties, no attribute or an
    empty one.  It is undefined when the attribute is no plain numeral, or
    one of more than 4300 characters. *)
Definition nesting_level (p_elem : Element) : option Z :=
  match find_child a_pPr p_elem ≫= eget "lvl" with
  | None | Some [] => Some 0%Z
  | Some v => if bool_decide (length v ≤ 4300) then numeral_value v else None
  end.

(** Nesting level plus one, clamped to 1..9. *)
Definition clamped_level (lvl : Z) : Z :=
  if (lvl + 1 <? 1)%Z then 1%Z else if (9 <? lvl + 1)%Z then 9%Z else (lvl + 1)%Z.

(** The properties a list style holds for the levels 1 to 9. *)
Definition list_style_levels : list string :=
  [qn NS_A "lvl1pPr"; qn NS_A "lvl2pPr"; qn NS_A "lvl3pPr"; qn NS_A "lvl4pPr";
   qn NS_A "lvl5pPr"; qn NS_A "lvl6pPr"; qn NS_A "lvl7pPr"; qn NS_A "lvl8pPr";
   qn NS_A "lvl9pPr"].

Definition level_properties (ls : Element) (k : Z) : option Element :=
  list_style_levels !! Z.to_nat (k - 1) ≫= fun t => find_child t ls.

(** Explicit on the paragraph, else inherited from the list style at the
    level of the paragraph, else none. *)
Definition resolved_bullet (lvl : Z) (p_elem : Element) (lstStyle : option Element)
  : option pystr :=
  match bullet_char (find_child a_pPr p_elem) with
  | Some ch => Some ch
  | None =>
      lstStyle ≫= fun ls => bullet_char (level_properties ls (clamped_level lvl))
  end.

(** Colon, semicolon, period, comma, closing parenthesis, hyphen-minus,
    em dash, middle dot, space. *)
Definition closing_chars : list N := [58; 59; 46; 44; 41; 45; 8212; 183; 32]%N.

Definition begins_with_closing (body : pystr) : bool :=
  match body with
  | c :: _ => bool_decide (c ∈ closing_chars)
  | [] => false
  end.

Definition bulleted_line (lvl : Z) (p_elem : Element) (lstStyle : option Element)
  : pystr :=
  let body := paragraph_body p_elem in
  match resolved_bullet lvl p_elem lstStyle with
  | Some b => if begins_with_closing body then b ++ body else b ++ [SPACE] ++ body
  | None => body
  end.

(** ** The bullet rule read word for word *)

(** Hyphen-minus, hyphen, non-breaking hyphen, figure dash, en dash,
    em dash, horizontal bar. *)
Definition dash_variants : list N := [45; 8208; 8209; 8210; 8211; 8212; 8213]%N.

Definition worded_closing_chars : list N :=
  ([58; 59; 46; 44; 41] ++ dash_variants ++ [183; 32])%N.

(** The explicit [a:buChar] when the properties have one, whatever its
    [char]; else the one of the list style. *)
Definition worded_bullet (lvl : Z) (p_elem : Element) (lstStyle : option Element)
  : pystr :=
  match find_child a_pPr p_elem ≫= find_child a_buChar with
  | Some bu => or_empty (eget "char" bu)
  | None =>
      or_empty ((lstStyle ≫= fun ls =>
                   level_properties ls (clamped_level lvl) ≫= find_child a_buChar)
                ≫= eget "char")
  end.

Definition worded_line (lvl : Z) (p_elem : Element) (lstStyle : option Element)
  : pystr :=
  let body := paragraph_body p_elem in
  match worded_bullet lvl p_elem lstStyle with
  | [] => body
  | b => if match body with
            | c :: _ => bool_decide (c ∈ worded_closing_chars)
            | [] => false
            end
         then b ++ body else b ++ [SPACE] ++ body
  end.

(** A paragraph with the bullet [•] whose text begins with an en dash. *)
Definition paragraph_en_dash : Element :=
  el a_p [] None
     [el a_pPr [] None [el a_buChar [("char", [8226]%N)] None []];
      mk_run [8211; 120]%N].

(** A paragraph whose explicit bullet has an empty [char], and a list
    style that gives the first level the bullet [•]. *)
Definition paragraph_empty_bullet : Element :=
  el a_p [] None
     [el a_pPr [] None [el a_buChar [("char", [])] None []];
      mk_run (s2u "x")].

Definition list_style_bullet : Element :=
  el a_lstStyle [] None
     [el (qn NS_A "lvl1pPr") [] None [el a_buChar [("char", [8226]%N)] None []];
      el (qn NS_A "lvl3pPr") [] None [el a_buChar [("char", [8211]%N)] None []]].

(** A paragraph of nesting level 2 without a bullet of its own. *)
Definition paragraph_level_2 : Element :=
  el a_p [] None [el a_pPr [("lvl", s2u "2")] None []; mk_run (s2u "x")].

(** ** The text units of a paragraph in the words of the specification *)

(** The text-bearing inline units of the paragraph at [p] outside formula
    scope, in document order: the [a:t] elements below the paragraph that
    have no math element above them. *)
Definition text_units (root : Element) (p : path) : list path :=
  match node root p with
  | None => []
  | Some p_el =>
      List.filter (fun t => match node root t with
                            | Some t_el => has_tag a_t t_el && no_math_ancestor root t
                            | None => false
                            end)
                  (map (app p) (desc_paths p_el))
  end.

(** The visible plain text of the paragraph outside formulas. *)
Definition visible_text (root : Element) (p : path) : pystr :=
  concat (map (text_at root) (text_units root p)).

(** The element at [p] is a paragraph, and each of its text units outside
    formula scope is the child of a run. *)
Definition text_in_runs (root : Element) (p : path) : bool :=
  match node root p with
  | Some p_el => has_tag a_p p_el
  | None => false
  end
  && forallb (fun t => match node root (removelast t) with
                       | Some r_el => has_tag a_r r_el
                       | None => false
                       end)
             (text_units root p).

(** ** Slides that stop the text rewrite *)

(** The slide has lines to apply and its part does not parse. *)
Definition unparsable_with_lines (zf : Container) (txt_dir : gmap nat pystr)
    (m : nat) : bool :=
  match _read_lines (txt_dir !! m), read_part zf (SlideXml m) with
  | _ :: _, Some (Unparsable _) => true
  | _, _ => false
  end.

(** ** Placeholder shapes *)

(** The loop over the children in [_collect_paragraphs_from_node]. *)
Fixpoint collect_kids (pre : path) (ks : list Element) (i : nat) : list path :=
  match ks with
  | [] => []
  | k :: ks' =>
      _collect_paragraphs_from_node (pre ++ [i]) k ++ collect_kids pre ks' (S i)
  end.

(** The shape tree [_collect_paragraphs] starts from. *)
Definition shape_tree (root : Element) : option path :=
  head (step_child root p_spTree (step_desc root p_cSld [[]])).

(** No element on the way from the root down to the parent of [q] is a
    [p:sp] or a [p:graphicFrame]. *)
Definition no_shape_above (root : Element) (q : path) : bool :=
  forallb (fun k => match node root (take k q) with
                    | Some anc => negb (has_tag p_sp anc || has_tag p_graphicFrame anc)
                    | None => true
                    end)
          (seq 0 (length q)).

(** The element at [q] is a shape the slide holds in its shape tree,
    directly or through groups. *)
Definition free_standing (root : Element) (q : path) : bool :=
  match shape_tree root with
  | Some sp_tree =>
      bool_decide (sp_tree `prefix_of` q) && bool_decide (sp_tree ≠ q)
      && no_shape_above root q
  | None => false
  end.

(** The references along [tb], from the shortest on, that denote an
    element. *)
Definition valid_prefixes (e : Element) (tb : path) : list path :=
  List.filter (fun a => bool_decide (is_Some (node e a)))
              (map (fun k => take k tb) (seq 1 (length tb))).

(** ** The selection rule in the words of the specification *)

(** [n_runs / n_lines] as a fraction. *)
Definition exact_ratio (n_runs n_lines : nat) : Q :=
  Z.of_nat n_runs # Pos.of_nat n_lines.

Definition method_by_thresholds (n_runs n_lines : nat) : string :=
  if bool_decide (n_lines = 0) then "paragraphs"
  else if Qle_bool (90 # 100) (exact_ratio n_runs n_lines)
          && Qle_bool (exact_ratio n_runs n_lines) (115 # 100)
          && (Z.abs (Z.of_nat n_runs - Z.of_nat n_lines) <=? 2)%Z
       then "runs"
       else "paragraphs".

(** Agreement of the code with the rule for every pair of counts within
    two of each other, the second between 1 and 63. *)
Definition agrees_below_64 : bool :=
  forallb (fun y =>
             forallb (fun x => bool_decide (_choose_method x y
                                            = method_by_thresholds x y))
                     (seq (y - 2) 5))
          (seq 1 63).

(** Two references, one of which passes through the other. *)
Definition comparable (a b : path) : Prop := a `prefix_of` b ∨ b `prefix_of` a.

(** ** Sample inputs *)

(** One shape, one paragraph: run "A", a line break, run "B". *)
Definition slide_break : Element :=
  mk_slide [mk_sp None [mk_p [mk_run (s2u "A"); el a_br [] None []; mk_run (s2u "B")]]].

(** One shape, one paragraph: run "A", a tab, run "B". *)
Definition slide_tab : Element :=
  mk_slide [mk_sp None [mk_p [mk_run (s2u "A"); el a_tab [] None []; mk_run (s2u "B")]]].

(** One shape, one paragraph, whose only run holds a single space. *)
Definition slide_blank : Element :=
  mk_slide [mk_sp None [mk_p [mk_run (s2u " ")]]].

(** A footer placeholder with the text "Footer". *)
Definition footer_shape : Element :=
  mk_sp (Some (s2u "ftr")) [mk_p [mk_run (s2u "Footer")]].

Definition slide_footer : Element := mk_slide [footer_shape].

(** A footer and a title. *)
Definition slide_footer_title : Element :=
  mk_slide [footer_shape; mk_sp (Some (s2u "title")) [mk_p [mk_run (s2u "Title")]]].

(** The paragraph of the first shape of a sample slide. *)
Definition first_paragraph : path := [0; 0; 0; 1; 0].

(** A table with one cell, whose text body holds one paragraph. *)
Definition table_frame (s : pystr) : Element :=
  el p_graphicFrame [] None
     [el (qn NS_A "graphic") [] None
         [el (qn NS_A "graphicData") [] None
             [el (qn NS_A "tbl") [] None
                 [el (qn NS_A "tr") [] None
                     [el (qn NS_A "tc") [] None
                         [el a_txBody [] None [mk_p [mk_run s]]]]]]]].

(** A shape with the text "shape", followed by a table whose cell holds
    the text "cell". *)
Definition slide_shape_table : Element :=
  mk_slide [mk_sp None [mk_p [mk_run (s2u "shape")]]; table_frame (s2u "cell")].

(** The paragraph of the table cell of [slide_shape_table]. *)
Definition table_paragraph : path := [0; 0; 1; 0; 0; 0; 0; 0; 0; 0].

(** One shape, one paragraph: the run "Page " and a field that shows "7". *)
Definition slide_field : Element :=
  mk_slide [mk_sp None [mk_p [mk_run (s2u "Page "); el a_fld [] None [mk_t (s2u "7")]]]].

(** A deck whose second slide does not parse. *)
Definition deck_broken : Container :=
  [(ContentTypesXml, Parsed (el (qn NS_CT "Types") [] None []));
   (SlideXml 1, Parsed slide_break);
   (SlideXml 2, Unparsable (s2u "<p:sld"));
   (SlideXml 3, Parsed slide_tab)].

(** A deck with one slide and one audio part. *)
Definition deck_small : Container :=
  [(ContentTypesXml, Parsed (el (qn NS_CT "Types") [] None []));
   (SlideXml 1, Parsed slide_break);
   (MediaFile "media3.m4a", Unparsable [1; 2; 3]%N)].

(** A line file for each of the first three slides. *)
Definition txt_three : gmap nat pystr :=
  <[1 := s2u "one"]> (<[2 := s2u "two"]> (<[3 := s2u "three"]> ∅)).

(* ================================================================== *)
(** * Audio extraction: [slide_text_extractor.py], second part *)
(* ================================================================== *)

(** The archive as [zipfile] shows it to [extract_audio_from_pptx]: the
    member names in the order of [namelist()], each with its bytes. *)
Abbreviation RawArchive := (list (string * list N)).

(** [archive.read(name)]: of several members with one name the last is
    read. *)
Fixpoint zip_read (archive : RawArchive) (name : string) : option (list N) :=
  match archive with
  | [] => None
  | (k, data) :: archive' =>
      match zip_read archive' name with
      | Some later => Some later
      | None => if bool_decide (k = name) then Some data else None
      end
  end.

(** The text between slashes. *)
Fixpoint split_slash (l : list ascii) (cur : list ascii) : list string :=
  match l with
  | [] => [string_of_list_ascii (rev cur)]
  | a :: l' =>
      if is_char "/" a then string_of_list_ascii (rev cur) :: split_slash l' []
      else split_slash l' (a :: cur)
  end.

(** The components of a relative [PurePosixPath]: empty components and
    single dots are dropped. *)
Definition path_parts (file : string) : list string :=
  List.filter (fun part => negb (bool_decide (part = "") || bool_decide (part = ".")))
              (split_slash (list_ascii_of_string file) []).

(** [Path(file).name] *)
Definition path_name (file : string) : string := default "" (last (path_parts file)).

(** [name.suffix] for a final component: from its last dot on, unless
    that dot is its first or its last character. *)
Definition name_suffix (name : string) : string :=
  let '(rev_ext, rev_rest) :=
    span_until (is_char ".") (rev (list_ascii_of_string name)) in
  match rev_ext, rev_rest with
  | _ :: _, dot :: _ :: _ => string_of_list_ascii (dot :: rev rev_ext)
  | _, _ => ""
  end.

(** [str.lower] on the characters A to Z; the extensions compared hold
    only characters that no other character lowers to. *)
Definition lower_ascii (a : ascii) : ascii :=
  let n := nat_of_ascii a in
  if (65 <=? n) && (n <=? 90) then ascii_of_nat (n + 32) else a.

Definition lower (s : string) : string :=
  string_of_list_ascii (map lower_ascii (list_ascii_of_string s)).

Definition audio_extensions : list string :=
  [".m4a"; ".mp3"; ".aac"; ".wav"; ".wma"].

(** [Path(p).suffix.lower() in audio_extensions] *)
Definition has_audio_suffix (file : string) : bool :=
  bool_decide (lower (name_suffix (path_name file)) ∈ audio_extensions).

(** [file.endswith("/")] *)
Definition ends_with_slash (file : string) : bool :=
  match last (list_ascii_of_string file) with
  | Some a => is_char "/" a
  | None => false
  end.

(** The members the loop over [archive.namelist()] extracts. *)
Definition audio_member (file : string) : bool :=
  String.prefix "ppt/media/" file && negb (ends_with_slash file)
  && has_audio_suffix file.

(** The first loop (lines 216-221): every file of the media directory
    with an audio extension is removed, unless removing it raises. *)
Definition remove_old_audio (unlink_fails : string → bool)
    (media_dir : gmap string (list N)) : gmap string (list N) :=
  filter (fun '(name, _) => has_audio_suffix name = false ∨ unlink_fails name = true)
         media_dir.

(** The second loop (lines 228-236): the directory and the list of the
    names written, in the order of the archive. *)
Fixpoint write_audio (archive : RawArchive) (names : list string)
    (media_dir : gmap string (list N)) : gmap string (list N) * list string :=
  match names with
  | [] => (media_dir, [])
  | file :: names' =>
      if audio_member file then
        let orig_name := path_name file in
        let data := default [] (zip_read archive file) in
        let '(dir, extracted) :=
          write_audio archive names' (<[orig_name := data]> media_dir) in
        (dir, orig_name :: extracted)
      else write_audio archive names' media_dir
  end.

Inductive AudioResult :=
  | ValueError
  | Extracted (files : list string).

(** [extract_audio_from_pptx]: [decks] holds the archives by path,
    [media_dir] the files of [<output_dir>/media] by name. *)
Definition extract_audio_from_pptx (decks : gmap string RawArchive)
    (pptx_path : string) (unlink_fails : string → bool)
    (media_dir : gmap string (list N))
  : gmap string (list N) * AudioResult :=
  match decks !! pptx_path with
  | Some archive =>
      if bool_decide (lower (name_suffix (path_name pptx_path)) = ".pptx") then
        let '(dir, extracted) :=
          write_audio archive archive.*1 (remove_old_audio unlink_fails media_dir) in
        (dir, Extracted extracted)
      else (media_dir, ValueError)
  | None => (media_dir, ValueError)
  end.

(* ================================================================== *)
(** * Further definitions used in the statements *)
(* ================================================================== *)

(** ** Line files and separators *)

(** Real line feeds and tabs spelled as the two-character literals. *)
Fixpoint escape_controls (s : pystr) : pystr :=
  match s with
  | [] => []
  | c :: s' =>
      if (c =? LF)%N then LIT_N ++ escape_controls s'
      else if (c =? TAB)%N then LIT_T ++ escape_controls s'
      else c :: escape_controls s'
  end.

(** The two-character literals read as the control characters they spell,
    from left to right. *)
Fixpoint decode_literals (s : pystr) : pystr :=
  match s with
  | [] => []
  | c :: s' =>
      if (c =? BACKSLASH)%N then
        match s' with
        | d :: s'' =>
            if (d =? LOWER_N)%N then LF :: decode_literals s''
            else if (d =? LOWER_T)%N then TAB :: decode_literals s''
            else c :: decode_literals s'
        | [] => [c]
        end
      else c :: decode_literals s'
  end.

(** The string holds a backslash directly followed by [n] or [t]. *)
Fixpoint has_literal (s : pystr) : bool :=
  match s with
  | [] => false
  | c :: s' =>
      match s' with
      | d :: _ =>
          ((c =? BACKSLASH) && ((d =? LOWER_N) || (d =? LOWER_T)))%N
          || has_literal s'
      | [] => false
      end
  end.

(** No character of the line is a line boundary, the line feed apart. *)
Definition one_physical_line (l : pystr) : bool :=
  forallb (fun c => negb (is_linebreak c) || (c =? LF)%N) l.

(** The lines without the last one when that one is empty. *)
Definition drop_empty_last (lines : list pystr) : list pystr :=
  match last lines with
  | Some [] => removelast lines
  | _ => lines
  end.

(** A segment free of separators in either spelling: no real line feed or
    tab, no backslash directly followed by [n] or [t]. *)
Definition plain_segment (seg : pystr) : Prop :=
  (LF ∉ seg) ∧ (TAB ∉ seg) ∧ has_literal seg = false.

(** ** The writers *)

(** The tags of the elements the run writer removes or creates. *)
Definition run_writer_tag (t : string) : bool :=
  bool_decide (t ∈ [a_t; a_br; a_tab]).

(** ** Containers *)

(** The manifest declares the [m4a] extension. *)
Definition declares_m4a (root : Element) : bool :=
  existsb (fun e => bool_decide (eget "Extension" e = Some (s2u "m4a")))
          (findall_desc ct_Default root).




(** A small file system: one deck. *)
Definition fs_small : FS := {["deck.pptx" := deck_small]}.

(** ** The chooser on larger slides *)

(** The code chooses the run-level method for every pair of counts within
    two of each other, the second between 20 and 63. *)
Definition runs_from_20_below_64 : bool :=
  forallb (fun y =>
             forallb (fun x => bool_decide (_choose_method x y = "runs"))
                     (seq (y - 2) 5))
          (seq 20 44).

(** ** Sample archive for the audio extractor *)

(** Two audio members, one image and one slide. *)
Definition raw_deck : RawArchive :=
  [("ppt/slides/slide1.xml", s2u "<p:sld/>");
   ("ppt/media/media3.m4a", [1; 2; 3]%N);
   ("ppt/media/image1.png", [4]%N);
   ("ppt/media/media7.WAV", [5; 6]%N)].

Definition decks_raw : gmap string RawArchive := {["deck.pptx" := raw_deck]}.

(** A media directory that holds a stale recording and a note. *)
Definition media_before : gmap string (list N) :=
  {["old.mp3" := [9]%N; "notes.txt" := [8]%N]}.

(** ** Slides of plain shapes *)

(** The references, relative to an element, of its descendants with the
    tag: ElementPath [".//tag"] on the element as the root. *)
Definition tag_paths (t : string) (e : Element) : list path :=
  List.filter (fun p => match node e p with
                        | Some d => has_tag t d
                        | None => false
                        end) (desc_paths e).

(** The tags of the elements that give a slide its structure. *)
Definition structural_tags : list string :=
  [a_p; a_txBody; p_txBody; p_sp; p_ph; p_nvSpPr].

(** A paragraph with inline content only: none of its descendants is a
    paragraph, a text body, a shape or a placeholder. *)
Definition inline_paragraph (par : Element) : bool :=
  has_tag a_p par
  && forallb (fun d => negb (bool_decide (etag d ∈ structural_tags)))
             (descendants par).

(** A slide of shapes, each given by its placeholder type and its
    paragraphs. *)
Definition slide_of (specs : list (option pystr * list Element)) : Element :=
  mk_slide (map (fun spec => mk_sp spec.1 spec.2) specs).

Definition plain_shapes (specs : list (option pystr * list Element)) : bool :=
  forallb (fun spec => forallb inline_paragraph spec.2) specs.

(** The paragraphs of shape [i], unless it is a date, slide number,
    footer or header placeholder. *)
Definition shape_paragraphs (i : nat) (spec : option pystr * list Element)
  : list path :=
  if opt_in spec.1 _SKIP_PH_TYPES then []
  else map (fun j => [0; 0; i; 1; j]) (seq 0 (length spec.2)).

Definition slide_paragraphs (specs : list (option pystr * list Element))
  : list path :=
  concat (imap shape_paragraphs specs).

(** ** Lines applied *)





(** Two trees with the same references and the same tag at each. *)
Definition same_shape (root root' : Element) : Prop :=
  ∀ q, etag <$> node root' q = etag <$> node root q
       ∧ desc_paths <$> node root' q = desc_paths <$> node root q.

(* ================================================================== *)
(** * Properties of trees and references *)
(* ================================================================== *)

Section ElementInduction.
Variable P : Element → Prop.
Hypothesis HElem : ∀ l ks, Forall P ks → P (Elem l ks).

Lemma Element_ind' : ∀ e, P e.
Proof.
  fix IH 1. intros [l ks]. apply HElem.
  induction ks as [|k ks IHks]; constructor; [apply IH | exact IHks].
Qed.
End ElementInduction.

Lemma Elem_eta e : Elem (label e) (children e) = e.
Proof. by destruct e. Qed.

Lemma node_nil e : node e [] = Some e.
Proof. done. Qed.

Lemma node_cons e i p :
  node e (i :: p) = children e !! i ≫= fun c => node c p.
Proof. simpl. by destruct (children e !! i). Qed.

Lemma node_app e p q : node e (p ++ q) = node e p ≫= fun c => node c q.
Proof.
  revert e. induction p as [|i p IH]; intros e; [done|].
  simpl. destruct (children e !! i); [apply IH | done].
Qed.

Lemma node_prefix_is_Some e p q :
  is_Some (node e (p ++ q)) → is_Some (node e p).
Proof. rewrite node_app. destruct (node e p); [eauto | by intros [? ?]]. Qed.

(** Relabelling leaves every other label, and the shape of the tree, as
    they were. *)
Lemma relabel_label f e p q :
  label <$> node (relabel f e p) q
  = (fun l => if decide (q = p) then f l else l) <$> (label <$> node e q).
Proof.
  revert e q. induction p as [|i p IH]; intros e q.
  - destruct q as [|j q]; simpl; [done|].
    destruct (children e !! j) as [c|]; simpl; [|done].
    destruct (node c q); simpl; done.
  - destruct q as [|j q]; simpl; [done|].
    destruct (decide (j = i)) as [->|Hne].
    + rewrite list_lookup_alter_eq. destruct (children e !! i) as [c|]; simpl; [|done].
      rewrite IH. destruct (node c q); simpl; [|done].
      f_equal. destruct (decide (q = p)) as [->|Hq].
      * by rewrite decide_True.
      * rewrite decide_False; [done | congruence].
    + rewrite list_lookup_alter_ne by done.
      destruct (children e !! j) as [c|]; simpl; [|done].
      destruct (node c q); simpl; [|done].
      rewrite decide_False; [done | congruence].
Qed.

Lemma relabel_children_length f e p q :
  (length ∘ children) <$> node (relabel f e p) q
  = (length ∘ children) <$> node e q.
Proof.
  revert e q. induction p as [|i p IH]; intros e q.
  - destruct q as [|j q]; simpl; done.
  - destruct q as [|j q]; simpl; [by rewrite length_alter|].
    destruct (decide (j = i)) as [->|Hne].
    + rewrite list_lookup_alter_eq. destruct (children e !! i) as [c|]; simpl; [|done].
      apply IH.
    + by rewrite list_lookup_alter_ne by done.
Qed.

(** A relabelling at [p] is not seen from a reference that [p] does not
    pass through. *)
Lemma relabel_node_frame f e p q :
  ¬ q `prefix_of` p → node (relabel f e p) q = node e q.
Proof.
  revert e q. induction p as [|i p IH]; intros e q Hq.
  - destruct q as [|j q]; [destruct Hq; apply prefix_nil|]. done.
  - destruct q as [|j q]; [destruct Hq; apply prefix_nil|]. simpl.
    destruct (decide (j = i)) as [->|Hne].
    + rewrite list_lookup_alter_eq. destruct (children e !! i) as [c|]; simpl; [|done].
      apply IH. intros Hp. apply Hq. by apply prefix_cons.
    + by rewrite list_lookup_alter_ne by done.
Qed.

Lemma elem_of_concat {A} (x : A) (ls : list (list A)) :
  x ∈ concat ls ↔ ∃ l, x ∈ l ∧ l ∈ ls.
Proof.
  rewrite list_elem_of_In, in_concat. split.
  - intros (l & Hl & Hx). exists l. by rewrite !list_elem_of_In.
  - intros (l & Hx & Hl). exists l. by rewrite <- !list_elem_of_In.
Qed.

Lemma desc_paths_go_shift ks i :
  (fix go (ks : list Element) (i : nat) : list path :=
     match ks with
     | [] => []
     | k :: ks' => ([i] :: map (cons i) (desc_paths k)) ++ go ks' (S i)
     end) ks i
  = concat (imap (fun j k => [i + j] :: map (cons (i + j)) (desc_paths k)) ks).
Proof.
  revert i. induction ks as [|k ks IH]; intros i; [done|].
  rewrite IH. simpl. rewrite Nat.add_0_r. f_equal. f_equal. f_equal.
  apply imap_ext. intros j x _. simpl. by rewrite Nat.add_succ_r.
Qed.

Lemma desc_paths_unfold e :
  desc_paths e
  = concat (imap (fun j k => [j] :: map (cons j) (desc_paths k)) (children e)).
Proof. destruct e as [l ks]. simpl. by rewrite desc_paths_go_shift. Qed.

Lemma elem_of_desc_paths e q :
  q ∈ desc_paths e ↔ q ≠ [] ∧ is_Some (node e q).
Proof.
  revert q. induction e as [l ks IH] using Element_ind'. intros q.
  rewrite desc_paths_unfold. simpl.
  rewrite elem_of_concat. split.
  - intros (qs & Hq & Hqs). apply elem_of_lookup_imap in Hqs as (j & k & -> & Hk).
    apply elem_of_cons in Hq as [->|Hq].
    + split; [done|]. simpl. rewrite Hk. eauto.
    + apply list_elem_of_fmap in Hq as (q' & -> & Hq').
      split; [done|]. simpl. rewrite Hk.
      rewrite Forall_forall in IH. apply (IH k); [|done].
      by eapply list_elem_of_lookup_2.
  - intros [Hne Hsome]. destruct q as [|j q]; [done|].
    simpl in Hsome. destruct (ks !! j) as [k|] eqn:Hk; [|by destruct Hsome].
    exists ([j] :: map (cons j) (desc_paths k)). split.
    + destruct q as [|j' q]; [left|].
      right. apply list_elem_of_fmap. eexists; split; [done|].
      rewrite Forall_forall in IH. apply (IH k); [by eapply list_elem_of_lookup_2|done].
    + apply elem_of_lookup_imap. eauto.
Qed.

Lemma relabel_nil f e : relabel f e [] = Elem (f (label e)) (children e).
Proof. done. Qed.

Lemma relabel_cons f e i p :
  relabel f e (i :: p)
  = Elem (label e) (alter (fun c => relabel f c p) i (children e)).
Proof. done. Qed.

Lemma desc_paths_from_cons k ks i :
  desc_paths_from (k :: ks) i
  = ([i] :: map (cons i) (desc_paths k)) ++ desc_paths_from ks (S i).
Proof.
  unfold desc_paths_from. simpl. rewrite Nat.add_0_r. f_equal. f_equal. f_equal.
  apply imap_ext. intros j x _. simpl. by rewrite Nat.add_succ_r.
Qed.

Lemma desc_paths_children e : desc_paths e = desc_paths_from (children e) 0.
Proof. by rewrite desc_paths_unfold. Qed.

Lemma desc_paths_from_head ks i q :
  q ∈ desc_paths_from ks i → ∃ j q', q = j :: q' ∧ i ≤ j.
Proof.
  revert i. induction ks as [|k ks IH]; intros i; [by intros ?%elem_of_nil|].
  rewrite desc_paths_from_cons. intros [Hq|Hq]%elem_of_app.
  - apply elem_of_cons in Hq as [->|Hq]; [by eauto|].
    apply list_elem_of_fmap in Hq as (q' & -> & _). eauto.
  - apply IH in Hq as (j & q' & -> & Hj). exists j, q'. split; [done|lia].
Qed.

Lemma NoDup_desc_paths e : NoDup (desc_paths e).
Proof.
  induction e as [l ks IH] using Element_ind'.
  rewrite desc_paths_children. simpl. generalize 0.
  induction ks as [|k ks IHks]; intros i; [constructor|].
  apply Forall_cons in IH as [Hk Hks].
  rewrite desc_paths_from_cons. apply NoDup_app. split_and!.
  - apply NoDup_cons. split.
    + intros (q & [= <-] & Hq)%list_elem_of_fmap.
      by apply elem_of_desc_paths in Hq as [? _].
    + apply NoDup_fmap_2; [|done]. intros ?? [=]. done.
  - intros q Hq Hq'. apply desc_paths_from_head in Hq' as (j & q' & -> & Hj).
    apply elem_of_cons in Hq as [[=]|Hq]; [lia|].
    apply list_elem_of_fmap in Hq as (q'' & [=] & _). lia.
  - by apply IHks.
Qed.

(** Relabelling keeps the shape of the tree and, when the function keeps
    tags, the tag of every element. *)
Lemma desc_paths_relabel f e p : desc_paths (relabel f e p) = desc_paths e.
Proof.
  revert e. induction p as [|i p IH]; intros e.
  - rewrite relabel_nil. by rewrite !desc_paths_children.
  - rewrite relabel_cons, !desc_paths_children. simpl. generalize 0.
    revert i. induction (children e) as [|k ks IHks]; intros i n; [done|].
    destruct i as [|i]; simpl.
    + rewrite !desc_paths_from_cons. by rewrite IH.
    + rewrite !desc_paths_from_cons. f_equal. apply IHks.
Qed.

Lemma node_relabel_is_Some f e p q :
  is_Some (node (relabel f e p) q) ↔ is_Some (node e q).
Proof.
  destruct q as [|j q]; [split; eauto|].
  pose proof (elem_of_desc_paths (relabel f e p) (j :: q)) as H1.
  pose proof (elem_of_desc_paths e (j :: q)) as H2.
  rewrite desc_paths_relabel in H1. split; intros H.
  - apply H2, H1. done.
  - apply H1, H2. done.
Qed.

Lemma relabel_tag f e p q :
  (∀ l, tag (f l) = tag l) →
  etag <$> node (relabel f e p) q = etag <$> node e q.
Proof.
  intros Hf. pose proof (relabel_label f e p q) as H.
  assert (∀ o : option Element, etag <$> o = tag <$> (label <$> o)) as Ht
    by (by intros [?|]).
  rewrite !Ht, H. destruct (node e q); simpl; [|done].
  case_decide; by rewrite ?Hf.
Qed.

(** ** Sequences of relabellings *)

Lemma relabel_all_label g e ts q :
  (∀ l, g (g l) = g l) →
  label <$> node (relabel_all g e ts) q
  = (fun l => if decide (q ∈ ts) then g l else l) <$> (label <$> node e q).
Proof.
  intros Hg. revert e. induction ts as [|t ts IH]; intros e.
  - simpl. by destruct (node e q).
  - change (relabel_all g e (t :: ts)) with (relabel_all g (relabel g e t) ts).
    rewrite IH, relabel_label. destruct (node e q) as [n|]; simpl; [|done].
    f_equal.
    destruct (decide (q ∈ ts)) as [Hin|Hnin], (decide (q = t)) as [Heq|Hne];
      rewrite ?Hg.
    + by rewrite decide_True by (subst; left).
    + by rewrite decide_True by by right.
    + by rewrite decide_True by (subst; left).
    + rewrite decide_False; [done|]. by intros [?|?]%elem_of_cons.
Qed.

Lemma desc_paths_relabel_all g e ts :
  desc_paths (relabel_all g e ts) = desc_paths e.
Proof.
  revert e. induction ts as [|t ts IH]; intros e; simpl; [done|].
  by rewrite IH, desc_paths_relabel.
Qed.

Lemma relabel_all_node_frame g e ts q :
  Forall (fun t => ¬ q `prefix_of` t) ts →
  node (relabel_all g e ts) q = node e q.
Proof.
  revert e. induction ts as [|t ts IH]; intros e Hts; simpl; [done|].
  apply Forall_cons in Hts as [Ht Hts].
  rewrite IH by done. by apply relabel_node_frame.
Qed.

(** ** The paragraph writer as a sequence of relabellings *)

Lemma replace_plaintext_unfold root p new_text :
  _replace_plaintext_preserving_math root p new_text
  = match plain_t_nodes root p with
    | [] => root
    | t1 :: rest => relabel_all (set_text []) (relabel (write_first new_text) root t1) rest
    end.
Proof.
  unfold _replace_plaintext_preserving_math.
  destruct (plain_t_nodes root p) as [|t1 rest]; [done|]. simpl.
  change (write_first new_text)
    with (fun l => _set_xml_space_preserve (set_text new_text l)).
  unfold relabel_all.
  generalize (relabel (λ l, _set_xml_space_preserve (set_text new_text l)) root t1).
  induction rest as [|t rest IH]; intros e; [done|]. simpl. apply IH.
Qed.

Lemma NoDup_plain_t_nodes root p : NoDup (plain_t_nodes root p).
Proof.
  unfold plain_t_nodes. destruct (node root p) as [p_el|]; [|constructor].
  apply NoDup_ListNoDup, List.NoDup_filter, NoDup_ListNoDup.
  apply NoDup_fmap_2; [|apply NoDup_desc_paths]. intros ?? ?. by simplify_list_eq.
Qed.

Lemma plain_t_nodes_under root p t :
  t ∈ plain_t_nodes root p → p `prefix_of` t ∧ is_Some (node root t).
Proof.
  unfold plain_t_nodes. destruct (node root p) as [p_el|] eqn:Hp; [|by intros ?%elem_of_nil].
  rewrite list_elem_of_In, filter_In, <- list_elem_of_In.
  intros [(q & -> & Hq)%list_elem_of_fmap Hf]. split; [by exists q|].
  destruct (node root (p ++ q)); [eauto|done].
Qed.

(** ** The run-level writer *)

Lemma patch_runs_unfold l ks lines :
  patch_runs (Elem l ks) lines
  = let '(kept, added, rest) := patch_runs_kids ks lines in
    (Elem l (kept ++ added), rest).
Proof. done. Qed.

Lemma descendants_unfold e :
  descendants e = flat_map (fun k => k :: descendants k) (children e).
Proof. by destruct e. Qed.

Lemma count_tag_cons t k ks :
  count_tag t (k :: ks)
  = (if has_tag t k then 1 else 0) + count_tag t (children k) + count_tag t ks.
Proof.
  unfold count_tag. simpl. rewrite <- descendants_unfold.
  destruct (has_tag t k); simpl; rewrite List.filter_app, length_app; lia.
Qed.

Lemma count_tag_app t ks1 ks2 :
  count_tag t (ks1 ++ ks2) = count_tag t ks1 + count_tag t ks2.
Proof.
  unfold count_tag. by rewrite flat_map_app, List.filter_app, length_app.
Qed.

Lemma findall_desc_length t e :
  length (findall_desc t e) = count_tag t (children e).
Proof. unfold findall_desc, count_tag. by rewrite descendants_unfold. Qed.

Lemma patch_runs_tag e lines : etag (patch_runs e lines).1 = etag e.
Proof.
  destruct e as [l ks]. rewrite patch_runs_unfold.
  by destruct (patch_runs_kids ks lines) as [[??]?].
Qed.

(** The writer takes one line for each [a:t] it meets. *)
Lemma patch_runs_rest e lines :
  (patch_runs e lines).2 = drop (length (_find_runs e)) lines.
Proof.
  unfold _find_runs. rewrite findall_desc_length. revert lines.
  induction e as [l ks IH] using Element_ind'. intros lines.
  rewrite patch_runs_unfold. simpl.
  assert ((patch_runs_kids ks lines).2 = drop (count_tag a_t ks) lines) as Hks.
  { revert lines. induction ks as [|k ks IHks]; intros lines; [done|].
    apply Forall_cons in IH as [Hk Hks]. specialize (IHks Hks).
    rewrite count_tag_cons. simpl. destruct (has_tag a_t k) eqn:Ht.
    - destruct lines as [|text lines'].
      + specialize (IHks []). destruct (patch_runs_kids ks []) as [[??]?].
        simpl in *. by rewrite IHks, !drop_nil.
      + rewrite <- findall_desc_length.
        specialize (IHks (drop (length (findall_desc a_t k)) lines')).
        destruct (patch_runs_kids ks _) as [[??]?]. simpl in *.
        rewrite IHks, drop_drop. f_equal.
    - specialize (Hk lines). destruct (patch_runs k lines) as [k' lines1].
      simpl in Hk. subst lines1.
      specialize (IHks (drop (count_tag a_t (children k)) lines)).
      destruct (patch_runs_kids ks _) as [[??]?]. simpl in *.
      rewrite IHks, drop_drop. f_equal. }
  destruct (patch_runs_kids ks lines) as [[??]?]. done.
Qed.

Lemma split_keep_seps_segments s buf :
  Forall (fun '(seg, sep) => sep = [] ∨ sep = LIT_N ∨ sep = LIT_T)
         (split_keep_seps_go s buf).
Proof.
  revert buf. induction s as [s IH] using (induction_ltof1 _ (@length N)).
  unfold ltof in IH. intros buf. destruct s as [|ch rest]; simpl.
  - repeat constructor.
  - assert (Forall (λ '(_, sep), sep = [] ∨ sep = LIT_N ∨ sep = LIT_T)
              (if ((ch =? LF) || (ch =? TAB))%N
               then (rev buf, if (ch =? LF)%N then LIT_N else LIT_T)
                      :: split_keep_seps_go rest []
               else split_keep_seps_go rest (ch :: buf))) as Hreal.
    { destruct ((ch =? LF) || (ch =? TAB))%N.
      - constructor; [destruct (ch =? LF)%N; auto|]. apply IH. simpl. lia.
      - apply IH. simpl. lia. }
    destruct (ch =? BACKSLASH)%N; [|exact Hreal].
    destruct rest as [|d rest']; [exact Hreal|].
    destruct ((d =? LOWER_N) || (d =? LOWER_T))%N; [|exact Hreal].
    constructor; [destruct (d =? LOWER_N)%N; auto|]. apply IH. simpl. lia.
Qed.

Lemma segment_elements_leaves text :
  Forall (fun d => children d = [] ∧
                   (etag d = a_t ∧ space_preserved d = true
                    ∨ etag d = a_br ∨ etag d = a_tab))
         (segment_elements text).
Proof.
  unfold segment_elements, _split_keep_seps.
  generalize (split_keep_seps_go text []). intros segs.
  induction segs as [|[seg sep] segs IH]; simpl; [constructor|].
  constructor.
  - split; [done|]. left. split; [done|]. by vm_compute.
  - apply Forall_app. split; [|done].
    destruct (bool_decide (sep = LIT_N)); [|destruct (bool_decide (sep = LIT_T))].
    + constructor; [|constructor]. split; [done|]. right. by left.
    + constructor; [|constructor]. split; [done|]. right. by right.
    + constructor.
Qed.

Lemma tags_distinct :
  a_t ≠ a_p ∧ a_br ≠ a_p ∧ a_tab ≠ a_p ∧ a_br ≠ a_t ∧ a_tab ≠ a_t.
Proof. by vm_compute. Qed.

Lemma segment_elements_preserved text :
  texts_preserved
    (flat_map (fun k => k :: descendants k) (segment_elements text)) = true.
Proof.
  pose proof (segment_elements_leaves text) as H.
  induction H as [|d ds [Hd Hx] _ IH]; [done|].
  simpl. rewrite descendants_unfold, Hd. simpl.
  unfold texts_preserved in *. simpl. rewrite IH, andb_true_r.
  destruct Hx as [[_ ->]|[Hx|Hx]]; [by rewrite orb_true_r| |];
    unfold has_tag; rewrite Hx, bool_decide_eq_false_2; [done| |done|];
    apply tags_distinct.
Qed.

Lemma segment_elements_count_p text : count_tag a_p (segment_elements text) = 0.
Proof.
  pose proof (segment_elements_leaves text) as H.
  induction H as [|d ds [Hd Hx] _ IH]; [done|].
  rewrite count_tag_cons, Hd, IH. unfold has_tag.
  rewrite bool_decide_eq_false_2; [done|].
  destruct Hx as [[-> _]|[->| ->]]; apply tags_distinct.
Qed.

Lemma texts_preserved_app es1 es2 :
  texts_preserved (es1 ++ es2) = texts_preserved es1 && texts_preserved es2.
Proof. apply forallb_app. Qed.

Lemma flat_desc_cons k ks :
  flat_map (fun k => k :: descendants k) (k :: ks)
  = (k :: descendants k) ++ flat_map (fun k => k :: descendants k) ks.
Proof. done. Qed.

(** Once every [a:t] has a line, every [a:t] left in the tree is one the
    writer created. *)
Lemma patch_runs_preserved e lines :
  length (_find_runs e) ≤ length lines →
  texts_preserved (descendants (patch_runs e lines).1) = true.
Proof.
  unfold _find_runs. rewrite findall_desc_length. revert lines.
  induction e as [l ks IH] using Element_ind'. intros lines Hlen.
  rewrite patch_runs_unfold. simpl in Hlen.
  assert (texts_preserved
            (flat_map (fun k => k :: descendants k)
               ((patch_runs_kids ks lines).1.1 ++ (patch_runs_kids ks lines).1.2))
          = true) as Hks.
  { revert lines Hlen. induction ks as [|k ks IHks]; intros lines Hlen; [done|].
    apply Forall_cons in IH as [Hk Hks]. specialize (IHks Hks).
    rewrite count_tag_cons in Hlen.
    pose proof (findall_desc_length a_t k) as Hfk. unfold _find_runs in *.
    simpl. destruct (has_tag a_t k) eqn:Ht.
    - destruct lines as [|text lines']; [simpl in Hlen; lia|].
      specialize (IHks (drop (length (findall_desc a_t k)) lines')).
      destruct (patch_runs_kids ks _) as [[kept added] rest]. simpl in *.
      rewrite !flat_map_app, !texts_preserved_app in *.
      rewrite segment_elements_preserved. simpl.
      apply IHks. rewrite length_drop. lia.
    - pose proof (patch_runs_rest k lines) as Hrest.
      pose proof (patch_runs_tag k lines) as Htag.
      specialize (Hk lines). destruct (patch_runs k lines) as [k' lines1].
      simpl in Hrest, Htag, Hk. subst lines1.
      specialize (IHks (drop (length (findall_desc a_t k)) lines)).
      destruct (patch_runs_kids ks _) as [[kept added] rest]. simpl in *.
      unfold texts_preserved in *. simpl. rewrite forallb_app.
      rewrite Hk by lia. unfold has_tag at 1. rewrite Htag.
      fold (has_tag a_t k). rewrite Ht. simpl. apply IHks.
      rewrite length_drop. lia. }
  destruct (patch_runs_kids ks lines) as [[kept added] rest]. simpl in *.
  done.
Qed.

(** ** Counting paragraphs *)

Lemma patch_runs_count_p e lines :
  t_leaves e = true →
  count_tag a_p (children (patch_runs e lines).1) = count_tag a_p (children e).
Proof.
  unfold t_leaves. fold leafy. revert lines.
  induction e as [l ks IH] using Element_ind'. intros lines Hleaf.
  rewrite patch_runs_unfold. simpl in *.
  assert (count_tag a_p ((patch_runs_kids ks lines).1.1 ++ (patch_runs_kids ks lines).1.2)
          = count_tag a_p ks) as Hks.
  { revert lines. induction ks as [|k ks IHks]; intros lines; [done|].
    apply Forall_cons in IH as [Hk Hks].
    simpl in Hleaf. apply andb_true_iff in Hleaf as [Hlk Hleaf].
    rewrite forallb_app in Hleaf. apply andb_true_iff in Hleaf as [Hleafk Hleaf].
    specialize (IHks Hks Hleaf).
    rewrite count_tag_cons. simpl. destruct (has_tag a_t k) eqn:Ht.
    - unfold leafy in Hlk. rewrite Ht in Hlk. simpl in Hlk.
      apply bool_decide_eq_true in Hlk. rewrite Hlk.
      assert (has_tag a_p k = false) as ->.
      { apply bool_decide_eq_true in Ht. unfold has_tag. rewrite Ht.
        apply bool_decide_eq_false_2, tags_distinct. }
      destruct lines as [|text lines'].
      + specialize (IHks []). destruct (patch_runs_kids ks []) as [[kept added] rest].
        simpl in *. rewrite count_tag_cons, Hlk, IHks.
        assert (has_tag a_p k = false) as ->; [|done].
        apply bool_decide_eq_true in Ht. unfold has_tag. rewrite Ht.
        apply bool_decide_eq_false_2, tags_distinct.
      + specialize (IHks (drop (length (findall_desc a_t k)) lines')).
        destruct (patch_runs_kids ks _) as [[kept added] rest]. simpl in *.
        rewrite !count_tag_app, segment_elements_count_p in *. simpl. lia.
    - pose proof (patch_runs_tag k lines) as Htag.
      specialize (Hk lines Hleafk).
      destruct (patch_runs k lines) as [k' lines1]. simpl in *.
      specialize (IHks lines1).
      destruct (patch_runs_kids ks _) as [[kept added] rest]. simpl in *.
      rewrite count_tag_cons, Hk, IHks. unfold has_tag. by rewrite Htag. }
  destruct (patch_runs_kids ks lines) as [[kept added] rest]. done.
Qed.

Lemma relabel_root_tag f e p :
  (∀ l, tag (f l) = tag l) → etag (relabel f e p) = etag e.
Proof. intros Hf. destruct p; [apply Hf | done]. Qed.

Lemma relabel_desc_tags f e p :
  (∀ l, tag (f l) = tag l) →
  map etag (descendants (relabel f e p)) = map etag (descendants e).
Proof.
  intros Hf. revert e. induction p as [|i p IH]; intros e.
  - rewrite relabel_nil. by rewrite !descendants_unfold.
  - rewrite relabel_cons, !descendants_unfold. simpl.
    generalize (children e). intros ks. revert i.
    induction ks as [|k ks IHks]; intros i; [done|].
    destruct i as [|i]; simpl; rewrite !map_app.
    + by rewrite IH, relabel_root_tag.
    + do 2 f_equal. apply IHks.
Qed.

Lemma filter_tag_length t es :
  length (List.filter (has_tag t) es)
  = length (List.filter (fun s => bool_decide (s = t)) (map etag es)).
Proof.
  induction es as [|e es IH]; [done|]. simpl. unfold has_tag at 1.
  destruct (bool_decide (etag e = t)); simpl; by rewrite IH.
Qed.

Lemma relabel_count f e p t :
  (∀ l, tag (f l) = tag l) →
  length (findall_desc t (relabel f e p)) = length (findall_desc t e).
Proof.
  intros Hf. unfold findall_desc.
  by rewrite !filter_tag_length, relabel_desc_tags.
Qed.

Lemma relabel_all_count g e ts t :
  (∀ l, tag (g l) = tag l) →
  length (findall_desc t (relabel_all g e ts)) = length (findall_desc t e).
Proof.
  intros Hg. revert e. induction ts as [|t' ts IH]; intros e; [done|].
  simpl. by rewrite IH, relabel_count.
Qed.

Lemma patch_paragraph_count root p text t :
  length (findall_desc t (patch_paragraph root p text))
  = length (findall_desc t root).
Proof.
  unfold patch_paragraph. destruct (truthy _); [|done].
  rewrite replace_plaintext_unfold. destruct (plain_t_nodes root p); [done|].
  by rewrite relabel_all_count, relabel_count.
Qed.

Lemma patch_paragraphs_count root pairs t :
  length (findall_desc t (patch_paragraphs root pairs))
  = length (findall_desc t root).
Proof.
  revert root. induction pairs as [|[p text] pairs IH]; intros root; [done|].
  simpl. by rewrite IH, patch_paragraph_count.
Qed.

(** ** Fitting the lines to the units *)

Lemma one_line_per_unit_nil a n :
  map (fun i => default [] ((@nil pystr) !! i)) (seq a n) = replicate n [].
Proof. revert a. induction n as [|n IH]; intros a; [done|]. simpl. by rewrite IH. Qed.

Lemma one_line_per_unit_take n lines :
  one_line_per_unit n lines = take n lines ++ replicate (n - length lines) [].
Proof.
  unfold one_line_per_unit. revert lines.
  induction n as [|n IH]; intros lines; [by destruct lines|].
  destruct lines as [|x lines].
  - rewrite one_line_per_unit_nil. by rewrite take_nil.
  - simpl. f_equal. rewrite <- IH, <- fmap_S_seq, <- list_fmap_compose. done.
Qed.

Lemma fit_lines_spec n lines :
  fit_lines n lines
  = (one_line_per_unit n lines,
     if bool_decide (n < length lines) then Some (length lines - n) else None).
Proof.
  unfold fit_lines. rewrite one_line_per_unit_take.
  repeat case_bool_decide; try lia.
  - rewrite take_ge by lia. done.
  - replace (n - length lines) with 0 by lia. simpl. by rewrite app_nil_r.
  - replace (n - length lines) with 0 by lia. simpl.
    rewrite take_ge by lia. by rewrite app_nil_r.
Qed.

Lemma one_line_per_unit_length n lines : length (one_line_per_unit n lines) = n.
Proof. unfold one_line_per_unit. by rewrite length_map, length_seq. Qed.

(* ================================================================== *)
(** * The line file *)
(* ================================================================== *)

Lemma escape_newlines_no_lf s : LF ∉ escape_newlines s.
Proof.
  induction s as [|c s IH]; simpl; [apply not_elem_of_nil|].
  destruct (c =? LF)%N eqn:Hc.
  - intros [H|[H|H]%elem_of_cons]%elem_of_cons; [done|done|by apply IH].
  - apply N.eqb_neq in Hc. intros [H|H]%elem_of_cons; [done|by apply IH].
Qed.

Lemma split_lf_go_no_lf l rest cur :
  LF ∉ l → split_lf_go (l ++ rest) cur = split_lf_go rest (rev l ++ cur).
Proof.
  revert cur. induction l as [|c l IH]; intros cur Hl; [done|].
  simpl. destruct (c =? LF)%N eqn:Hc.
  - apply N.eqb_eq in Hc. subst c. destruct Hl. left.
  - rewrite IH by (intros ?; apply Hl; by right).
    by rewrite <- app_assoc.
Qed.

Lemma split_lf_join ls :
  Forall (fun l => LF ∉ l) ls →
  split_lf (join [LF] ls) = match ls with [] => [[]] | _ => ls end.
Proof.
  unfold split_lf. induction 1 as [|l ls Hl Hls IH]; [done|].
  destruct ls as [|l' ls].
  - simpl. rewrite <- (app_nil_r l) at 1. rewrite split_lf_go_no_lf by done.
    simpl. by rewrite app_nil_r, rev_involutive.
  - change (join [LF] (l :: l' :: ls)) with (l ++ [LF] ++ join [LF] (l' :: ls)).
    rewrite split_lf_go_no_lf by done. simpl.
    rewrite app_nil_r, rev_involutive. f_equal. apply IH.
Qed.

(** C7 (as amended).  The file of a slide holds one line for each retained
    paragraph: no line contains a line feed, every line break of a
    paragraph being written as the two characters backslash and n, and
    cutting the file at its line feeds gives the lines back.  Tabs are
    written as they are. *)
Theorem line_file_one_line_per_paragraph (root : Element) :
  let lines := map escape_newlines (_iter_all_paragraphs_from_slide_xml root) in
  length lines = length (retained_paragraphs root)
  ∧ Forall (fun l => LF ∉ l) lines
  ∧ split_lf (line_file (_iter_all_paragraphs_from_slide_xml root))
    = match lines with [] => [[]] | _ => lines end.
Proof.
  intros lines.
  assert (Forall (fun l => LF ∉ l) lines) as Hno.
  { apply Forall_forall. intros l (s & -> & _)%list_elem_of_fmap.
    apply escape_newlines_no_lf. }
  split_and!; [|done|by apply split_lf_join].
  unfold lines, _iter_all_paragraphs_from_slide_xml. by rewrite !length_map.
Qed.

(* ================================================================== *)
(** * Bullets *)
(* ================================================================== *)

Lemma bullet_char_buChar_of pr :
  bullet_char (Some pr) = match buChar_of pr with [] => None | b => Some b end.
Proof.
  unfold buChar_of, bullet_char. simpl.
  destruct (find_child a_buChar pr) as [bu|]; simpl; [|done].
  by destruct (eget "char" bu) as [[|c ch]|].
Qed.

Lemma clamped_level_max_min lvl :
  Z.max 1 (Z.min 9 (lvl + 1)) = clamped_level lvl.
Proof.
  unfold clamped_level.
  destruct (Z.ltb_spec (lvl + 1) 1), (Z.ltb_spec 9 (lvl + 1)); lia.
Qed.

Lemma clamped_level_range lvl : (1 <= clamped_level lvl <= 9)%Z.
Proof.
  unfold clamped_level.
  destruct (Z.ltb_spec (lvl + 1) 1), (Z.ltb_spec 9 (lvl + 1)); lia.
Qed.

(** The tag that the code spells for a level is the one the list style
    holds for it. *)
Lemma lvl_name_level k ls :
  (1 <= k <= 9)%Z → find_child (lvl_name k) ls = level_properties ls k.
Proof.
  intros Hk. unfold level_properties.
  assert (k = 1 ∨ k = 2 ∨ k = 3 ∨ k = 4 ∨ k = 5 ∨ k = 6 ∨ k = 7 ∨ k = 8 ∨ k = 9)%Z
    as Hcases by lia.
  repeat destruct Hcases as [->|Hcases]; try subst k; done.
Qed.

(** *** Reading the level *)

Lemma digit_val_ascii c :
  ascii_digit c = true → digit_val c = Some (Z.of_N c - 48)%Z.
Proof.
  unfold ascii_digit. intros [H1 H2]%andb_true_iff.
  apply N.leb_le in H1, H2. unfold digit_val, decimal_blocks.
  cbn [List.find].
  assert ((48 <=? c)%N && (c <? 48 + 10)%N = true) as ->.
  { apply andb_true_iff. split; [by apply N.leb_le|apply N.ltb_lt; lia]. }
  simpl. f_equal. lia.
Qed.

Lemma ascii_digit_not_space c : ascii_digit c = true → isspace c = false.
Proof.
  unfold ascii_digit. intros [H1 H2]%andb_true_iff.
  apply N.leb_le in H1, H2. unfold isspace.
  repeat match goal with
         | |- context [(?a <=? ?b)%N] => destruct (N.leb_spec a b); try lia
         | |- context [(?a =? ?b)%N] => destruct (N.eqb_spec a b); try lia
         end; done.
Qed.

Lemma units_first_snoc rs d :
  units_first (rs ++ [d])
  = (units_first rs + 10 ^ Z.of_nat (length rs) * (Z.of_N d - 48))%Z.
Proof.
  induction rs as [|r rs IH]; simpl units_first.
  - simpl. lia.
  - rewrite IH. cbn [length]. rewrite Nat2Z.inj_succ, Z.pow_succ_r by lia. lia.
Qed.

Lemma int_digits_plain ds acc b :
  forallb ascii_digit ds = true → ds ≠ [] →
  int_digits ds acc b
  = Some (acc * 10 ^ Z.of_nat (length ds) + units_first (rev ds))%Z.
Proof.
  revert acc b. induction ds as [|d ds IH]; intros acc b Hds Hne; [done|].
  simpl in Hds. apply andb_true_iff in Hds as [Hd Hds].
  cbn [int_digits]. rewrite digit_val_ascii by done.
  destruct ds as [|d' ds].
  - simpl. f_equal. lia.
  - rewrite IH by done. f_equal.
    change (rev (d :: d' :: ds)) with (rev (d' :: ds) ++ [d]).
    rewrite units_first_snoc, length_rev.
    change (length (d :: d' :: ds)) with (S (length (d' :: ds))).
    rewrite Nat2Z.inj_succ, Z.pow_succ_r by lia. lia.
Qed.

Lemma lstrip_head c s : isspace c = false → lstrip (c :: s) = c :: s.
Proof. intros Hc. simpl. by rewrite Hc. Qed.

Lemma strip_plain s :
  (∀ c, head s = Some c → isspace c = false) →
  (∀ c, last s = Some c → isspace c = false) →
  strip s = s.
Proof.
  intros Hhead Hlast. unfold strip. destruct s as [|c s]; [done|].
  rewrite lstrip_head by (by apply Hhead).
  destruct (rev (c :: s)) as [|r rs] eqn:Hrev.
  { apply (f_equal (@length N)) in Hrev. rewrite length_rev in Hrev. done. }
  rewrite lstrip_head.
  - by rewrite <- Hrev, rev_involutive.
  - apply Hlast. rewrite <- (rev_involutive (c :: s)), Hrev. simpl.
    by rewrite last_snoc.
Qed.

Lemma digit_count_le s : digit_count s ≤ length s.
Proof. unfold digit_count. apply List.filter_length_le. Qed.

Lemma forallb_last {A} (P : A → bool) l x :
  forallb P l = true → last l = Some x → P x = true.
Proof.
  rewrite forallb_forall. intros Hall (l' & ->)%last_Some.
  apply Hall, in_app_iff. right. by left.
Qed.

(** [int] reads a plain numeral as the integer it denotes. *)
Lemma py_int_numeral v z :
  length v ≤ 4300 → numeral_value v = Some z → py_int v = Some z.
Proof.
  intros Hlen Hval. unfold py_int.
  rewrite bool_decide_eq_false_2
    by (pose proof (digit_count_le v); unfold MAX_STR_DIGITS; lia).
  unfold numeral_value in Hval.
  destruct v as [|c ds]; [done|].
  destruct (c =? 45)%N eqn:Hminus.
  - apply N.eqb_eq in Hminus. subst c.
    destruct (truthy ds && forallb ascii_digit ds) eqn:Hds; [|done].
    apply andb_true_iff in Hds as [Hne Hds]. injection Hval as <-.
    rewrite strip_plain.
    + change ((45 =? 45)%N) with true. cbn match.
      rewrite int_digits_plain by (done || by destruct ds). simpl. f_equal; lia.
    + by intros ? [= <-].
    + intros x Hx. destruct ds as [|d ds]; [done|].
      change (last (45%N :: d :: ds)) with (last (d :: ds)) in Hx.
      eapply ascii_digit_not_space, forallb_last; done.
  - destruct (truthy (c :: ds) && forallb ascii_digit (c :: ds)) eqn:Hds; [|done].
    apply andb_true_iff in Hds as [_ Hds]. injection Hval as <-.
    assert (ascii_digit c = true) as Hc.
    { simpl in Hds. by apply andb_true_iff in Hds as [? _]. }
    rewrite strip_plain.
    + rewrite Hminus.
      assert ((c =? 43)%N = false) as ->.
      { apply N.eqb_neq. intros ->. done. }
      rewrite int_digits_plain by done. f_equal; lia.
    + intros ? [= <-]. by apply ascii_digit_not_space.
    + intros x Hx. eapply ascii_digit_not_space, forallb_last; done.
Qed.

Lemma paragraph_lvl_nesting p_elem lvl :
  nesting_level p_elem = Some lvl →
  paragraph_lvl (find_child a_pPr p_elem) = lvl.
Proof.
  unfold nesting_level, paragraph_lvl.
  destruct (find_child a_pPr p_elem) as [pr|]; simpl; [|by intros [= <-]].
  destruct (eget "lvl" pr) as [[|c v]|]; [by intros [= <-]| |by intros [= <-]].
  case_bool_decide as Hlen; [|done]. intros Hval.
  change (truthy (c :: v)) with true. cbn match.
  by rewrite (py_int_numeral (c :: v) lvl).
Qed.

(** *** The bullet *)

Lemma paragraph_bullet_resolved lvl p_elem lstStyle :
  nesting_level p_elem = Some lvl →
  resolved_bullet lvl p_elem lstStyle
  = match paragraph_bullet p_elem lstStyle with [] => None | b => Some b end.
Proof.
  intros Hlvl. unfold paragraph_bullet, resolved_bullet.
  rewrite (paragraph_lvl_nesting p_elem lvl Hlvl).
  assert (inherited :
    (lstStyle ≫= fun ls => bullet_char (level_properties ls (clamped_level lvl)))
    = match match lstStyle with
            | Some ls =>
                match find_child (lvl_name (Z.max 1 (Z.min 9 (lvl + 1)))) ls with
                | Some lvl_pPr =>
                    if truthy (buChar_of lvl_pPr) then buChar_of lvl_pPr else []
                | None => []
                end
            | None => []
            end with [] => None | b => Some b end).
  { destruct lstStyle as [ls|]; simpl; [|done]. rewrite clamped_level_max_min.
    rewrite lvl_name_level by apply clamped_level_range.
    destruct (level_properties ls _) as [lvl_pPr|]; simpl; [|done].
    rewrite bullet_char_buChar_of. by destruct (buChar_of lvl_pPr). }
  rewrite inherited. clear inherited.
  destruct (find_child a_pPr p_elem) as [pr|].
  - rewrite bullet_char_buChar_of. destruct (buChar_of pr) as [|c b]; simpl; [|done].
    destruct lstStyle as [ls|]; [|done]. by destruct (find_child _ ls).
  - change (bullet_char None) with (@None pystr). simpl.
    destruct lstStyle as [ls|]; [|done]. by destruct (find_child _ ls).
Qed.

Lemma take_1_closing body :
  bool_decide (take 1 body ∈ NO_SPACE_AFTER_BULLET) = begins_with_closing body.
Proof.
  destruct body as [|c body]; [done|]. simpl. rewrite take_0.
  apply bool_decide_ext. unfold NO_SPACE_AFTER_BULLET, closing_chars.
  rewrite !elem_of_cons. rewrite !elem_of_nil. 
  split; intros H; repeat destruct H as [H|H]; simplify_eq; tauto.
Qed.

(** C8 (as amended).  For a paragraph whose [lvl] attribute, when it has
    one, is a plain decimal numeral: the bullet is the character of the
    explicit [a:buChar] of the paragraph's properties when that character
    is not empty, else the non-empty character of the [a:buChar] that the
    list style holds for the nesting level plus one, clamped to 1..9, else
    none.  A bullet is put before the text with one space, and the space is
    left out exactly when the text begins with a colon, semicolon, period,
    comma, closing parenthesis, hyphen-minus, em dash, middle dot or
    space. *)
Theorem extracted_paragraph_bullet
    (p_elem : Element) (lstStyle : option Element) (lvl : Z) :
  nesting_level p_elem = Some lvl →
  _extract_paragraph_text p_elem lstStyle = bulleted_line lvl p_elem lstStyle.
Proof.
  intros Hlvl. unfold _extract_paragraph_text, bulleted_line.
  rewrite (paragraph_bullet_resolved lvl) by done. rewrite take_1_closing.
  destruct (paragraph_bullet p_elem lstStyle) as [|c b]; simpl; [done|].
  by destruct (begins_with_closing (paragraph_body p_elem)).
Qed.

(* ================================================================== *)
(** * Padding and truncation *)
(* ================================================================== *)

(** Under both methods the lines are fitted to the number of structural
    units, and each unit is paired with one line. *)
Lemma patch_methods_fitted (root : Element) (lines : list pystr) :
  let n_runs := length (_find_runs root) in
  let p_nodes := _collect_paragraphs root in
  let n_paras := length p_nodes in
  let warning (n : nat) (msg : nat → LogMsg) :=
    if bool_decide (n < length lines) then [msg (length lines - n)] else [] in
  _patch_slide_runs root lines
  = ((patch_runs root (one_line_per_unit n_runs lines)).1,
     warning n_runs WarnTruncateRuns, n_runs)
  ∧ length (one_line_per_unit n_runs lines) = n_runs
  ∧ (patch_runs root (one_line_per_unit n_runs lines)).2 = []
  ∧ _patch_slide_paragraphs root lines
    = (if bool_decide (n_paras = 0) then (root, [InfoNoParagraphs], 0)
       else (patch_paragraphs root (zip p_nodes (one_line_per_unit n_paras lines)),
             warning n_paras WarnTruncateParagraphs, n_paras))
  ∧ (zip p_nodes (one_line_per_unit n_paras lines)).*1 = p_nodes
  ∧ (zip p_nodes (one_line_per_unit n_paras lines)).*2
    = one_line_per_unit n_paras lines.
Proof.
  intros n_runs p_nodes n_paras warning. split_and!.
  - unfold _patch_slide_runs. fold n_runs. rewrite fit_lines_spec.
    unfold warning. by case_bool_decide.
  - apply one_line_per_unit_length.
  - rewrite patch_runs_rest. fold n_runs. apply drop_ge.
    by rewrite one_line_per_unit_length.
  - unfold _patch_slide_paragraphs. fold p_nodes n_paras.
    case_bool_decide; [done|]. rewrite fit_lines_spec.
    unfold warning. by case_bool_decide.
  - apply fst_zip. by rewrite one_line_per_unit_length.
  - apply snd_zip. by rewrite one_line_per_unit_length.
Qed.

(* ================================================================== *)
(** * Whitespace of written text *)
(* ================================================================== *)

Lemma get_attr_set_attr key v attrs :
  get_attr key (set_attr key v attrs) = Some v.
Proof.
  induction attrs as [|[k w] attrs IH]; simpl.
  - by rewrite bool_decide_eq_true_2.
  - destruct (bool_decide (k = key)) eqn:Hk; simpl; by rewrite Hk.
Qed.

Lemma write_first_fields new_text l :
  text (write_first new_text l) = Some new_text
  ∧ get_attr xml_space (attrib (write_first new_text l)) = Some (s2u "preserve").
Proof. split; [done|]. apply get_attr_set_attr. Qed.

(** The labels after the paragraph writer ran. *)
Lemma replace_plaintext_label root p new_text q :
  label <$> node (_replace_plaintext_preserving_math root p new_text) q
  = patched_label (plain_t_nodes root p) new_text q <$> (label <$> node root q).
Proof.
  rewrite replace_plaintext_unfold. pose proof (NoDup_plain_t_nodes root p) as Hnd.
  unfold patched_label. destruct (plain_t_nodes root p) as [|t1 rest].
  - by destruct (node root q).
  - apply NoDup_cons in Hnd as [Ht1 _].
    rewrite relabel_all_label by done. rewrite relabel_label.
    destruct (node root q) as [n|]; simpl; [|done]. f_equal.
    destruct (decide (q = t1)) as [->|Hne].
    + by rewrite decide_False.
    + done.
Qed.

Lemma replace_plaintext_desc_paths root p new_text :
  desc_paths (_replace_plaintext_preserving_math root p new_text) = desc_paths root.
Proof.
  rewrite replace_plaintext_unfold. destruct (plain_t_nodes root p); [done|].
  by rewrite desc_paths_relabel_all, desc_paths_relabel.
Qed.

(** C10.  Every [a:t] that a patch writes edited text into asks for its
    whitespace to be kept: after the run-level patch every [a:t] of the
    slide is one of the segments it created and carries
    [xml:space="preserve"], as do the segments of any line; the
    paragraph-level writer sets the attribute on the [a:t] that receives
    the line. *)
Theorem written_text_keeps_whitespace
    (root : Element) (lines : list pystr) (p : path) (line : pystr) :
  texts_preserved (descendants (_patch_slide_runs root lines).1.1) = true
  ∧ texts_preserved (segment_elements line) = true
  ∧ match plain_t_nodes root p with
    | [] => _replace_plaintext_preserving_math root p line = root
    | t1 :: _ =>
        (fun e => (etext e, eget xml_space e))
          <$> node (_replace_plaintext_preserving_math root p line) t1
        = Some (Some line, Some (s2u "preserve"))
    end.
Proof.
  split_and!.
  - destruct (patch_methods_fitted root lines) as (-> & Hlen & _). simpl.
    apply patch_runs_preserved. by rewrite Hlen.
  - pose proof (segment_elements_preserved line) as H.
    pose proof (segment_elements_leaves line) as Hleaf.
    induction Hleaf as [|d ds [Hd _] _ IH]; [done|].
    simpl in H. rewrite descendants_unfold, Hd in H. simpl in H.
    unfold texts_preserved in *. simpl in *.
    apply andb_true_iff in H as [-> H]. by apply IH.
  - pose proof (replace_plaintext_label root p line) as Hlab.
    pose proof (replace_plaintext_unfold root p line) as Hunf.
    destruct (plain_t_nodes root p) as [|t1 rest] eqn:Hts; [done|].
    specialize (Hlab t1). unfold patched_label in Hlab.
    assert (is_Some (node root t1)) as [n Hn].
    { eapply plain_t_nodes_under. rewrite Hts. left. }
    rewrite Hn in Hlab. simpl in Hlab. rewrite decide_True in Hlab by done.
    destruct (node (_replace_plaintext_preserving_math root p line) t1) as [n'|];
      [|done].
    simpl in *. injection Hlab as Hlab. unfold etext, eget. rewrite Hlab.
    by destruct (write_first_fields line (label n)) as [-> ->].
Qed.

(* ================================================================== *)
(** * The paragraph-level patch on one paragraph *)
(* ================================================================== *)

Lemma forallb_ext_in {A} (f g : A → bool) l :
  (∀ x, In x l → f x = g x) → forallb f l = forallb g l.
Proof.
  induction l as [|x l IH]; intros Hfg; [done|]. simpl.
  rewrite Hfg by (by left). rewrite IH; [done|]. intros y Hy. apply Hfg. by right.
Qed.

Lemma no_math_ancestor_snoc root r x :
  no_math_ancestor root (r ++ [x])
  = no_math_ancestor root r
    && match node root r with
       | Some anc => negb (has_tag m_oMath anc || has_tag m_oMathPara anc)
       | None => true
       end.
Proof.
  unfold no_math_ancestor. rewrite length_app. simpl.
  rewrite Nat.add_1_r, seq_S, forallb_app. simpl. rewrite andb_true_r.
  rewrite take_app_length. f_equal.
  apply forallb_ext_in. intros k Hk%in_seq.
  by rewrite take_app_le by lia.
Qed.

(** In a paragraph whose text units all sit in runs, the elements that
    the writer selects are the text units. *)
Lemma plain_t_nodes_text_units root p :
  text_in_runs root p = true → plain_t_nodes root p = text_units root p.
Proof.
  unfold text_in_runs, plain_t_nodes. intros [Hp Hruns]%andb_true_iff.
  rewrite forallb_forall in Hruns. unfold text_units in *.
  destruct (node root p) as [p_el|] eqn:Hpel; [|done].
  apply filter_ext_in. intros t Ht.
  apply in_map_iff in Ht as (q & <- & Hq).
  apply list_elem_of_In, elem_of_desc_paths in Hq as [Hne _].
  destruct (exists_last Hne) as (q' & x & ->).
  rewrite app_assoc, removelast_last, no_math_ancestor_snoc.
  specialize (Hruns ((p ++ q') ++ [x])). rewrite removelast_last in Hruns.
  destruct (node root ((p ++ q') ++ [x])) as [t_el|] eqn:Ht; [|done].
  destruct (has_tag a_t t_el) eqn:Htag; [|by destruct (node root (p ++ q'))].
  simpl.
  destruct (node root (p ++ q')) as [r_el|] eqn:Hr.
  - destruct (has_tag a_r r_el) eqn:Hrtag; simpl.
    + apply bool_decide_eq_true in Hrtag.
      assert (has_tag m_oMath r_el || has_tag m_oMathPara r_el = false) as ->.
      { unfold has_tag. rewrite Hrtag. by vm_compute. }
      rewrite andb_true_r.
      rewrite bool_decide_eq_true_2; [done|].
      rewrite length_app. destruct q' as [|y q']; [|simpl; lia].
      rewrite app_nil_r in Hr. rewrite Hr in Hpel. injection Hpel as ->.
      apply bool_decide_eq_true in Hp. rewrite Hp in Hrtag. by vm_compute in Hrtag.
    + destruct (no_math_ancestor root (p ++ q')
                && negb (has_tag m_oMath r_el || has_tag m_oMathPara r_el)) eqn:Hmath;
        [|done].
      exfalso. assert (false = true) as Habs; [|done].
      apply Hruns. apply filter_In. split.
      * apply in_map_iff. exists (q' ++ [x]). rewrite app_assoc. split; [done|].
        apply list_elem_of_In, elem_of_desc_paths. split; [by destruct q'|].
        pose proof Ht as Ht'. rewrite <- app_assoc, node_app, Hpel in Ht'.
        simpl in Ht'. rewrite Ht'. eauto.
      * rewrite Ht, Htag, no_math_ancestor_snoc, Hr. done.
  - exfalso. apply (f_equal is_Some) in Hr. 
    assert (is_Some (node root (p ++ q'))) as Hsome.
    { apply (node_prefix_is_Some root (p ++ q') [x]). rewrite Ht. eauto. }
    rewrite Hr in Hsome. by destruct Hsome.
Qed.

Lemma visible_text_in_runs root p :
  text_in_runs root p = true →
  _visible_plaintext_outside_math root p = visible_text root p.
Proof.
  intros Hruns. unfold _visible_plaintext_outside_math, visible_text.
  by rewrite plain_t_nodes_text_units.
Qed.

(** C5 (as amended).  Take a paragraph whose text units outside formula
    scope all belong to runs.  When its visible plain text is empty or
    only whitespace, the slide is left as it is.  Otherwise the tree keeps
    its shape, the line is written into the first text unit, every other
    text unit gets the empty string, and every other element of the slide
    keeps its label: breaks, tabs and formula subtrees stay as and where
    they were. *)
Theorem paragraph_patch_frame (root : Element) (p : path) (line : pystr) (q : path) :
  text_in_runs root p = true →
  let root' := patch_paragraph root p line in
  if truthy (strip (visible_text root p)) then
    desc_paths root' = desc_paths root
    ∧ label <$> node root' q
      = patched_label (text_units root p) line q <$> (label <$> node root q)
  else root' = root.
Proof.
  intros Hruns. cbv zeta. unfold patch_paragraph.
  rewrite visible_text_in_runs by done.
  destruct (truthy _); [|done].
  rewrite <- plain_t_nodes_text_units by done.
  split; [apply replace_plaintext_desc_paths | apply replace_plaintext_label].
Qed.

(* ================================================================== *)
(** * The round trip *)
(* ================================================================== *)

Lemma n_paragraphs_patch_slide_runs root lines :
  t_leaves root = true →
  n_paragraphs (_patch_slide_runs root lines).1.1 = n_paragraphs root.
Proof.
  intros Hleaf. destruct (patch_methods_fitted root lines) as (-> & _). simpl.
  unfold n_paragraphs. rewrite !findall_desc_length.
  by apply patch_runs_count_p.
Qed.

Lemma n_paragraphs_patch_slide_paragraphs root lines :
  n_paragraphs (_patch_slide_paragraphs root lines).1.1 = n_paragraphs root.
Proof.
  destruct (patch_methods_fitted root lines) as (_ & _ & _ & -> & _).
  case_bool_decide; [done|]. simpl. apply patch_paragraphs_count.
Qed.

Lemma n_paragraphs_hybrid root lines :
  t_leaves root = true →
  n_paragraphs (_patch_slide_hybrid root lines).1.1 = n_paragraphs root.
Proof.
  intros Hleaf. unfold _patch_slide_hybrid.
  pose proof (n_paragraphs_patch_slide_runs root lines Hleaf) as Hr.
  pose proof (n_paragraphs_patch_slide_paragraphs root lines) as Hp.
  case_bool_decide.
  - by destruct (_patch_slide_runs root lines) as [[??]?].
  - by destruct (_patch_slide_paragraphs root lines) as [[??]?].
Qed.

(** X19.  Extracting a slide and reintegrating the unedited file gives a
    slide with the same number of paragraphs, on a slide whose [a:t]
    elements have no children. *)
Theorem roundtrip_keeps_paragraph_count (root : Element) :
  t_leaves root = true →
  n_paragraphs (roundtrip_slide root) = n_paragraphs root.
Proof.
  intros Hleaf. unfold roundtrip_slide, reintegrate_slide.
  destruct (_read_lines _) as [|l ls]; [done|].
  by apply n_paragraphs_hybrid.
Qed.

(* ================================================================== *)
(** * Placeholder shapes *)
(* ================================================================== *)

(** ** Document order along a reference *)

Lemma filter_none {A} (P : A → bool) l :
  (∀ x, x ∈ l → P x = false) → List.filter P l = [].
Proof.
  induction l as [|x l IH]; intros H; [done|]. simpl.
  rewrite (H x) by left. apply IH. intros y Hy. apply H. by right.
Qed.

Lemma filter_map_cons (P : path → bool) j l :
  List.filter P (map (cons j) l) = map (cons j) (List.filter (fun a => P (j :: a)) l).
Proof.
  induction l as [|x l IH]; [done|]. simpl. rewrite IH. by destruct (P (j :: x)).
Qed.

Lemma prefix_cons_bool (j i : nat) (a tb : path) :
  bool_decide (i :: a `prefix_of` j :: tb)
  = bool_decide (i = j) && bool_decide (a `prefix_of` tb).
Proof.
  apply eq_true_iff_eq. rewrite andb_true_iff, !bool_decide_eq_true. split.
  - intros H. split; [by eapply prefix_cons_inv_1 | by eapply prefix_cons_inv_2].
  - intros [-> H]. by apply prefix_cons.
Qed.

Lemma filter_prefix_desc_paths_from ks i j tb :
  List.filter (fun a => bool_decide (a `prefix_of` j :: tb)) (desc_paths_from ks i)
  = if bool_decide (i ≤ j) then
      match ks !! (j - i) with
      | Some k =>
          [j] :: map (cons j)
                   (List.filter (fun a => bool_decide (a `prefix_of` tb)) (desc_paths k))
      | None => []
      end
    else [].
Proof.
  revert i. induction ks as [|k ks IH]; intros i.
  - simpl. by case_bool_decide.
  - rewrite desc_paths_from_cons, List.filter_app, IH. simpl.
    rewrite filter_map_cons. rewrite prefix_cons_bool.
    rewrite (bool_decide_eq_true_2 ([] `prefix_of` tb)) by apply prefix_nil.
    rewrite andb_true_r.
    destruct (decide (i = j)) as [->|Hne].
    + rewrite bool_decide_eq_true_2 by done.
      rewrite (bool_decide_eq_false_2 (S j ≤ j)) by lia.
      rewrite (bool_decide_eq_true_2 (j ≤ j)) by lia.
      rewrite Nat.sub_diag, app_nil_r. simpl. do 2 f_equal.
      apply filter_ext. intros a. rewrite prefix_cons_bool.
      by rewrite bool_decide_eq_true_2.
    + rewrite bool_decide_eq_false_2 by done.
      rewrite (filter_none _ (desc_paths k)).
      2:{ intros a _. rewrite prefix_cons_bool. by rewrite bool_decide_eq_false_2. }
      simpl. repeat case_bool_decide; try lia; [|done].
      replace (j - i) with (S (j - S i)) by lia. done.
Qed.

Lemma valid_prefixes_cons e j tb :
  valid_prefixes e (j :: tb)
  = match children e !! j with
    | Some k => [j] :: map (cons j) (valid_prefixes k tb)
    | None => []
    end.
Proof.
  unfold valid_prefixes. simpl.
  rewrite <- fmap_S_seq, <- list_fmap_compose.
  change ((λ k, take k (j :: tb)) ∘ S) with (cons j ∘ (λ k, take k tb)).
  rewrite list_fmap_compose, filter_map_cons. simpl.
  destruct (children e !! j) as [k|] eqn:Hk.
  - rewrite bool_decide_eq_true_2 by eauto. done.
  - rewrite bool_decide_eq_false_2 by (by intros [??]).
    rewrite filter_none; [done|]. by intros a _.
Qed.

(** The references of the tree that lie along [tb] come in document order
    from the shortest to the longest. *)
Lemma prefixes_in_document_order e tb :
  List.filter (fun a => bool_decide (a `prefix_of` tb)) (desc_paths e)
  = valid_prefixes e tb.
Proof.
  revert e. induction tb as [|j tb IH]; intros e.
  - apply filter_none. intros a [Hne _]%elem_of_desc_paths.
    apply bool_decide_eq_false_2. intros ->%prefix_nil_inv. done.
  - rewrite desc_paths_children, filter_prefix_desc_paths_from, valid_prefixes_cons.
    rewrite bool_decide_eq_true_2 by lia. rewrite Nat.sub_0_r.
    destruct (children e !! j); [|done]. by rewrite IH.
Qed.

Lemma find_filter_comm {A} (P T : A → bool) l :
  List.find P (List.filter T l) = List.find T (List.filter P l).
Proof.
  induction l as [|x l IH]; [done|]. simpl.
  destruct (T x) eqn:HT, (P x) eqn:HP; simpl; rewrite ?HT, ?HP; done.
Qed.

Lemma find_app_none {A} (P : A → bool) l1 l2 :
  (∀ x, x ∈ l1 → P x = false) → List.find P (l1 ++ l2) = List.find P l2.
Proof.
  induction l1 as [|x l1 IH]; intros H; [done|]. simpl.
  rewrite (H x) by left. apply IH. intros y Hy. apply H. by right.
Qed.

Lemma step_desc_root root t :
  step_desc root t [[]]
  = List.filter (fun p => match node root p with
                          | Some e => has_tag t e
                          | None => false
                          end) (desc_paths root).
Proof.
  unfold step_desc, with_tag. simpl. rewrite app_nil_r. f_equal.
  rewrite <- (map_id (desc_paths root)) at 2. by apply map_ext.
Qed.

(** The shape that decides for a text body is the outermost [p:sp] that
    holds it. *)
Lemma deciding_shape root q sp_el tb :
  node root q = Some sp_el → etag sp_el = p_sp → q ≠ [] →
  no_shape_above root q = true → q `prefix_of` tb →
  List.find (fun sp => bool_decide (sp `prefix_of` tb)) (step_desc root p_sp [[]])
  = Some q.
Proof.
  intros Hq Htag Hne Habove [r ->].
  rewrite step_desc_root, find_filter_comm, prefixes_in_document_order.
  unfold valid_prefixes.
  assert (length q = S (length q - 1)) as Hlen by (destruct q; [done|simpl; lia]).
  rewrite length_app.
  replace (length q + length r) with ((length q - 1) + S (length r)) by lia.
  rewrite seq_app, map_app, List.filter_app. rewrite find_app_none.
  - simpl. replace (S (length q - 1)) with (length q) by lia.
    rewrite take_app_length, bool_decide_eq_true_2 by (rewrite Hq; eauto).
    simpl. rewrite Hq. unfold has_tag. by rewrite bool_decide_eq_true_2.
  - intros a Ha. apply list_elem_of_In, filter_In in Ha as [Ha _].
    apply list_elem_of_In, list_elem_of_fmap in Ha as (k & -> & Hk).
    apply elem_of_seq in Hk. rewrite take_app_le by lia.
    unfold no_shape_above in Habove. rewrite forallb_forall in Habove.
    specialize (Habove k). destruct (node root (take k q)); [|done].
    rewrite negb_orb in Habove.
    assert (In k (seq 0 (length q))) as Hin by (apply in_seq; lia).
    apply Habove in Hin. apply andb_true_iff in Hin as [Hin _].
    by apply negb_true_iff in Hin.
Qed.

Lemma elem_of_step_child root t tb p :
  p ∈ step_child root t [tb] →
  ∃ i e, p = tb ++ [i] ∧ node root p = Some e ∧ etag e = t.
Proof.
  unfold step_child, with_tag. simpl. rewrite app_nil_r.
  destruct (node root tb) as [tb_el|]; [|by intros ?%elem_of_nil].
  intros [(i & -> & _)%list_elem_of_In%list_elem_of_fmap Hf]%list_elem_of_In%filter_In.
  destruct (node root (tb ++ [i])) as [e|]; [|done].
  exists i, e. split_and!; [done..|]. by apply bool_decide_eq_true in Hf.
Qed.

Lemma prefix_snoc_cases (q l : path) x :
  q `prefix_of` l ++ [x] → q = l ++ [x] ∨ q `prefix_of` l.
Proof.
  intros [k Hk]. destruct k as [|y k _] using rev_ind.
  - left. by rewrite app_nil_r in Hk.
  - right. rewrite app_assoc in Hk. apply app_inj_tail in Hk as [-> _]. by exists k.
Qed.

(** A skipped placeholder shape contributes no line. *)
Lemma skipped_shape_not_retained root q sp_el :
  node root q = Some sp_el → etag sp_el = p_sp → q ≠ [] →
  no_shape_above root q = true → first_ph_is_skipped root q = true →
  Forall (fun pl => ¬ q `prefix_of` pl.1) (retained_paragraphs root).
Proof.
  intros Hq Htag Hne Habove Hskip. apply Forall_forall. intros [p lst] Hin Hpre.
  simpl in Hpre. unfold retained_paragraphs in Hin.
  apply list_elem_of_In, in_flat_map in Hin as (tb & _ & Hin).
  destruct (skip_this root tb) eqn:Hs; [done|].
  apply list_elem_of_In, list_elem_of_fmap in Hin as (p' & [= <- _] & Hp).
  apply elem_of_step_child in Hp as (i & e & -> & Hp & Hte).
  apply prefix_snoc_cases in Hpre as [->|Hpre].
  - rewrite Hp in Hq. injection Hq as ->. rewrite Htag in Hte.
    by vm_compute in Hte.
  - unfold skip_this in Hs.
    rewrite (deciding_shape root q sp_el tb) in Hs by done. congruence.
Qed.

(** ** The paragraph collector *)

Lemma collect_unfold pre l ks :
  _collect_paragraphs_from_node pre (Elem l ks)
  = if bool_decide (tag l = p_sp) then
      if _shape_is_skipped_placeholder (Elem l ks) then []
      else match find_child_from p_txBody ks 0 with
           | Some (i, tx) => paragraphs_under (pre ++ [i]) tx
           | None => []
           end
    else if bool_decide (tag l = p_grpSp) then collect_kids pre ks 0
    else if bool_decide (tag l = p_graphicFrame) then paragraphs_under pre (Elem l ks)
    else collect_kids pre ks 0.
Proof.
  unfold _collect_paragraphs_from_node at 1. fold _collect_paragraphs_from_node.
  repeat case_bool_decide; try done;
    generalize 0; clear; induction ks as [|k ks IH]; intros i; simpl;
    [done | by rewrite IH | done | by rewrite IH].
Qed.

Lemma elem_of_collect_kids pre ks i c :
  c ∈ collect_kids pre ks i →
  ∃ j k, ks !! j = Some k ∧ c ∈ _collect_paragraphs_from_node (pre ++ [i + j]) k.
Proof.
  revert i. induction ks as [|k ks IH]; intros i; [by intros ?%elem_of_nil|].
  simpl. intros [Hc|Hc]%elem_of_app.
  - exists 0, k. by rewrite Nat.add_0_r.
  - apply IH in Hc as (j & k' & Hk' & Hc). exists (S j), k'.
    by rewrite Nat.add_succ_r.
Qed.

Lemma paragraphs_under_prefix pre e c : c ∈ paragraphs_under pre e → pre `prefix_of` c.
Proof.
  unfold paragraphs_under. intros (q & -> & _)%list_elem_of_fmap. by exists q.
Qed.

Lemma find_child_from_index t ks i j k :
  find_child_from t ks i = Some (j, k) → i ≤ j.
Proof.
  revert i. induction ks as [|k' ks IH]; intros i; [done|]. simpl.
  destruct (has_tag t k'); [by intros [= -> _]|].
  intros H%IH. lia.
Qed.

Lemma collect_prefix pre e c :
  c ∈ _collect_paragraphs_from_node pre e → pre `prefix_of` c.
Proof.
  revert pre. induction e as [l ks IH] using Element_ind'. intros pre.
  assert (∀ i, c ∈ collect_kids pre ks i → pre `prefix_of` c) as Hkids.
  { intros i (j & k & Hk & Hc)%elem_of_collect_kids.
    rewrite Forall_forall in IH. apply IH in Hc; [|by eapply list_elem_of_lookup_2].
    etrans; [|done]. by apply prefix_app_r. }
  rewrite collect_unfold. repeat case_bool_decide; eauto using paragraphs_under_prefix.
  destruct (_shape_is_skipped_placeholder _); [by intros ?%elem_of_nil|].
  destruct (find_child_from p_txBody ks 0) as [[i tx]|]; [|by intros ?%elem_of_nil].
  intros Hc%paragraphs_under_prefix. etrans; [|done]. by apply prefix_app_r.
Qed.

Lemma comparable_app_cons pre i j (r c : path) :
  comparable (pre ++ i :: r) c → pre ++ [j] `prefix_of` c → i = j.
Proof.
  intros Hcmp [c' ->]. rewrite <- app_assoc in Hcmp. simpl in Hcmp.
  destruct Hcmp as [[k Hk]|[k Hk]].
  - rewrite <- app_assoc in Hk. apply app_inv_head in Hk. by injection Hk.
  - rewrite <- app_assoc in Hk. apply app_inv_head in Hk. by injection Hk.
Qed.

(** No collected paragraph lies inside, or around, a skipped placeholder
    shape that the collector reaches. *)
Lemma collect_avoids_skipped e pre r sp_el c :
  node e r = Some sp_el → etag sp_el = p_sp →
  _shape_is_skipped_placeholder sp_el = true →
  no_shape_above e r = true →
  c ∈ _collect_paragraphs_from_node pre e → ¬ comparable (pre ++ r) c.
Proof.
  revert e pre. induction r as [|i r IH]; intros e pre Hr Htag Hskip Habove Hc.
  - injection Hr as ->. destruct sp_el as [l ks]. rewrite collect_unfold in Hc.
    rewrite bool_decide_eq_true_2, Hskip in Hc by done. by apply elem_of_nil in Hc.
  - destruct e as [l ks]. rewrite collect_unfold in Hc.
    unfold no_shape_above in Habove. simpl in Habove.
    apply andb_true_iff in Habove as [Hroot Habove].
    rewrite negb_orb in Hroot. apply andb_true_iff in Hroot as [Hsp Hgf].
    apply negb_true_iff, bool_decide_eq_false in Hsp.
    apply negb_true_iff, bool_decide_eq_false in Hgf.
    unfold etag in Hsp, Hgf. simpl in Hsp, Hgf.
    rewrite (bool_decide_eq_false_2 (tag l = p_sp)) in Hc by done.
    rewrite (bool_decide_eq_false_2 (tag l = p_graphicFrame)) in Hc by done.
    assert (c ∈ collect_kids pre ks 0) as Hc' by (by case_bool_decide).
    apply elem_of_collect_kids in Hc' as (j & k & Hk & Hck). simpl in Hck.
    intros Hcmp. pose proof (collect_prefix _ _ _ Hck) as Hpre.
    assert (i = j) as -> by (by eapply comparable_app_cons).
    simpl in Hr. rewrite Hk in Hr.
    eapply (IH k (pre ++ [j])); [done..| |done|].
    + unfold no_shape_above. rewrite <- fmap_S_seq in Habove.
      rewrite forallb_forall in *. intros n Hn.
      specialize (Habove (S n)). simpl in Habove. rewrite Hk in Habove.
      apply Habove. apply list_elem_of_In, list_elem_of_fmap. exists n.
      by rewrite list_elem_of_In.
    + by rewrite <- app_assoc.
Qed.

Lemma no_shape_above_app root pre r st :
  node root pre = Some st →
  no_shape_above root (pre ++ r) = true → no_shape_above st r = true.
Proof.
  intros Hpre. unfold no_shape_above. rewrite !forallb_forall.
  intros H n Hn. apply in_seq in Hn.
  specialize (H (length pre + n)).
  rewrite take_app_ge, node_app, Hpre in H by lia. simpl in H.
  replace (length pre + n - length pre) with n in H by lia.
  apply H. apply in_seq. rewrite length_app. lia.
Qed.

Lemma collect_paragraphs_avoid_skipped root q sp_el c :
  node root q = Some sp_el → etag sp_el = p_sp →
  _shape_is_skipped_placeholder sp_el = true →
  free_standing root q = true →
  c ∈ _collect_paragraphs root → ¬ comparable q c.
Proof.
  intros Hq Htag Hskip Hfree Hc. unfold free_standing in Hfree.
  unfold _collect_paragraphs in Hc. fold (shape_tree root) in Hc.
  destruct (shape_tree root) as [sp_tree|]; [|done].
  apply andb_true_iff in Hfree as [Hfree Habove].
  apply andb_true_iff in Hfree as [Hpre Hne].
  apply bool_decide_eq_true in Hpre as [r ->]. apply bool_decide_eq_true in Hne.
  rewrite node_app in Hq.
  destruct (node root sp_tree) as [st|] eqn:Hst; [|done]. simpl in Hq.
  apply list_elem_of_In, in_flat_map in Hc as ([j k] & Hjk & Hc).
  apply list_elem_of_In in Hc.
  apply list_elem_of_In, elem_of_lookup_imap in Hjk as (j' & k' & [= -> ->] & Hk).
  destruct r as [|i r]; [by rewrite app_nil_r in Hne|].
  intros Hcmp. pose proof (collect_prefix _ _ _ Hc) as Hpre.
  assert (i = j') as -> by (by eapply comparable_app_cons).
  simpl in Hq. rewrite Hk in Hq.
  eapply (collect_avoids_skipped k' (sp_tree ++ [j']) r); [done..| |done|].
  - apply (no_shape_above_app root sp_tree (j' :: r) st) in Habove; [|done].
    unfold no_shape_above in *. simpl in Habove.
    apply andb_true_iff in Habove as [_ Habove].
    rewrite <- fmap_S_seq in Habove. rewrite forallb_forall in *. intros n Hn.
    specialize (Habove (S n)). simpl in Habove. rewrite Hk in Habove.
    apply Habove. apply list_elem_of_In, list_elem_of_fmap. exists n.
    by rewrite list_elem_of_In.
  - by rewrite <- app_assoc.
Qed.

(** ** The patch leaves such a shape alone *)

Lemma patch_paragraph_frame root p text q :
  ¬ comparable q p → node (patch_paragraph root p text) q = node root q.
Proof.
  intros Hcmp. unfold patch_paragraph. destruct (truthy _); [|done].
  rewrite replace_plaintext_unfold.
  pose proof (plain_t_nodes_under root p) as Hunder.
  assert (∀ t, t ∈ plain_t_nodes root p → ¬ q `prefix_of` t) as Hts.
  { intros t [Hpt _]%Hunder Hqt. apply Hcmp.
    destruct (prefix_weak_total _ _ _ Hqt Hpt); [by left | by right]. }
  destruct (plain_t_nodes root p) as [|t1 rest]; [done|].
  rewrite relabel_all_node_frame.
  - apply relabel_node_frame, Hts. left.
  - apply Forall_forall. intros t Ht. apply Hts. by right.
Qed.

Lemma patch_paragraphs_frame root pairs q :
  Forall (fun '(p, _) => ¬ comparable q p) pairs →
  node (patch_paragraphs root pairs) q = node root q.
Proof.
  revert root. induction pairs as [|[p text] pairs IH]; intros root Hall; [done|].
  apply Forall_cons in Hall as [Hp Hall]. simpl.
  rewrite IH by done. by apply patch_paragraph_frame.
Qed.

(** C6 (as amended).  A shape whose placeholder type is date, slide number,
    footer or header, held by the shape tree directly or through groups,
    contributes no line to the extracted file, none of its paragraphs is
    collected for the paragraph-level patch, and that patch leaves the
    whole shape as it was.  (The run-level patch has no such filter.) *)
Theorem skipped_placeholder_untouched
    (root : Element) (q : path) (sp_el : Element) (lines : list pystr) :
  node root q = Some sp_el → etag sp_el = p_sp →
  free_standing root q = true →
  first_ph_is_skipped root q = true →
  _shape_is_skipped_placeholder sp_el = true →
  Forall (fun pl => ¬ q `prefix_of` pl.1) (retained_paragraphs root)
  ∧ Forall (fun p => ¬ q `prefix_of` p) (_collect_paragraphs root)
  ∧ node (_patch_slide_paragraphs root lines).1.1 q = Some sp_el.
Proof.
  intros Hq Htag Hfree Hex Hre.
  assert (Forall (fun p => ¬ comparable q p) (_collect_paragraphs root)) as Havoid.
  { apply Forall_forall. intros c Hc.
    by eapply collect_paragraphs_avoid_skipped. }
  split_and!.
  - apply (skipped_shape_not_retained root q sp_el);
      [exact Hq | exact Htag | | | exact Hex].
    + unfold free_standing in Hfree. destruct (shape_tree root); [|done].
      apply andb_true_iff in Hfree as [Hfree _].
      apply andb_true_iff in Hfree as [Hpre Hne].
      apply bool_decide_eq_true in Hpre as [r ->]. apply bool_decide_eq_true in Hne.
      intros Hnil. apply app_eq_nil in Hnil as [-> ->]. done.
    + unfold free_standing in Hfree. destruct (shape_tree root); [|done].
      by apply andb_true_iff in Hfree as [_ ?].
  - eapply Forall_impl; [exact Havoid|]. intros c Hc Hpre. apply Hc. by left.
  - destruct (patch_methods_fitted root lines) as (_ & _ & _ & -> & Hfst & _).
    case_bool_decide; [done|]. simpl. rewrite <- Hq.
    apply patch_paragraphs_frame.
    apply Forall_forall. intros [p text] Hin.
    rewrite Forall_forall in Havoid. apply Havoid. rewrite <- Hfst.
    apply list_elem_of_fmap. by exists (p, text).
Qed.

(* ================================================================== *)
(** * Containers *)
(* ================================================================== *)

Lemma read_write_part c name name' v :
  read_part (write_part c name v) name'
  = if decide (name = name') then Some v else read_part c name'.
Proof.
  induction c as [|[k w] c IH]; simpl.
  - case_bool_decide; by case_decide.
  - destruct (decide (k = name)) as [->|Hk].
    + rewrite bool_decide_eq_true_2 by done. simpl.
      case_bool_decide; by case_decide.
    + rewrite (bool_decide_eq_false_2 (k = name)) by done. simpl.
      rewrite IH. case_bool_decide; [|done]. subst.
      by rewrite decide_False.
Qed.

Lemma read_part_elem_of c name v :
  read_part c name = Some v → name ∈ c.*1.
Proof.
  induction c as [|[k w] c IH]; [done|]. simpl.
  case_bool_decide; [subst; left | right; auto].
Qed.

(** ** Extraction stops at the first slide that does not parse *)

Lemma extract_loop_raises probes zf idx n raw out_dir (roots : nat → Element) :
  idx ≤ n → n - idx < probes →
  (∀ i, idx ≤ i < n → read_part zf (SlideXml i) = Some (Parsed (roots i))) →
  read_part zf (SlideXml n) = Some (Unparsable raw) →
  (extract_loop probes zf idx out_dir).2 = Raise (ParseError n)
  ∧ ∀ i, (extract_loop probes zf idx out_dir).1 !! i
         = if bool_decide (idx ≤ i < n)
           then Some (line_file (_iter_all_paragraphs_from_slide_xml (roots i)))
           else out_dir !! i.
Proof.
  revert idx out_dir. induction probes as [|probes IH]; intros idx out_dir Hle Hfuel Hok Hbad;
    [lia|].
  simpl. destruct (decide (idx = n)) as [->|Hne].
  - rewrite Hbad. simpl. split; [done|]. intros i.
    by rewrite bool_decide_eq_false_2 by lia.
  - rewrite (Hok idx) by lia.
    specialize (IH (S idx)
      (<[idx:=line_file (_iter_all_paragraphs_from_slide_xml (roots idx))]> out_dir)).
    destruct IH as [IH1 IH2]; [lia|lia| |done|].
    { intros i Hi. apply Hok. lia. }
    destruct (extract_loop probes zf (S idx) _) as [d [saved|e]]; simpl in *; [done|].
    split; [done|]. intros i. rewrite IH2.
    destruct (decide (i = idx)) as [->|Hi].
    + rewrite bool_decide_eq_false_2 by lia.
      rewrite bool_decide_eq_true_2 by lia. by rewrite lookup_insert_eq.
    + rewrite lookup_insert_ne by done.
      destruct (decide (S idx ≤ i < n)).
      * by rewrite !bool_decide_eq_true_2 by lia.
      * by rewrite !bool_decide_eq_false_2 by lia.
Qed.

Lemma slides_fit_in_container (zf : Container) n :
  (∀ i, 1 ≤ i ≤ n → is_Some (read_part zf (SlideXml i))) → n ≤ length zf.
Proof.
  intros H.
  assert (length (SlideXml <$> seq 1 n) ≤ length zf.*1) as Hlen.
  { apply submseteq_length, NoDup_submseteq.
    - apply NoDup_fmap_2; [by intros ?? [=]|]. apply NoDup_seq.
    - intros name (i & -> & Hi)%list_elem_of_fmap. apply elem_of_seq in Hi.
      destruct (H i) as [v Hv]; [lia|]. by eapply read_part_elem_of. }
  by rewrite !length_fmap, length_seq in Hlen.
Qed.

(** ** Reintegration stops at the first slide that does not parse *)

Lemma elem_of_insert_by_name n m l :
  n ∈ insert_by_name m l ↔ n = m ∨ n ∈ l.
Proof.
  induction l as [|x l IH]; simpl.
  - rewrite elem_of_cons, elem_of_nil. tauto.
  - destruct (String.leb _ _); rewrite !elem_of_cons, ?IH; tauto.
Qed.

Lemma elem_of_sorted_slides (c : Container) n :
  SlideXml n ∈ c.*1 → n ∈ sorted_slides c.
Proof.
  unfold sorted_slides. induction c as [|[k v] c IH]; simpl.
  - by intros ?%elem_of_nil.
  - intros [Hk|Hin]%elem_of_cons.
    + simpl in Hk. subst k. simpl. apply elem_of_insert_by_name. by left.
    + destruct k; simpl; try (by apply IH).
      apply elem_of_insert_by_name. right. by apply IH.
Qed.

Lemma elem_of_sorted_slides_read (c : Container) n :
  n ∈ sorted_slides c → is_Some (read_part c (SlideXml n)).
Proof.
  unfold sorted_slides. induction c as [|[k v] c IH]; simpl.
  - by intros ?%elem_of_nil.
  - destruct k as [m| | |]; simpl.
    + intros [->|Hin]%elem_of_insert_by_name.
      * rewrite bool_decide_eq_true_2 by done. eauto.
      * case_bool_decide; [eauto|by apply IH].
    + apply IH.
    + apply IH.
    + apply IH.
Qed.

Lemma unparsable_with_lines_write tmp txt_dir n root root' m :
  read_part tmp (SlideXml n) = Some (Parsed root) →
  unparsable_with_lines (write_part tmp (SlideXml n) (Parsed root')) txt_dir m
  = unparsable_with_lines tmp txt_dir m.
Proof.
  intros Hroot. unfold unparsable_with_lines. rewrite read_write_part.
  destruct (decide (SlideXml n = SlideXml m)) as [[= ->]|Hne]; [|done].
  by rewrite Hroot.
Qed.

(** The slide loop raises at the first slide, in the order of the loop,
    that has lines to apply and does not parse. *)
Lemma reintegrate_slides_raises slides txt_dir tmp modified k :
  (∀ n, n ∈ slides → is_Some (read_part tmp (SlideXml n))) →
  List.find (unparsable_with_lines tmp txt_dir) slides = Some k →
  reintegrate_slides slides txt_dir tmp modified = Raise (ParseError k).
Proof.
  revert tmp modified. induction slides as [|n slides IH]; intros tmp modified Hin Hfind;
    [done|].
  simpl in *. unfold unparsable_with_lines at 1 in Hfind.
  destruct (_read_lines (txt_dir !! n)) as [|l ls].
  - rewrite (IH tmp modified); [done| |done]. intros m Hm. apply Hin. by right.
  - destruct (Hin n) as [part Hpart]; [by left|]. rewrite Hpart in *.
    destruct part as [raw|root]; [by injection Hfind as ->|].
    destruct (_patch_slide_hybrid root (l :: ls)) as [[root' log1] [[method n_runs] wrote]].
    rewrite (IH (write_part tmp (SlideXml n) (Parsed root'))); [done| |].
    + intros m Hm. rewrite read_write_part. case_decide; [eauto|].
      apply Hin. by right.
    + rewrite <- Hfind. clear - Hpart. induction slides as [|m slides IHs]; [done|].
      simpl. rewrite (unparsable_with_lines_write tmp txt_dir n root root') by done.
      by rewrite IHs.
Qed.

(** C3 (as amended).  A slide part that does not parse is not passed over.
    Extraction raises at the first such slide; the files of the slides
    before it are written, each with the lines of its slide, and no other
    file is touched.  Text reintegration raises at the first slide, in the
    order of its loop, that has lines to apply and does not parse: it
    returns no count and leaves every file as it was. *)
Theorem parse_failure_aborts
    (zf : Container) (n : nat) (raw : list N) (roots : nat → Element)
    (out_dir : gmap nat pystr)
    (fs : FS) (pptx_in pptx_out : string) (txt_dir : gmap nat pystr)
    (fault : option nat) (k : nat) :
  1 ≤ n →
  (∀ i, 1 ≤ i < n → read_part zf (SlideXml i) = Some (Parsed (roots i))) →
  read_part zf (SlideXml n) = Some (Unparsable raw) →
  fs !! pptx_in = Some zf →
  List.find (unparsable_with_lines zf txt_dir) (sorted_slides zf) = Some k →
  (extract_slide_text zf out_dir).2 = Raise (ParseError n)
  ∧ (∀ i, (extract_slide_text zf out_dir).1 !! i
          = if bool_decide (1 ≤ i < n)
            then Some (line_file (_iter_all_paragraphs_from_slide_xml (roots i)))
            else out_dir !! i)
  ∧ reintegrate_translated_slide_text fs pptx_in txt_dir pptx_out fault
    = (fs, Raise (ParseError k)).
Proof.
  intros Hn Hok Hbad Hfs Hfind.
  assert (n ≤ length zf) as Hfit.
  { apply slides_fit_in_container. intros i Hi.
    destruct (decide (i = n)) as [->|Hne]; [by rewrite Hbad|].
    rewrite (Hok i) by lia. eauto. }
  destruct (extract_loop_raises (S (length zf)) zf 1 n raw out_dir roots) as [H1 H2];
    [lia|lia|done|done|].
  split_and!; [done|done|].
  unfold reintegrate_translated_slide_text. rewrite Hfs.
  rewrite (reintegrate_slides_raises (sorted_slides zf) txt_dir zf 0 k); [done| |done].
  apply elem_of_sorted_slides_read.
Qed.

(** ** Rewrites of the container *)

Lemma span_until_app f l :
  (span_until f l).1 ++ (span_until f l).2 = l
  ∧ Forall (fun a => f a = false) (span_until f l).1.
Proof.
  induction l as [|a l [IH1 IH2]]; simpl; [by split|].
  destruct (f a) eqn:Hf; [by split|].
  destruct (span_until f l) as [pre post]. simpl in *. split; [by f_equal|].
  by constructor.
Qed.

Lemma string_of_list_inj l1 l2 :
  string_of_list_ascii l1 = string_of_list_ascii l2 → l1 = l2.
Proof.
  intros H. by rewrite <- (list_ascii_of_string_of_list_ascii l1), H,
    list_ascii_of_string_of_list_ascii.
Qed.

(** The temporary archive is never the archive itself. *)
Lemma with_suffix_tmp_ne p : with_suffix p ".tmp.pptx" ≠ p.
Proof.
  unfold with_suffix. intros Heq.
  pose proof (span_until_app (is_char "/") (rev (list_ascii_of_string p))) as [Hsplit _].
  destruct (span_until (is_char "/") (rev (list_ascii_of_string p)))
    as [rev_name rev_dir]. simpl in Hsplit.
  pose proof (span_until_app (is_char ".") rev_name) as [Hext Hnodot].
  destruct (span_until (is_char ".") rev_name) as [rev_ext rev_rest].
  simpl in Hext, Hnodot.
  apply (f_equal list_ascii_of_string) in Heq.
  rewrite list_ascii_of_string_of_list_ascii in Heq.
  apply (f_equal (@rev ascii)) in Heq. rewrite rev_involutive, <- Hsplit in Heq.
  rewrite app_assoc in Heq. apply app_inv_tail in Heq.
  set (tmp := rev (list_ascii_of_string ".tmp.pptx")) in *.
  assert (∀ stem, tmp ++ stem = rev_name → rev_name ≠ stem) as Hlen.
  { intros stem Hs ->. apply (f_equal (@length ascii)) in Hs.
    rewrite length_app in Hs. vm_compute (length tmp) in Hs. lia. }
  destruct rev_ext as [|a rev_ext]; [by eapply Hlen|].
  destruct rev_rest as [|dot [|b stem]]; [by eapply Hlen | by eapply Hlen |].
  rewrite <- Hext in Heq.
  replace ((a :: rev_ext) ++ dot :: b :: stem)
    with (((a :: rev_ext) ++ [dot]) ++ b :: stem) in Heq
    by (by rewrite <- app_assoc).
  change (tmp ++ (b :: stem) ++ rev_dir) with (tmp ++ (b :: stem) ++ rev_dir) in Heq.
  apply app_inv_tail in Heq.
  assert (Forall (fun c => is_char "." c = false) (removelast tmp)) as Hbad.
  { rewrite Heq, removelast_last. done. }
  vm_compute in Hbad. repeat (apply Forall_cons in Hbad as [? Hbad]). done.
Qed.

Lemma zip_write_other fs path members fault other :
  other ≠ path → (zip_write fs path members fault).1 !! other = fs !! other.
Proof.
  intros Hne. unfold zip_write.
  destruct fault as [k|]; [case_bool_decide|]; simpl; by rewrite lookup_insert_ne.
Qed.

(** The audio rewrite is all or nothing: when the repackaging raises, the
    container holds what it held before; when it succeeds, the container
    is the complete new archive. *)
Lemma audio_rewrite_all_or_nothing fs pptx_path tts_dir fault :
  match reintegrate_audio_to_pptx fs pptx_path tts_dir fault with
  | (fs', Raise _) => fs' !! pptx_path = fs !! pptx_path
  | (fs', Ok _) =>
      ∃ zin, fs !! pptx_path = Some zin
             ∧ fs' !! pptx_path
               = Some (replace_audio tts_dir (ensure_m4a_declared zin).1 0).1.1
  end.
Proof.
  unfold reintegrate_audio_to_pptx.
  destruct (fs !! pptx_path) as [zin|] eqn:Hzin; [|done].
  destruct (ensure_m4a_declared zin) as [tmp1 log1] eqn:He1.
  destruct (replace_audio tts_dir tmp1 0) as [[tmp2 log2] replaced] eqn:He2. simpl.
  pose proof (with_suffix_tmp_ne pptx_path) as Hne.
  pose proof (zip_write_other fs (with_suffix pptx_path ".tmp.pptx") tmp2 fault
                pptx_path) as Hother.
  unfold zip_write in *.
  destruct fault as [k|]; [case_bool_decide|]; simpl in *.
  - rewrite Hother by done. done.
  - exists zin. split; [done|]. unfold move. rewrite He1. simpl. rewrite He2.
    rewrite lookup_insert_eq. by rewrite lookup_insert_eq.
  - exists zin. split; [done|]. unfold move. rewrite He1. simpl. rewrite He2.
    rewrite lookup_insert_eq. by rewrite lookup_insert_eq.
Qed.

(** The text rewrite leaves its input alone when it writes elsewhere. *)
Lemma text_rewrite_keeps_input fs pptx_in txt_dir pptx_out fault :
  pptx_in ≠ pptx_out →
  (reintegrate_translated_slide_text fs pptx_in txt_dir pptx_out fault).1 !! pptx_in
  = fs !! pptx_in.
Proof.
  intros Hne. unfold reintegrate_translated_slide_text.
  destruct (fs !! pptx_in) as [zin|] eqn:Hzin; [|done].
  destruct (reintegrate_slides _ _ _ _) as [[[tmp log] modified]|e]; [|done].
  pose proof (zip_write_other fs pptx_out tmp fault pptx_in Hne) as Hother.
  destruct (zip_write fs pptx_out tmp fault) as [fs' [[]|e]]; simpl in *; congruence.
Qed.

(* ================================================================== *)
(** * The method chooser *)
(* ================================================================== *)

Section BinaryFloat.
Local Open Scope Z_scope.

(** ** Mantissas and their number of bits *)

Lemma digits2_pos_size p : digits2_pos p = Pos.size p.
Proof. induction p; simpl; by rewrite ?IHp. Qed.

Lemma digits2_pos_bounds p :
  2 ^ (Zpos (digits2_pos p) - 1) <= Zpos p < 2 ^ Zpos (digits2_pos p).
Proof.
  rewrite digits2_pos_size.
  pose proof (Pos.size_gt p) as Hgt. pose proof (Pos.size_le p) as Hle.
  apply Pos2Z.pos_lt_pos in Hgt. apply Pos2Z.pos_le_pos in Hle.
  rewrite Pos2Z.inj_pow in Hgt, Hle.
  assert (2 ^ Zpos (Pos.size p) = 2 * 2 ^ (Zpos (Pos.size p) - 1)) as Hpow.
  { rewrite <- Z.pow_succ_r by lia. f_equal. lia. }
  lia.
Qed.

Lemma digits2_pos_unique p d :
  2 ^ (d - 1) <= Zpos p < 2 ^ d → Zpos (digits2_pos p) = d.
Proof.
  intros [Hlo Hhi]. pose proof (digits2_pos_bounds p) as [Hlo' Hhi'].
  assert (0 < d).
  { destruct (Z.lt_trichotomy d 0) as [?|[->|?]]; [|simpl in *; lia|done].
    rewrite Z.pow_neg_r in Hhi by done. lia. }
  destruct (Z.lt_trichotomy (Zpos (digits2_pos p)) d) as [Hlt|[Heq|Hgt]]; [|done|].
  - assert (2 ^ Zpos (digits2_pos p) <= 2 ^ (d - 1)) by (apply Z.pow_le_mono_r; lia).
    lia.
  - assert (2 ^ d <= 2 ^ (Zpos (digits2_pos p) - 1)) by (apply Z.pow_le_mono_r; lia).
    lia.
Qed.

Ltac pow2 :=
  change (2 ^ 52) with 4503599627370496 in *;
  change (2 ^ 53) with 9007199254740992 in *;
  change (2 ^ 54) with 18014398509481984 in *.

Lemma Zdigits2_unique m d : 2 ^ (d - 1) <= m < 2 ^ d → 0 < m → Zdigits2 m = d.
Proof.
  intros Hm Hpos. destruct m as [|p|p]; [lia| |lia]. simpl.
  by apply digits2_pos_unique.
Qed.

Lemma shr_m_of_loc m l : shr_m (shr_record_of_loc m l) = m.
Proof. by destruct l as [|[]]. Qed.

Lemma loc_of_shr_record_of_loc m l : loc_of_shr_record (shr_record_of_loc m l) = l.
Proof. by destruct l as [|[]]. Qed.

Lemma round_nearest_even_bounds m l :
  m <= round_nearest_even m l <= m + 1.
Proof. destruct l as [|[]]; simpl; try destruct (Z.even m); lia. Qed.

Lemma shr_1_half mrs :
  0 < shr_m mrs → 2 * shr_m (shr_1 mrs) <= shr_m mrs <= 2 * shr_m (shr_1 mrs) + 1.
Proof. destruct mrs as [[|[p|p|]|p] r s]; simpl; lia. Qed.

Lemma shr_fexp_53 m e l :
  2 ^ 52 <= m < 2 ^ 53 → -1074 <= e →
  shr_fexp prec emax m e l = (shr_record_of_loc m l, e).
Proof.
  intros Hm He. unfold shr_fexp.
  rewrite (Zdigits2_unique m 53) by (pow2; simpl; lia).
  unfold fexp, emin, prec, emax.
  replace (Z.max (53 + e - 53) (3 - 1024 - 53) - e) with 0 by lia. done.
Qed.

Lemma shr_fexp_54 m e l :
  2 ^ 53 <= m < 2 ^ 54 → -1075 <= e →
  shr_fexp prec emax m e l = (shr_1 (shr_record_of_loc m l), e + 1).
Proof.
  intros Hm He. unfold shr_fexp.
  rewrite (Zdigits2_unique m 54) by (pow2; simpl; lia).
  unfold fexp, emin, prec, emax.
  replace (Z.max (54 + e - 53) (3 - 1024 - 53) - e) with 1 by lia. done.
Qed.

(** The last two steps of [binary_round_aux] on a mantissa of 53 bits, or
    on [2^53]. *)
Lemma round_finish q e :
  2 ^ 52 <= q <= 2 ^ 53 → -1074 <= e <= 900 →
  ∃ m e',
    (let '(mrs, e'') := shr_fexp prec emax q e loc_Exact in
     match shr_m mrs with
     | Z0 => S754_zero false
     | Zpos m => if e'' <=? emax - prec then S754_finite false m e''
                 else S754_infinity false
     | Zneg _ => S754_nan
     end) = S754_finite false m e'
    ∧ (q < 2 ^ 53 ∧ Zpos m = q ∧ e' = e
       ∨ q = 2 ^ 53 ∧ Zpos m = 2 ^ 52 ∧ e' = e + 1).
Proof.
  intros Hq He. destruct (decide (q = 2 ^ 53)) as [->|Hne].
  - rewrite shr_fexp_54 by (pow2; lia). simpl.
    exists 4503599627370496%positive, (e + 1). split; [|right; done].
    unfold emax, prec. destruct (Z.leb_spec (e + 1) (1024 - 53)); [done|lia].
  - rewrite shr_fexp_53 by (pow2; lia). simpl.
    destruct q as [|m|m]; [pow2; lia| |pow2; lia].
    exists m, e. split; [|left; pow2; lia].
    unfold emax, prec. destruct (Z.leb_spec e (1024 - 53)); [done|lia].
Qed.

Lemma round_nearest_even_exact m : round_nearest_even m loc_Exact = m.
Proof. done. Qed.

(** [binary_round_aux] on a positive mantissa of 53 or 54 bits. *)
Lemma binary_round_aux_cases q e l :
  2 ^ 52 <= q < 2 ^ 54 → -1074 <= e <= 800 →
  ∃ m e',
    binary_round_aux prec emax false q e l = S754_finite false m e'
    ∧ 2 ^ 52 <= Zpos m < 2 ^ 53
    ∧ (q < 2 ^ 53
       ∧ (e' = e ∧ q <= Zpos m <= q + 1 ∧ (l = loc_Exact → Zpos m = q)
          ∨ e' = e + 1 ∧ Zpos m = 2 ^ 52 ∧ q = 2 ^ 53 - 1 ∧ l ≠ loc_Exact)
       ∨ 2 ^ 53 <= q
         ∧ (e' = e + 1 ∧ q <= 2 * Zpos m + 1 ∧ 2 * Zpos m <= q + 2
            ∨ e' = e + 2 ∧ Zpos m = 2 ^ 52 ∧ 2 ^ 54 - 2 <= q)).
Proof.
  intros Hq He. unfold binary_round_aux.
  destruct (Z.lt_ge_cases q (2 ^ 53)) as [Hlt|Hge].
  - rewrite shr_fexp_53 by lia.
    rewrite shr_m_of_loc, loc_of_shr_record_of_loc.
    pose proof (round_nearest_even_bounds q l) as Hr.
    destruct (round_finish (round_nearest_even q l) e) as (m & e' & -> & Hm);
      [pow2; lia | lia |].
    exists m, e'. split; [done|]. pow2.
    destruct Hm as [(? & ? & ?)|(Hq' & ? & ?)].
    + split; [lia|]. left. split; [done|]. left. split_and!; [lia..|].
      intros ->. by rewrite round_nearest_even_exact in *.
    + split; [lia|]. left. split; [done|]. right. split_and!; [lia..|].
      intros ->. rewrite round_nearest_even_exact in Hq'. lia.
  - rewrite shr_fexp_54 by lia.
    pose proof (shr_1_half (shr_record_of_loc q l)) as Hh.
    rewrite shr_m_of_loc in Hh.
    set (mrs := shr_1 (shr_record_of_loc q l)) in *.
    pose proof (round_nearest_even_bounds (shr_m mrs) (loc_of_shr_record mrs)) as Hr.
    destruct (round_finish (round_nearest_even (shr_m mrs) (loc_of_shr_record mrs))
                (e + 1)) as (m & e' & -> & Hm); [pow2; lia | lia |].
    exists m, e'. split; [done|]. pow2.
    destruct Hm as [(? & ? & ?)|(? & ? & ?)].
    + split; [lia|]. right. split; [done|]. left. lia.
    + split; [lia|]. right. split; [done|]. right. lia.
Qed.

(** ** Conversion of a count *)

Lemma pow2_split a b : 0 <= a → 0 <= b → 2 ^ (a + b) = 2 ^ a * 2 ^ b.
Proof. intros. by apply Z.pow_add_r. Qed.

(** A count below [2^53] converts exactly, to a mantissa of 53 bits. *)
Lemma float_of_nat_normal (n : nat) :
  0 < Z.of_nat n < 2 ^ 53 →
  ∃ m k,
    float_of_nat n = S754_finite false m (- k)
    ∧ 0 <= k <= 52
    ∧ Zpos m = Z.of_nat n * 2 ^ k
    ∧ 2 ^ 52 <= Zpos m < 2 ^ 53.
Proof.
  intros Hn. unfold float_of_nat, binary_normalize.
  destruct (Z.of_nat n) as [|p|p] eqn:Hp; [lia| |lia].
  unfold binary_round, shl_align.
  pose proof (digits2_pos_bounds p) as Hd.
  set (d := Zpos (digits2_pos p)) in *.
  assert (1 <= d <= 53) as Hd53.
  { split; [unfold d; lia|].
    destruct (Z.le_gt_cases d 53) as [?|Hgt]; [done|].
    assert (2 ^ 53 <= 2 ^ (d - 1)) by (apply Z.pow_le_mono_r; lia). lia. }
  unfold fexp, emin, prec, emax.
  replace (Z.max (d + 0 - 53) (3 - 1024 - 53) - 0) with (d - 53) by lia.
  replace (Z.max (d + 0 - 53) (3 - 1024 - 53)) with (d - 53) by lia.
  assert (2 ^ 52 = 2 ^ (d - 1) * 2 ^ (53 - d)) as H52.
  { rewrite <- pow2_split by lia. f_equal. lia. }
  assert (2 ^ 53 = 2 ^ d * 2 ^ (53 - d)) as H53.
  { rewrite <- pow2_split by lia. f_equal. lia. }
  assert (0 < 2 ^ (53 - d)) as Hpos by (apply Z.pow_pos_nonneg; lia).
  destruct (d - 53) as [|k|k] eqn:Hk; [|lia|].
  - assert (d = 53) as Hd' by lia. rewrite Hd' in *.
    destruct (binary_round_aux_cases (Zpos p) 0 loc_Exact) as (m & e' & Hr & Hm & Hc);
      [simpl in Hd; pow2; lia | lia |].
    unfold prec, emax in Hr. rewrite Hr. exists m, 0.
    destruct Hc as [(_ & [(-> & _ & Hex)|(_ & _ & _ & ?)])|(? & _)]; [|done|pow2; lia].
    rewrite Hex by done. simpl in Hd. repeat split; try done; lia.
  - fold (shift_pos k p). pose proof (shift_pos_correct k p) as Hs.
    change (Z.pow_pos 2 k) with (2 ^ Zpos k) in Hs.
    replace (Zpos k) with (53 - d) in Hs by lia.
    destruct (binary_round_aux_cases (Zpos (shift_pos k p)) (Zneg k) loc_Exact)
      as (m & e' & Hr & Hm & Hc); [rewrite Hs; pow2; nia | lia |].
    unfold prec, emax in Hr. rewrite Hr. exists m, (53 - d).
    destruct Hc as [(_ & [(-> & _ & Hex)|(_ & _ & _ & ?)])|(? & _)];
      [|done|rewrite Hs in *; pow2; nia].
    rewrite Hex by done. rewrite Hs in *.
    repeat split; try lia; [f_equal; lia | pow2; nia | pow2; nia].
Qed.

(** ** Division of two counts *)

Lemma SFdiv_normal mx kx my ky :
  2 ^ 52 <= Zpos mx < 2 ^ 53 → 2 ^ 52 <= Zpos my < 2 ^ 53 →
  0 <= kx <= 52 → 0 <= ky <= 52 →
  ∃ l,
    SFdiv prec emax (S754_finite false mx (- kx)) (S754_finite false my (- ky))
    = binary_round_aux prec emax false (Zpos mx * 2 ^ 53 / Zpos my)
        (ky - kx - 53) l.
Proof.
  intros Hmx Hmy Hkx Hky. unfold SFdiv, SFdiv_core_binary.
  unfold Zdigits2.
  rewrite (digits2_pos_unique mx 53), (digits2_pos_unique my 53) by (simpl; pow2; lia).
  unfold fexp, emin, prec, emax.
  replace (Z.min (Z.max (53 + - kx - (53 + - ky) - 53) (3 - 1024 - 53)) (- kx - - ky))
    with (ky - kx - 53) by lia.
  replace (- kx - - ky - (ky - kx - 53)) with 53 by lia.
  rewrite Z.shiftl_mul_pow2 by lia.
  unfold Z.div. destruct (Z.div_eucl (Zpos mx * 2 ^ 53) (Zpos my)) as [q r].
  simpl. eauto.
Qed.

Lemma quotient_bounds a b lo hi :
  0 < b → lo * b <= a → a < hi * b → lo <= a / b < hi.
Proof.
  intros Hb Hlo Hhi. split.
  - by apply Z.div_le_lower_bound; [|lia].
  - apply Z.div_lt_upper_bound; [done|lia].
Qed.

(** For two counts within two of each other, the second at least 64, the
    quotient is a double between the doubles of 0.90 and 1.15. *)
Lemma SFleb_same_exponent (a b : positive) (e : Z) :
  Zpos a <= Zpos b →
  SFleb (S754_finite false a e) (S754_finite false b e) = true.
Proof.
  intros Hab. unfold SFleb, SFcompare. rewrite Z.compare_refl.
  fold (Pos.compare a b).
  destruct (Pos.compare_spec a b) as [?|?|?]; [done|done|lia].
Qed.

Lemma ratio_near_one (x y : nat) :
  64 <= Z.of_nat y < 2 ^ 53 → Z.of_nat x < 2 ^ 53 →
  Z.abs (Z.of_nat x - Z.of_nat y) <= 2 →
  SFleb F0_90 (SFdiv prec emax (float_of_nat x) (float_of_nat y)) = true
  ∧ SFleb (SFdiv prec emax (float_of_nat x) (float_of_nat y)) F1_15 = true.
Proof.
  intros Hy Hx Hdiff.
  destruct (float_of_nat_normal x) as (mx & kx & -> & Hkx & Hmx & Hnx); [lia|].
  destruct (float_of_nat_normal y) as (my & ky & -> & Hky & Hmy & Hny); [lia|].
  destruct (SFdiv_normal mx kx my ky) as [l ->]; [done..|].
  set (X := Z.of_nat x) in *. set (Y := Z.of_nat y) in *.
  assert (0 < 2 ^ kx) as Hpx by (apply Z.pow_pos_nonneg; lia).
  assert (0 < 2 ^ ky) as Hpy by (apply Z.pow_pos_nonneg; lia).
  (* the exponents differ by at most one *)
  assert (ky - 1 <= kx <= ky + 1) as Hk.
  { split.
    - destruct (Z.le_gt_cases (ky - 1) kx) as [?|Hlt]; [done|].
      assert (2 ^ ky = 2 ^ (ky - kx - 2) * 4 * 2 ^ kx) as Hsplit.
      { change 4 with (2 ^ 2). rewrite <- !pow2_split by lia. f_equal. lia. }
      assert (0 < 2 ^ (ky - kx - 2)) by (apply Z.pow_pos_nonneg; lia).
      pow2. nia.
    - destruct (Z.le_gt_cases kx (ky + 1)) as [?|Hlt]; [done|].
      assert (2 ^ kx = 2 ^ (kx - ky - 2) * 4 * 2 ^ ky) as Hsplit.
      { change 4 with (2 ^ 2). rewrite <- !pow2_split by lia. f_equal. lia. }
      assert (0 < 2 ^ (kx - ky - 2)) by (apply Z.pow_pos_nonneg; lia).
      pow2. nia. }
  set (K := 2 ^ ky) in *. set (q := Zpos mx * 2 ^ 53 / Zpos my).
  assert (kx = ky - 1 ∧ 2 * 2 ^ kx = K ∨ kx = ky ∧ 2 ^ kx = K
          ∨ kx = ky + 1 ∧ 2 ^ kx = 2 * K) as Hcase.
  { destruct (decide (kx = ky - 1)) as [->|?]; [left; split; [done|]|].
    { unfold K. rewrite <- Z.pow_succ_r by lia. f_equal. lia. }
    destruct (decide (kx = ky)) as [->|?]; [right; left; done|].
    right. right. split; [lia|]. replace kx with (Z.succ ky) by lia.
    unfold K. by rewrite Z.pow_succ_r by lia. }
  assert (2 ^ 52 <= q < 2 ^ 54) as Hq.
  { apply quotient_bounds; pow2; lia. }
  destruct (binary_round_aux_cases q (ky - kx - 53) l) as (m & e & -> & Hm & Hc);
    [done | lia |].
  assert (
    e = -53 ∧ 8106479329266893 <= Zpos m
    ∨ e = -52 ∧ Zpos m <= 5179139571476070) as Hres.
  { pow2. destruct Hcase as [[-> HK]|[[-> HK]|[-> HK]]].
    - (* x has one digit more *)
      assert (0 <= q < 5179139571476070) as Hq'.
      { apply quotient_bounds; nia. }
      destruct Hc as [(_ & [(-> & ? & _)|(_ & _ & ? & _)])|(? & _)]; [|lia|lia].
      right. lia.
    - (* as many digits *)
      assert (8106479329266893 <= q < 10358279142952139) as Hq'.
      { apply quotient_bounds; nia. }
      destruct Hc as [(? & [(-> & ? & _)|(-> & -> & _)])
                     |(? & [(-> & ? & ?)|(_ & _ & ?)])]; [| | |lia].
      + left. lia.
      + right. lia.
      + right. lia.
    - (* y has one digit more *)
      assert (16212958658533786 <= q < 18014398509481984) as Hq'.
      { apply quotient_bounds; nia. }
      destruct Hc as [(? & _)|(_ & [(-> & ? & ?)|(-> & -> & _)])]; [lia| |].
      + left. lia.
      + right. lia. }
  unfold F0_90, F1_15.
  destruct Hres as [[-> Hm09]|[-> Hm115]].
  - split; [by apply SFleb_same_exponent|done].
  - split; [done|by apply SFleb_same_exponent].
Qed.

Lemma agrees_below_64_holds : agrees_below_64 = true.
Proof. by vm_compute. Qed.

Lemma Zpos_of_nat n : n ≠ 0%nat → Zpos (Pos.of_nat n) = Z.of_nat n.
Proof. intros Hn. by rewrite <- positive_nat_Z, Nat2Pos.id. Qed.

(** C4.  The method is decided by the two counts alone: paragraph-level
    when there is no line, run-level exactly when the quotient of the
    counts lies between 0.90 and 1.15 and the counts differ by at most 2,
    paragraph-level otherwise.  The quotient and the two thresholds are
    binary64 numbers in the code and exact fractions in the rule; the two
    readings agree for all counts below [2^53], which [float] converts
    exactly. *)
Theorem choose_method_by_thresholds (n_runs n_lines : nat) :
  Z.of_nat n_runs < 2 ^ 53 → Z.of_nat n_lines < 2 ^ 53 →
  _choose_method n_runs n_lines = method_by_thresholds n_runs n_lines.
Proof.
  intros Hruns Hlines. unfold _choose_method, method_by_thresholds.
  case_bool_decide as Hzero; [done|].
  destruct (Z.leb_spec (Z.abs (Z.of_nat n_runs - Z.of_nat n_lines)) 2) as [Hdiff|Hdiff];
    [|by rewrite !andb_false_r].
  rewrite !andb_true_r.
  destruct (Z.lt_ge_cases (Z.of_nat n_lines) 64) as [Hsmall|Hbig].
  - pose proof agrees_below_64_holds as Hfin. unfold agrees_below_64 in Hfin.
    rewrite forallb_forall in Hfin. specialize (Hfin n_lines).
    rewrite forallb_forall in Hfin.
    assert (bool_decide (_choose_method n_runs n_lines
                         = method_by_thresholds n_runs n_lines) = true) as Hag.
    { apply Hfin; apply in_seq; lia. }
    apply bool_decide_eq_true in Hag.
    unfold _choose_method, method_by_thresholds in Hag.
    rewrite !bool_decide_eq_false_2 in Hag by done.
    destruct (Z.leb_spec (Z.abs (Z.of_nat n_runs - Z.of_nat n_lines)) 2); [|lia].
    by rewrite !andb_true_r in Hag.
  - destruct (ratio_near_one n_runs n_lines) as [-> ->]; [lia..|]. simpl.
    unfold exact_ratio, Qle_bool. simpl. rewrite Zpos_of_nat by done.
    destruct (Z.leb_spec (90 * Z.of_nat n_lines) (Z.of_nat n_runs * 100)); [|lia].
    destruct (Z.leb_spec (Z.of_nat n_runs * 100) (115 * Z.of_nat n_lines)); [|lia].
    done.
Qed.

(** The examples of the specification. *)
Lemma choose_method_examples :
  _choose_method 10 11 = "runs" ∧ _choose_method 10 3 = "paragraphs"
  ∧ _choose_method 0 0 = "paragraphs" ∧ _choose_method 7 0 = "paragraphs".
Proof. by vm_compute. Qed.

Lemma choose_method_by_thresholds_witness :
  Z.of_nat 10 < 2 ^ 53 ∧ Z.of_nat 11 < 2 ^ 53
  ∧ _choose_method 10 11 = method_by_thresholds 10 11.
Proof.
  split; [vm_compute; reflexivity|]. split; [vm_compute; reflexivity|].
  apply (choose_method_by_thresholds 10 11); vm_compute; reflexivity.
Defined.

End BinaryFloat.

(* ================================================================== *)
(** * Further properties: separators and line files *)
(* ================================================================== *)

(** The pairs of [_split_keep_seps], each segment followed by its
    separator. *)
Lemma split_keep_seps_go_concat s buf :
  concat (map (fun '(seg, sep) => seg ++ sep) (split_keep_seps_go s buf))
  = rev buf ++ escape_controls s.
Proof.
  revert buf. induction s as [s IH] using (induction_ltof1 _ (@length N)).
  unfold ltof in IH. intros buf. destruct s as [|ch rest].
  - simpl. by rewrite !app_nil_r.
  - assert (concat (map (fun '(seg, sep) => seg ++ sep)
              (if ((ch =? LF) || (ch =? TAB))%N
               then (rev buf, if (ch =? LF)%N then LIT_N else LIT_T)
                      :: split_keep_seps_go rest []
               else split_keep_seps_go rest (ch :: buf)))
            = rev buf ++ escape_controls (ch :: rest)) as Hreal.
    { simpl escape_controls.
      destruct (ch =? LF)%N eqn:Hlf; simpl.
      - rewrite IH by (simpl; lia). simpl. by rewrite <- app_assoc.
      - destruct (ch =? TAB)%N eqn:Htab; simpl.
        + rewrite IH by (simpl; lia). simpl. by rewrite <- app_assoc.
        + rewrite IH by (simpl; lia). simpl. by rewrite <- app_assoc. }
    cbn [split_keep_seps_go].
    destruct (ch =? BACKSLASH)%N eqn:Hbs; [|exact Hreal].
    destruct rest as [|d rest']; [exact Hreal|].
    destruct ((d =? LOWER_N) || (d =? LOWER_T))%N eqn:Hd; [|exact Hreal].
    apply N.eqb_eq in Hbs. subst ch.
    cbn [map concat]. rewrite IH by (simpl; lia).
    apply orb_true_iff in Hd. destruct Hd as [Hd|Hd]; apply N.eqb_eq in Hd; subst d.
    + simpl. by rewrite <- app_assoc.
    + simpl. by rewrite <- app_assoc.
Qed.

(** X1.  [_split_keep_seps] loses nothing: its segments, each followed by
    its separator, spell the text again, with every real line feed and tab
    written as the two-character literal. *)
Theorem split_keep_seps_rejoin (s : pystr) :
  concat (map (fun '(seg, sep) => seg ++ sep) (_split_keep_seps s))
  = escape_controls s.
Proof. unfold _split_keep_seps. by rewrite split_keep_seps_go_concat. Qed.

Lemma has_literal_snoc l c :
  has_literal (l ++ [c])
  = has_literal l
    || match last l with
       | Some b => ((b =? BACKSLASH) && ((c =? LOWER_N) || (c =? LOWER_T)))%N
       | None => false
       end.
Proof.
  induction l as [|a l IH]; [done|].
  destruct l as [|b l].
  - simpl. by rewrite orb_false_r.
  - change (has_literal ((a :: b :: l) ++ [c]))
      with (((a =? BACKSLASH) && ((b =? LOWER_N) || (b =? LOWER_T)))%N
            || has_literal ((b :: l) ++ [c])).
    rewrite IH.
    change (has_literal (a :: b :: l))
      with (((a =? BACKSLASH) && ((b =? LOWER_N) || (b =? LOWER_T)))%N
            || has_literal (b :: l)).
    change (last (a :: b :: l)) with (last (b :: l)).
    by rewrite orb_assoc.
Qed.

Lemma not_elem_of_snoc (c x : N) l : c ∉ l → c ≠ x → c ∉ l ++ [x].
Proof.
  intros Hl Hx. rewrite elem_of_app, elem_of_cons, elem_of_nil.
  intros [?|[?|[]]]; done.
Qed.

Lemma last_rev {A} (l : list A) : last (rev l) = head l.
Proof. destruct l as [|a l]; [done|]. simpl. by rewrite last_snoc. Qed.

Lemma split_keep_seps_go_plain s buf :
  plain_segment (rev buf) →
  (head buf = Some BACKSLASH →
   match s with d :: _ => d ≠ LOWER_N ∧ d ≠ LOWER_T | [] => True end) →
  Forall (fun '(seg, _) => plain_segment seg) (split_keep_seps_go s buf).
Proof.
  revert buf. induction s as [s IH] using (induction_ltof1 _ (@length N)).
  unfold ltof in IH. intros buf Hbuf Hhead. destruct s as [|ch rest].
  - simpl. constructor; [done|constructor].
  - assert (plain_segment (rev [])) as Hnil.
    { split; [|split]; [by intros ?%elem_of_nil..|done]. }
    assert ((ch =? BACKSLASH)%N = true →
            match rest with d :: _ => d ≠ LOWER_N ∧ d ≠ LOWER_T | [] => True end →
            Forall (fun '(seg, _) => plain_segment seg)
              (if ((ch =? LF) || (ch =? TAB))%N
               then (rev buf, if (ch =? LF)%N then LIT_N else LIT_T)
                      :: split_keep_seps_go rest []
               else split_keep_seps_go rest (ch :: buf))) as Hbs_case.
    { intros Hbs Hrest. apply N.eqb_eq in Hbs. subst ch. simpl.
      apply IH; [simpl; lia| |done].
      destruct Hbuf as (Hlf & Htab & Hlit). simpl. split; [|split].
      - by apply not_elem_of_snoc.
      - by apply not_elem_of_snoc.
      - rewrite has_literal_snoc, Hlit. cbn [orb]. destruct (last (rev buf)); [|done].
        change (BACKSLASH =? LOWER_N)%N with false.
        change (BACKSLASH =? LOWER_T)%N with false. by rewrite andb_false_r. }
    assert ((ch =? BACKSLASH)%N = false →
            Forall (fun '(seg, _) => plain_segment seg)
              (if ((ch =? LF) || (ch =? TAB))%N
               then (rev buf, if (ch =? LF)%N then LIT_N else LIT_T)
                      :: split_keep_seps_go rest []
               else split_keep_seps_go rest (ch :: buf))) as Hother.
    { intros Hbs.
      destruct (ch =? LF)%N eqn:Hlf; simpl.
      { constructor; [done|]. apply IH; [simpl; lia|done|done]. }
      destruct (ch =? TAB)%N eqn:Htab; simpl.
      { constructor; [done|]. apply IH; [simpl; lia|done|done]. }
      apply IH; [simpl; lia| |].
      - destruct Hbuf as (Hl & Ht & Hlit). simpl. split; [|split].
        + apply not_elem_of_snoc; [done|]. intros <-. by rewrite N.eqb_refl in Hlf.
        + apply not_elem_of_snoc; [done|]. intros <-. by rewrite N.eqb_refl in Htab.
        + rewrite has_literal_snoc, Hlit. simpl.
          destruct (last (rev buf)) as [b|] eqn:Hlast; [|done].
          destruct (b =? BACKSLASH)%N eqn:Hb; [|done]. simpl.
          apply N.eqb_eq in Hb. subst b.
          rewrite last_rev in Hlast.
          destruct (Hhead Hlast) as [Hn Ht'].
          apply N.eqb_neq in Hn, Ht'. by rewrite Hn, Ht'.
      - simpl. intros [= ->]. by rewrite N.eqb_refl in Hbs. }
    cbn [split_keep_seps_go].
    destruct (ch =? BACKSLASH)%N eqn:Hbs; [|by apply Hother].
    destruct rest as [|d rest']; [by apply Hbs_case|].
    destruct ((d =? LOWER_N) || (d =? LOWER_T))%N eqn:Hd.
    + constructor; [done|]. apply IH; [simpl; lia|done|done].
    + apply Hbs_case; [done|]. apply orb_false_iff in Hd.
      destruct Hd as [?%N.eqb_neq ?%N.eqb_neq]. done.
Qed.

Lemma split_keep_seps_go_last s buf :
  ∃ init seg, split_keep_seps_go s buf = init ++ [(seg, [])]
    ∧ Forall (fun '(_, sep) => sep = LIT_N ∨ sep = LIT_T) init.
Proof.
  revert buf. induction s as [s IH] using (induction_ltof1 _ (@length N)).
  unfold ltof in IH. intros buf. destruct s as [|ch rest].
  - exists [], (rev buf). by split.
  - assert (∃ init seg,
              (if ((ch =? LF) || (ch =? TAB))%N
               then (rev buf, if (ch =? LF)%N then LIT_N else LIT_T)
                      :: split_keep_seps_go rest []
               else split_keep_seps_go rest (ch :: buf)) = init ++ [(seg, [])]
              ∧ Forall (fun '(_, sep) => sep = LIT_N ∨ sep = LIT_T) init) as Hreal.
    { destruct ((ch =? LF) || (ch =? TAB))%N.
      - destruct (IH rest ltac:(simpl; lia) []) as (init & seg & -> & Hinit).
        eexists (_ :: init), seg. split; [done|].
        constructor; [|done]. destruct (ch =? LF)%N; auto.
      - apply IH. simpl. lia. }
    cbn [split_keep_seps_go].
    destruct (ch =? BACKSLASH)%N; [|exact Hreal].
    destruct rest as [|d rest']; [exact Hreal|].
    destruct ((d =? LOWER_N) || (d =? LOWER_T))%N; [|exact Hreal].
    destruct (IH rest' ltac:(simpl; lia) []) as (init & seg & -> & Hinit).
    eexists (_ :: init), seg. split; [done|].
    constructor; [|done]. destruct (d =? LOWER_N)%N; auto.
Qed.

(** X2.  The pairs of [_split_keep_seps]: every pair but the last carries
    a separator, the last carries none, and no segment holds a separator
    in either spelling (a real line feed or tab, or a backslash followed by
    [n] or [t]). *)
Theorem split_keep_seps_shape (s : pystr) :
  (∃ init seg, _split_keep_seps s = init ++ [(seg, [])]
     ∧ Forall (fun '(_, sep) => sep = LIT_N ∨ sep = LIT_T) init)
  ∧ Forall (fun '(seg, _) =>
              (LF ∉ seg) ∧ (TAB ∉ seg) ∧ has_literal seg = false)
           (_split_keep_seps s).
Proof.
  split; [apply split_keep_seps_go_last|].
  apply split_keep_seps_go_plain; [|done].
  split; [|split]; [by intros ?%elem_of_nil..|done].
Qed.

(** ** The run writer read back by the run reader *)

Lemma findall_desc_leaves t l ks :
  Forall (fun d => children d = [] ∧ etag d ≠ t) ks →
  findall_desc t (Elem l ks) = [].
Proof.
  unfold findall_desc. simpl. induction 1 as [|d ks [Hkids Htag] _ IH]; [done|].
  simpl. rewrite descendants_unfold, Hkids. simpl.
  unfold has_tag at 1. by rewrite bool_decide_eq_false_2.
Qed.

Lemma split_keep_seps_go_decode s buf :
  concat (map (fun '(seg, sep) =>
                 seg ++ (if bool_decide (sep = LIT_N) then [LF]
                         else if bool_decide (sep = LIT_T) then [TAB] else []))
              (split_keep_seps_go s buf))
  = rev buf ++ decode_literals s.
Proof.
  revert buf. induction s as [s IH] using (induction_ltof1 _ (@length N)).
  unfold ltof in IH. intros buf. destruct s as [|ch rest].
  - simpl. by rewrite !app_nil_r.
  - assert ((ch =? BACKSLASH)%N = false →
            concat (map (fun '(seg, sep) =>
                 seg ++ (if bool_decide (sep = LIT_N) then [LF]
                         else if bool_decide (sep = LIT_T) then [TAB] else []))
              (if ((ch =? LF) || (ch =? TAB))%N
               then (rev buf, if (ch =? LF)%N then LIT_N else LIT_T)
                      :: split_keep_seps_go rest []
               else split_keep_seps_go rest (ch :: buf)))
            = rev buf ++ ch :: decode_literals rest) as Hreal.
    { intros Hbs.
      destruct (ch =? LF)%N eqn:Hlf; simpl.
      { apply N.eqb_eq in Hlf. subst ch.
        rewrite IH by (simpl; lia). simpl. by rewrite <- app_assoc. }
      destruct (ch =? TAB)%N eqn:Htab; simpl.
      { apply N.eqb_eq in Htab. subst ch.
        rewrite IH by (simpl; lia). simpl. by rewrite <- app_assoc. }
      rewrite IH by (simpl; lia). simpl. by rewrite <- app_assoc. }
    assert (concat (map (fun '(seg, sep) =>
                 seg ++ (if bool_decide (sep = LIT_N) then [LF]
                         else if bool_decide (sep = LIT_T) then [TAB] else []))
              (split_keep_seps_go rest (BACKSLASH :: buf)))
            = rev buf ++ BACKSLASH :: decode_literals rest) as Hpush.
    { rewrite IH by (simpl; lia). simpl. by rewrite <- app_assoc. }
    cbn [split_keep_seps_go decode_literals].
    destruct (ch =? BACKSLASH)%N eqn:Hbs; [|by apply Hreal].
    apply N.eqb_eq in Hbs. subst ch.
    change ((BACKSLASH =? LF) || (BACKSLASH =? TAB))%N with false. cbn match.
    destruct rest as [|d rest']; [by rewrite Hpush|].
    destruct (d =? LOWER_N)%N eqn:Hn.
    { simpl. rewrite IH by (simpl; lia). simpl. by rewrite <- app_assoc. }
    destruct (d =? LOWER_T)%N eqn:Ht.
    { simpl. rewrite IH by (simpl; lia). simpl. by rewrite <- app_assoc. }
    simpl orb. cbn match. rewrite Hpush.
    cbn [decode_literals]. done.
Qed.

Lemma run_child_text_segments segs :
  concat (map run_child_text
            (flat_map (fun '(seg, sep) =>
               new_t seg ::
               (if bool_decide (sep = LIT_N) then [new_element a_br]
                else if bool_decide (sep = LIT_T) then [new_element a_tab]
                else [])) segs))
  = concat (map (fun '(seg, sep) =>
                   seg ++ (if bool_decide (sep = LIT_N) then [LF]
                           else if bool_decide (sep = LIT_T) then [TAB] else []))
                segs).
Proof.
  induction segs as [|[seg sep] segs IH]; [done|].
  cbn [flat_map map concat]. rewrite map_app, concat_app, IH.
  f_equal.
  destruct (bool_decide (sep = LIT_N)); [by vm_compute|].
  destruct (bool_decide (sep = LIT_T)); by vm_compute.
Qed.

Lemma segments_read_back l text :
  _text_from_run (Elem l (segment_elements text)) = decode_literals text.
Proof.
  unfold _text_from_run. rewrite findall_desc_leaves.
  - simpl. rewrite app_nil_r. unfold segment_elements, _split_keep_seps.
    rewrite run_child_text_segments. by rewrite split_keep_seps_go_decode.
  - eapply Forall_impl; [apply segment_elements_leaves|].
    intros d [Hkids Htag]. split; [done|].
    destruct Htag as [[-> _]|[-> | ->]]; by vm_compute.
Qed.

(** X3.  What [_replace_single_t_with_segments] appends to a run reads
    back, through [_text_from_run], as the written text with its
    two-character literals decoded: a line feed for each break element, a
    tab for each tab element. *)
Theorem written_segments_read_back (l : Label) (text : pystr) :
  _text_from_run (Elem l (segment_elements text)) = decode_literals text.
Proof. apply segments_read_back. Qed.

Lemma decode_escape_newlines body :
  has_literal body = false → decode_literals (escape_newlines body) = body.
Proof.
  induction body as [|c s IH]; [done|]. intros Hlit.
  assert (has_literal s = false) as Hs.
  { destruct s as [|d s]; [done|].
    change (has_literal (c :: d :: s))
      with (((c =? BACKSLASH) && ((d =? LOWER_N) || (d =? LOWER_T)))%N
            || has_literal (d :: s)) in Hlit.
    by apply orb_false_iff in Hlit as [_ ?]. }
  specialize (IH Hs). cbn [escape_newlines].
  destruct (c =? LF)%N eqn:Hlf.
  { apply N.eqb_eq in Hlf. subst c. simpl. by rewrite IH. }
  cbn [decode_literals].
  destruct (c =? BACKSLASH)%N eqn:Hbs; [|by rewrite IH].
  destruct s as [|d s]; [done|].
  change (has_literal (c :: d :: s))
    with (((c =? BACKSLASH) && ((d =? LOWER_N) || (d =? LOWER_T)))%N
          || has_literal (d :: s)) in Hlit.
  rewrite Hbs in Hlit. apply orb_false_iff in Hlit as [Hd _].
  simpl in Hd. apply orb_false_iff in Hd as [Hn Ht].
  cbn [escape_newlines] in *.
  destruct (d =? LF)%N eqn:Hdlf.
  - simpl. simpl in IH. by rewrite IH.
  - rewrite Hn, Ht. by rewrite IH.
Qed.

(** X4.  A run text that holds no backslash directly followed by [n] or
    [t] survives the round trip: escaped as [extract_slide_text] writes
    it, split and written as [_replace_single_t_with_segments] does, and
    read again by [_text_from_run], it is the same text. *)
Theorem run_text_roundtrip (l : Label) (body : pystr) :
  has_literal body = false →
  _text_from_run (Elem l (segment_elements (escape_newlines body))) = body.
Proof.
  intros Hlit. rewrite segments_read_back.
  by apply decode_escape_newlines.
Qed.

Lemma run_text_roundtrip_witness :
  has_literal [65; 10; 66; 9; 67]%N = false
  ∧ _text_from_run (Elem (mkLabel a_r [] None)
                      (segment_elements (escape_newlines [65; 10; 66; 9; 67]%N)))
    = [65; 10; 66; 9; 67]%N.
Proof.
  split; [reflexivity|].
  apply (run_text_roundtrip (mkLabel a_r [] None) [65; 10; 66; 9; 67]%N).
  reflexivity.
Defined.

(** ** The line file read back *)

Lemma splitlines_go_plain l rest cur :
  Forall (fun c => is_linebreak c = false) l →
  splitlines_go (l ++ rest) cur = splitlines_go rest (rev l ++ cur).
Proof.
  intros Hl. revert cur. induction Hl as [|c l Hc _ IH]; intros cur; [done|].
  simpl. rewrite Hc, IH. by rewrite <- app_assoc.
Qed.

Lemma splitlines_go_lf s cur :
  splitlines_go (LF :: s) cur = rev cur :: splitlines_go s [].
Proof. by destruct s. Qed.

Lemma splitlines_join ls :
  Forall (fun l => Forall (fun c => is_linebreak c = false) l) ls →
  splitlines (join [LF] ls) = drop_empty_last ls.
Proof.
  unfold splitlines. induction 1 as [|l ls Hl Hls IH]; [done|].
  destruct ls as [|l' ls].
  - simpl. rewrite <- (app_nil_r l) at 1.
    rewrite splitlines_go_plain, app_nil_r by done.
    destruct l as [|c l]; [done|].
    unfold drop_empty_last. simpl.
    destruct (rev l ++ [c]) eqn:Hrev; [by destruct (rev l)|].
    by rewrite <- Hrev, rev_unit, rev_involutive.
  - change (join [LF] (l :: l' :: ls)) with (l ++ LF :: join [LF] (l' :: ls)).
    rewrite splitlines_go_plain, splitlines_go_lf, app_nil_r, rev_involutive, IH
      by done.
    unfold drop_empty_last.
    change (last (l :: l' :: ls)) with (last (l' :: ls)).
    destruct (last (l' :: ls)) as [[|??]|]; done.
Qed.

Lemma escape_newlines_plain l :
  one_physical_line l = true →
  Forall (fun c => is_linebreak c = false) (escape_newlines l).
Proof.
  unfold one_physical_line. induction l as [|c l IH]; [constructor|].
  simpl. intros [Hc Hl]%andb_true_iff. specialize (IH Hl).
  destruct (c =? LF)%N eqn:Hlf.
  - simpl. by repeat constructor.
  - constructor; [|done]. rewrite orb_false_r in Hc. by apply negb_true_iff.
Qed.

Lemma escape_newlines_nil l : escape_newlines l = [] ↔ l = [].
Proof.
  split; [|by intros ->]. destruct l as [|c l]; [done|].
  simpl. by destruct (c =? LF)%N.
Qed.

Lemma drop_empty_last_escape lines :
  drop_empty_last (map escape_newlines lines)
  = map escape_newlines (drop_empty_last lines).
Proof.
  unfold drop_empty_last.
  change (map escape_newlines lines) with (escape_newlines <$> lines) at 1.
  rewrite fmap_last.
  destruct (last lines) as [l|] eqn:Hlast; [|done]. simpl.
  destruct (escape_newlines l) as [|c0 l0] eqn:He.
  - apply (proj1 (escape_newlines_nil l)) in He. subst l.
    clear Hlast. induction lines as [|a [|b lines] IH]; [done..|].
    change (removelast (a :: b :: lines)) with (a :: removelast (b :: lines)).
    change (map escape_newlines (a :: b :: lines))
      with (escape_newlines a :: map escape_newlines (b :: lines)).
    change (removelast (escape_newlines a :: map escape_newlines (b :: lines)))
      with (escape_newlines a :: removelast (map escape_newlines (b :: lines))).
    by rewrite IH.
  - destruct l as [|c1 l1]; [by simpl in He|done].
Qed.

(** X5.  The line file read back.  When no paragraph text holds a line
    boundary other than the line feed (which is escaped), [_read_lines]
    on the file that [extract_slide_text] wrote returns the escaped
    paragraph texts one by one, except that an empty last paragraph is
    lost: the file then ends at the separator before it. *)
Theorem line_file_read_back (lines : list pystr) :
  Forall (fun l => one_physical_line l = true) lines →
  _read_lines (Some (line_file lines))
  = map escape_newlines (drop_empty_last lines).
Proof.
  intros Hlines. unfold _read_lines, line_file.
  rewrite splitlines_join, drop_empty_last_escape; [done|].
  apply Forall_map. eapply Forall_impl; [exact Hlines|].
  intros l. apply escape_newlines_plain.
Qed.

Lemma line_file_read_back_witness :
  Forall (fun l => one_physical_line l = true) [[65; 10; 66]; []; [67]; []]%N
  ∧ _read_lines (Some (line_file [[65; 10; 66]; []; [67]; []]%N))
    = map escape_newlines (drop_empty_last [[65; 10; 66]; []; [67]; []]%N).
Proof.
  split; [repeat constructor|].
  apply (line_file_read_back [[65; 10; 66]; []; [67]; []]%N).
  repeat constructor.
Defined.

(* ================================================================== *)
(** * Further properties: the slides read and the paragraphs found *)
(* ================================================================== *)

Lemma extract_loop_ok probes zf idx n out_dir (roots : nat → Element) :
  idx ≤ S n → S n - idx < probes →
  (∀ i, idx ≤ i ≤ n → read_part zf (SlideXml i) = Some (Parsed (roots i))) →
  read_part zf (SlideXml (S n)) = None →
  (extract_loop probes zf idx out_dir).2 = Ok (seq idx (S n - idx))
  ∧ ∀ i, (extract_loop probes zf idx out_dir).1 !! i
         = if bool_decide (idx ≤ i ≤ n)
           then Some (line_file (_iter_all_paragraphs_from_slide_xml (roots i)))
           else out_dir !! i.
Proof.
  revert idx out_dir. induction probes as [|probes IH]; intros idx out_dir Hle Hfuel Hok Hgap;
    [lia|].
  simpl. destruct (decide (idx = S n)) as [->|Hne].
  - rewrite Hgap. simpl. rewrite Nat.sub_diag. split; [done|].
    intros i. rewrite bool_decide_eq_false_2 by lia. done.
  - rewrite (Hok idx) by lia.
    destruct (IH (S idx)
                (<[idx := line_file (_iter_all_paragraphs_from_slide_xml (roots idx))]> out_dir))
      as [Hres Hdir]; [lia|lia| |done|].
    { intros i Hi. apply Hok. lia. }
    destruct (extract_loop probes zf (S idx) _) as [d [saved|e]]; [|done].
    simpl in *. injection Hres as ->. split.
    + replace (S n - idx) with (S (S n - S idx)) by lia. done.
    + intros i. rewrite Hdir. destruct (decide (i = idx)) as [->|Hi].
      * rewrite bool_decide_eq_false_2 by lia.
        rewrite bool_decide_eq_true_2 by lia. by rewrite lookup_insert_eq.
      * rewrite lookup_insert_ne by done.
        destruct (decide (S idx ≤ i ≤ n)).
        -- by rewrite !bool_decide_eq_true_2 by lia.
        -- by rewrite !bool_decide_eq_false_2 by lia.
Qed.

(** X6.  [extract_slide_text] reads the slides numbered 1, 2, ... up to
    the first number the archive has no part for, and no slide beyond that
    gap: when slides 1 to [n] parse and slide [n+1] is missing, it returns
    the files of slides 1 to [n], each holding the lines of its slide, and
    leaves every other file of the output directory as it was. *)
Theorem extract_stops_at_first_gap
    (zf : Container) (n : nat) (roots : nat → Element) (out_dir : gmap nat pystr) :
  (∀ i, 1 ≤ i ≤ n → read_part zf (SlideXml i) = Some (Parsed (roots i))) →
  read_part zf (SlideXml (S n)) = None →
  (extract_slide_text zf out_dir).2 = Ok (seq 1 n)
  ∧ ∀ i, (extract_slide_text zf out_dir).1 !! i
         = if bool_decide (1 ≤ i ≤ n)
           then Some (line_file (_iter_all_paragraphs_from_slide_xml (roots i)))
           else out_dir !! i.
Proof.
  intros Hok Hgap. unfold extract_slide_text.
  assert (n ≤ length zf) as Hfit.
  { apply slides_fit_in_container. intros i Hi. rewrite Hok by done. eauto. }
  destruct (extract_loop_ok (S (length zf)) zf 1 n out_dir roots) as [Hres Hdir];
    [lia|lia|done|done|].
  split; [|done]. rewrite Hres. f_equal. f_equal. lia.
Qed.

Lemma extract_stops_at_first_gap_witness :
  (∀ i, 1 ≤ i ≤ 1 →
        read_part deck_small (SlideXml i) = Some (Parsed ((fun _ => slide_break) i)))
  ∧ read_part deck_small (SlideXml 2) = None
  ∧ (extract_slide_text deck_small ∅).2 = Ok (seq 1 1).
Proof.
  split; [|split].
  - intros i Hi. replace i with 1 by lia. reflexivity.
  - reflexivity.
  - apply (extract_stops_at_first_gap deck_small 1 (fun _ => slide_break) ∅).
    + intros i Hi. replace i with 1 by lia. reflexivity.
    + reflexivity.
Defined.

(** ** No paragraph is found twice *)

Lemma NoDup_flat_map {A B} (f : A → list B) (l : list A) :
  NoDup l → (∀ x, x ∈ l → NoDup (f x)) →
  (∀ x y z, x ∈ l → y ∈ l → z ∈ f x → z ∈ f y → x = y) →
  NoDup (flat_map f l).
Proof.
  induction 1 as [|x l Hx Hl IH]; intros Hf Hdisj; [constructor|].
  simpl. apply NoDup_app. split; [|split].
  - apply Hf. by left.
  - intros z Hz Hz'. apply list_elem_of_In, in_flat_map in Hz' as (y & Hy & Hzy).
    apply list_elem_of_In in Hy, Hzy.
    assert (x = y) as <-; [|done].
    apply (Hdisj x y z); [by left|by right|done|done].
  - apply IH.
    + intros y Hy. apply Hf. by right.
    + intros y y' z Hy Hy'. apply Hdisj; by right.
Qed.

Lemma NoDup_with_tag root t ps : NoDup ps → NoDup (with_tag root t ps).
Proof. intros Hps. by apply NoDup_ListNoDup, List.NoDup_filter, NoDup_ListNoDup. Qed.

Lemma elem_of_with_tag root t ps p :
  p ∈ with_tag root t ps ↔ p ∈ ps ∧ ∃ e, node root p = Some e ∧ etag e = t.
Proof.
  unfold with_tag. rewrite list_elem_of_In, filter_In, <- list_elem_of_In.
  split; intros [Hp Htag]; (split; [done|]).
  - destruct (node root p) as [e|]; [|done]. exists e. split; [done|].
    by apply bool_decide_eq_true in Htag.
  - destruct Htag as (e & -> & Ht). by apply bool_decide_eq_true.
Qed.

Lemma NoDup_step_desc_root root t : NoDup (step_desc root t [[]]).
Proof.
  rewrite step_desc_root.
  apply NoDup_ListNoDup, List.NoDup_filter, NoDup_ListNoDup, NoDup_desc_paths.
Qed.

Lemma elem_of_step_desc_root root t p :
  p ∈ step_desc root t [[]] → ∃ e, node root p = Some e ∧ etag e = t.
Proof.
  rewrite step_desc_root. intros Hp.
  apply (elem_of_with_tag root t (desc_paths root) p) in Hp. by destruct Hp.
Qed.

Lemma NoDup_step_child root t tb : NoDup (step_child root t [tb]).
Proof.
  unfold step_child. simpl. rewrite app_nil_r.
  destruct (node root tb) as [e|]; [|constructor].
  apply NoDup_with_tag, NoDup_fmap_2; [|apply NoDup_ListNoDup, seq_NoDup].
  intros i j Hij. by apply app_inj_tail in Hij as [_ ?].
Qed.

Lemma NoDup_tx_bodies root : NoDup (tx_bodies root).
Proof.
  unfold tx_bodies. apply NoDup_app. split; [|split].
  - apply NoDup_step_desc_root.
  - intros p (e & He & Ha)%elem_of_step_desc_root (e' & He' & Hp)%elem_of_step_desc_root.
    rewrite He in He'. injection He' as <-. rewrite Ha in Hp. by vm_compute in Hp.
  - apply NoDup_step_desc_root.
Qed.

(** X7.  The extractor writes no paragraph twice: the references of the
    paragraphs that contribute a line are pairwise distinct, and each of
    them denotes an [a:p] element of the slide. *)
Theorem retained_paragraphs_distinct (root : Element) :
  NoDup (retained_paragraphs root).*1
  ∧ Forall (fun p => ∃ e, node root p = Some e ∧ etag e = a_p)
           (retained_paragraphs root).*1.
Proof.
  assert (∀ tb p, p ∈ (if skip_this root tb then []
                       else map (fun p => (p, node root tb ≫= find_child a_lstStyle))
                                (step_child root a_p [tb])).*1 →
                  p ∈ step_child root a_p [tb]) as Hin.
  { intros tb p. destruct (skip_this root tb); [by intros ?%elem_of_nil|].
    rewrite <- list_fmap_compose. simpl.
    intros (q & -> & Hq)%list_elem_of_fmap. done. }
  unfold retained_paragraphs. split.
  - generalize (NoDup_tx_bodies root). generalize (tx_bodies root). intros tbs Htbs.
    replace ((flat_map _ tbs).*1)
      with (flat_map (fun tb => (if skip_this root tb then []
                       else map (fun p => (p, node root tb ≫= find_child a_lstStyle))
                                (step_child root a_p [tb])).*1) tbs).
    2:{ clear. induction tbs as [|tb tbs IH]; [done|]. cbn [flat_map].
        by rewrite fmap_app, <- IH. }
    apply NoDup_flat_map; [done| |].
    + intros tb _. destruct (skip_this root tb); [constructor|].
      rewrite <- list_fmap_compose.
      apply NoDup_fmap_2; [by intros ???|apply NoDup_step_child].
    + intros tb tb' p _ _ Hp Hp'. apply Hin in Hp, Hp'.
      apply elem_of_step_child in Hp as (i & e & -> & _).
      apply elem_of_step_child in Hp' as (j & e' & Heq & _).
      by apply app_inj_tail in Heq as [? _].
  - apply Forall_forall. intros p Hp.
    apply list_elem_of_fmap in Hp as ([p' ls] & -> & Hp). simpl.
    apply list_elem_of_In, in_flat_map in Hp as (tb & _ & Hp).
    apply list_elem_of_In in Hp.
    assert (p' ∈ step_child root a_p [tb]) as Hp'.
    { apply Hin. apply list_elem_of_fmap. by exists (p', ls). }
    apply elem_of_step_child in Hp' as (i & e & -> & He & Htag). eauto.
Qed.

Lemma paragraphs_under_spec pre e :
  NoDup (paragraphs_under pre e)
  ∧ ∀ c, c ∈ paragraphs_under pre e →
         ∃ q d, c = pre ++ q ∧ node e q = Some d ∧ etag d = a_p.
Proof.
  unfold paragraphs_under. split.
  - apply NoDup_fmap_2; [by intros ?? ?%app_inv_head|].
    apply NoDup_ListNoDup, List.NoDup_filter, NoDup_ListNoDup, NoDup_desc_paths.
  - intros c (q & -> & Hq)%list_elem_of_fmap.
    apply list_elem_of_In, filter_In in Hq as [_ Hq].
    destruct (node e q) as [d|] eqn:Hd; [|done].
    exists q, d. split; [done|]. split; [done|]. by apply bool_decide_eq_true in Hq.
Qed.

Lemma find_child_from_lookup t ks i j k :
  find_child_from t ks i = Some (j, k) → i ≤ j ∧ ks !! (j - i) = Some k.
Proof.
  revert i. induction ks as [|k0 ks IH]; intros i; [done|]. simpl.
  destruct (has_tag t k0).
  - intros [= <- <-]. by rewrite Nat.sub_diag.
  - intros [Hle Hk]%IH. split; [lia|].
    replace (j - i) with (S (j - S i)) by lia. done.
Qed.

Lemma snoc_prefix_eq (pre c : path) i j :
  pre ++ [i] `prefix_of` c → pre ++ [j] `prefix_of` c → i = j.
Proof.
  intros [q ->] [q' Hq]. rewrite <- !app_assoc in Hq.
  apply app_inv_head in Hq. by injection Hq.
Qed.

Lemma collect_spec pre e :
  NoDup (_collect_paragraphs_from_node pre e)
  ∧ ∀ c, c ∈ _collect_paragraphs_from_node pre e →
         ∃ q d, c = pre ++ q ∧ node e q = Some d ∧ etag d = a_p.
Proof.
  revert pre. induction e as [l ks IH] using Element_ind'. intros pre.
  rewrite Forall_forall in IH.
  assert (∀ i, NoDup (collect_kids pre ks i)) as Hnodup.
  { clear l. induction ks as [|k ks IHks]; intros i; [constructor|]. simpl.
    apply NoDup_app. split; [|split].
    - apply IH. by left.
    - intros c Hc (j & k' & _ & Hc')%elem_of_collect_kids.
      apply collect_prefix in Hc, Hc'.
      pose proof (snoc_prefix_eq _ _ _ _ Hc Hc'). lia.
    - apply IHks. intros k' Hk'. apply IH. by right. }
  assert (∀ c, c ∈ collect_kids pre ks 0 →
               ∃ q d, c = pre ++ q ∧ node (Elem l ks) q = Some d ∧ etag d = a_p)
    as Hmem.
  { intros c (j & k & Hk & Hc)%elem_of_collect_kids. simpl in Hc.
    apply IH in Hc as (q & d & -> & Hq & Hd); [|by eapply list_elem_of_lookup_2].
    exists (j :: q), d. rewrite <- app_assoc. split; [done|]. split; [|done].
    simpl. by rewrite Hk. }
  rewrite collect_unfold. repeat case_bool_decide; [|done|apply paragraphs_under_spec|done].
  destruct (_shape_is_skipped_placeholder _).
  { split; [constructor|by intros ? ?%elem_of_nil]. }
  destruct (find_child_from p_txBody ks 0) as [[i tx]|] eqn:Hfind.
  2:{ split; [constructor|by intros ? ?%elem_of_nil]. }
  apply find_child_from_lookup in Hfind as [_ Htx]. rewrite Nat.sub_0_r in Htx.
  destruct (paragraphs_under_spec (pre ++ [i]) tx) as [Hnd Hin]. split; [done|].
  intros c (q & d & -> & Hq & Hd)%Hin.
  exists (i :: q), d. rewrite <- app_assoc. split; [done|]. split; [|done].
  simpl. by rewrite Htx.
Qed.

Lemma collect_children_kids pre ks n :
  flat_map (fun '(i, child) => _collect_paragraphs_from_node (pre ++ [i]) child)
           (imap (fun i child => (n + i, child)) ks)
  = collect_kids pre ks n.
Proof.
  revert n. induction ks as [|k ks IH]; intros n; [done|].
  simpl. rewrite Nat.add_0_r. f_equal. rewrite <- IH.
  f_equal. apply imap_ext. intros i c _. simpl. f_equal. lia.
Qed.

Lemma collect_paragraphs_spec (root : Element) :
  NoDup (_collect_paragraphs root)
  ∧ Forall (fun p => ∃ e, node root p = Some e ∧ etag e = a_p)
           (_collect_paragraphs root).
Proof.
  unfold _collect_paragraphs.
  destruct (head (step_child root p_spTree (step_desc root p_cSld [[]])))
    as [sp_tree|].
  - destruct (node root sp_tree) as [st|] eqn:Hst; [|split; constructor].
    pose proof (collect_children_kids sp_tree (children st) 0) as Hkids.
    simpl in Hkids. rewrite Hkids. clear Hkids.
    destruct st as [l ks]. simpl.
    assert (NoDup (collect_kids sp_tree ks 0)
            ∧ ∀ c, c ∈ collect_kids sp_tree ks 0 →
                   ∃ q d, c = sp_tree ++ q ∧ node (Elem l ks) q = Some d
                          ∧ etag d = a_p) as [Hnd' Hin'].
    { pose proof (collect_spec sp_tree (Elem (mkLabel p_grpSp [] None) ks)) as [H1 H2].
      rewrite collect_unfold in H1, H2.
      change (bool_decide (tag (mkLabel p_grpSp [] None) = p_sp)) with false in H1, H2.
      change (bool_decide (tag (mkLabel p_grpSp [] None) = p_grpSp)) with true in H1, H2.
      cbn match in H1, H2.
      split; [done|]. intros c (q & d & -> & Hq & Hd)%H2.
      exists q, d. split; [done|]. split; [|done].
      destruct q as [|i q]; [|done].
      injection Hq as <-. by vm_compute in Hd. }
    split; [done|]. apply Forall_forall. intros c (q & d & -> & Hq & Hd)%Hin'.
    exists d. split; [|done]. rewrite node_app, Hst. done.
  - destruct (paragraphs_under_spec [] root) as [Hnd Hin]. split; [done|].
    apply Forall_forall. intros c (q & d & -> & Hq & Hd)%Hin. eauto.
Qed.

(** X8.  [_collect_paragraphs] pairs no paragraph with two lines: the
    references it returns are pairwise distinct, and each of them denotes
    an [a:p] element of the slide. *)
Theorem collected_paragraphs_distinct (root : Element) :
  NoDup (_collect_paragraphs root)
  ∧ Forall (fun p => ∃ e, node root p = Some e ∧ etag e = a_p)
           (_collect_paragraphs root).
Proof. apply collect_paragraphs_spec. Qed.

(* ================================================================== *)
(** * Lines applied to their units *)
(* ================================================================== *)

(** ** Trees of the same shape *)

(** A relabelling keeps the references below every element. *)
Lemma node_relabel_desc_paths f e t p :
  desc_paths <$> node (relabel f e t) p = desc_paths <$> node e p.
Proof.
  revert e t. induction p as [|i p IH]; intros e t.
  - simpl. by rewrite desc_paths_relabel.
  - destruct t as [|j t].
    + rewrite relabel_nil. done.
    + rewrite relabel_cons. simpl.
      destruct (decide (i = j)) as [->|Hij].
      * rewrite list_lookup_alter_eq. destruct (children e !! j) as [c|]; [|done].
        simpl. apply IH.
      * by rewrite list_lookup_alter_ne.
Qed.

Lemma forallb_ext_all {A} (f g : A → bool) l :
  (∀ x, f x = g x) → forallb f l = forallb g l.
Proof. intros Hfg. induction l as [|x l IH]; [done|]. simpl. by rewrite Hfg, IH. Qed.

Lemma relabel_tag_cases {A} f root t q (G : Element → A) (d : A) :
  (∀ l, tag (f l) = tag l) →
  (∀ e e', etag e = etag e' → G e = G e') →
  match node (relabel f root t) q with Some e => G e | None => d end
  = match node root q with Some e => G e | None => d end.
Proof.
  intros Hf HG. pose proof (relabel_tag f root t q Hf) as Hq.
  destruct (node (relabel f root t) q) as [e'|], (node root q) as [e|];
    simplify_eq/=; [|done]. by apply HG.
Qed.

Lemma same_shape_refl root : same_shape root root.
Proof. by intros q. Qed.

Lemma same_shape_trans r1 r2 r3 :
  same_shape r1 r2 → same_shape r2 r3 → same_shape r1 r3.
Proof.
  intros H12 H23 q. destruct (H12 q) as [<- <-]. apply H23.
Qed.

Lemma same_shape_relabel f root t :
  (∀ l, tag (f l) = tag l) → same_shape root (relabel f root t).
Proof.
  intros Hf q. split; [by apply relabel_tag|apply node_relabel_desc_paths].
Qed.

Lemma same_shape_relabel_all g root ts :
  (∀ l, tag (g l) = tag l) → same_shape root (relabel_all g root ts).
Proof.
  intros Hg. revert root. unfold relabel_all.
  induction ts as [|t ts IH]; intros root; [apply same_shape_refl|].
  simpl. eapply same_shape_trans; [by apply (same_shape_relabel g root t)|apply IH].
Qed.

Lemma same_shape_replace root p line :
  same_shape root (_replace_plaintext_preserving_math root p line).
Proof.
  rewrite replace_plaintext_unfold.
  destruct (plain_t_nodes root p) as [|t1 rest]; [apply same_shape_refl|].
  eapply same_shape_trans; [by apply (same_shape_relabel (write_first line) root t1)|].
  by apply same_shape_relabel_all.
Qed.



Lemma same_shape_tag_cases {A} root root' q (G : Element → A) (d : A) :
  same_shape root root' →
  (∀ e e', etag e = etag e' → G e = G e') →
  match node root' q with Some e => G e | None => d end
  = match node root q with Some e => G e | None => d end.
Proof.
  intros Hshape HG. destruct (Hshape q) as [Hq _].
  destruct (node root' q) as [e'|], (node root q) as [e|];
    simplify_eq/=; [|done]. by apply HG.
Qed.

Lemma no_math_ancestor_same_shape root root' r :
  same_shape root root' → no_math_ancestor root' r = no_math_ancestor root r.
Proof.
  intros Hshape. unfold no_math_ancestor. apply forallb_ext_all. intros k.
  apply (same_shape_tag_cases root root' (take k r)
           (fun anc => negb (has_tag m_oMath anc || has_tag m_oMathPara anc)) true);
    [done|].
  intros e e' He. unfold has_tag. by rewrite He.
Qed.

Lemma plain_t_nodes_same_shape root root' p :
  same_shape root root' → plain_t_nodes root' p = plain_t_nodes root p.
Proof.
  intros Hshape. unfold plain_t_nodes. destruct (Hshape p) as [_ Hdesc].
  destruct (node root' p) as [p_el'|], (node root p) as [p_el|];
    simplify_eq/=; [|done]. rewrite Hdesc.
  apply filter_ext. intros q.
  rewrite (no_math_ancestor_same_shape root root') by done.
  destruct (Hshape q) as [Hq _]. destruct (Hshape (removelast q)) as [Hr _].
  destruct (node root' q) as [e1|], (node root q) as [e2|];
    simplify_eq/=; [|done].
  destruct (node root' (removelast q)) as [r1|],
           (node root (removelast q)) as [r2|]; simplify_eq/=; [|done].
  unfold has_tag. by rewrite Hq, Hr.
Qed.



Lemma plain_t_nodes_replace root p line :
  plain_t_nodes (_replace_plaintext_preserving_math root p line) p
  = plain_t_nodes root p.
Proof. apply plain_t_nodes_same_shape, same_shape_replace. Qed.

(** ** The paragraph writer read back *)

Lemma visible_text_after_replace root p line :
  _visible_plaintext_outside_math (_replace_plaintext_preserving_math root p line) p
  = match plain_t_nodes root p with [] => [] | _ :: _ => line end.
Proof.
  unfold _visible_plaintext_outside_math. rewrite plain_t_nodes_replace.
  pose proof (NoDup_plain_t_nodes root p) as Hnd.
  pose proof (plain_t_nodes_under root p) as Hunder.
  pose proof (replace_plaintext_label root p line) as Hlab.
  destruct (plain_t_nodes root p) as [|t1 rest]; [done|].
  assert (∀ t, t ∈ t1 :: rest →
               text_at (_replace_plaintext_preserving_math root p line) t
               = if decide (t = t1) then line else []) as Htext.
  { intros t Ht. specialize (Hlab t). destruct (Hunder t Ht) as [_ [d Hd]].
    unfold text_at. rewrite Hd in Hlab. simpl in Hlab.
    destruct (node (_replace_plaintext_preserving_math root p line) t) as [d'|];
      [|done].
    injection Hlab as Hlab. unfold etext. rewrite Hlab.
    destruct (decide (t = t1)) as [->|Hne]; [done|].
    rewrite decide_True; [done|]. by apply elem_of_cons in Ht as [?|?]. }
  apply NoDup_cons in Hnd as [Hnotin _].
  simpl. rewrite Htext by (by left). rewrite decide_True by done.
  assert (concat (map (text_at (_replace_plaintext_preserving_math root p line)) rest)
          = []) as ->; [|by rewrite app_nil_r].
  assert (Forall (fun t => text_at (_replace_plaintext_preserving_math root p line) t
                           = []) rest) as Hrest.
  { apply Forall_forall. intros t Ht. rewrite Htext by (by right).
    rewrite decide_False; [done|]. by intros ->. }
  clear - Hrest. induction Hrest as [|t rest' Ht _ IH]; [done|].
  simpl. by rewrite Ht, IH.
Qed.


Lemma patch_paragraph_visible root p line :
  _visible_plaintext_outside_math (patch_paragraph root p line) p
  = if truthy (strip (_visible_plaintext_outside_math root p)) then line
    else _visible_plaintext_outside_math root p.
Proof.
  unfold patch_paragraph.
  destruct (truthy (strip (_visible_plaintext_outside_math root p))) eqn:Hvis;
    [|done].
  rewrite visible_text_after_replace.
  unfold _visible_plaintext_outside_math in Hvis.
  destruct (plain_t_nodes root p); [done|done].
Qed.




(** ** Paragraphs beside one another *)



(** ** Lines applied by the run writer *)







(** ** Padding, truncation and application *)


(* ================================================================== *)
(** * Further properties: the two writers *)
(* ================================================================== *)

(** ** The paragraph writer *)

(** X9.  After the body of the paragraph loop in [_patch_slide_paragraphs]
    the visible plain text of the paragraph is the line, when the paragraph
    had visible text that is not only whitespace; it is the text the
    paragraph had otherwise. *)
Theorem patched_paragraph_shows_line (root : Element) (p : path) (line : pystr) :
  _visible_plaintext_outside_math (patch_paragraph root p line) p
  = if truthy (strip (_visible_plaintext_outside_math root p)) then line
    else _visible_plaintext_outside_math root p.
Proof. apply patch_paragraph_visible. Qed.

Lemma relabel_fixed f e t :
  (∀ d, node e t = Some d → f (label d) = label d) → relabel f e t = e.
Proof.
  revert e. induction t as [|i t IH]; intros e Hf.
  - rewrite relabel_nil, Hf by done. apply Elem_eta.
  - rewrite relabel_cons. destruct e as [l ks]. simpl in *. f_equal.
    apply list_eq. intros j. destruct (decide (j = i)) as [->|Hne].
    + rewrite list_lookup_alter_eq.
      destruct (ks !! i) as [c|] eqn:Hc; [|done]. simpl. f_equal.
      apply IH. intros d Hd. by apply Hf.
    + by rewrite list_lookup_alter_ne.
Qed.

Lemma relabel_all_fixed g e ts :
  Forall (fun t => ∀ d, node e t = Some d → g (label d) = label d) ts →
  relabel_all g e ts = e.
Proof.
  unfold relabel_all. induction 1 as [|t ts Ht _ IH]; [done|].
  simpl. by rewrite relabel_fixed.
Qed.

Lemma set_attr_twice key v attrs :
  set_attr key v (set_attr key v attrs) = set_attr key v attrs.
Proof.
  induction attrs as [|[k w] attrs IH]; simpl.
  - by rewrite bool_decide_eq_true_2.
  - case_bool_decide as Hk; simpl; rewrite ?bool_decide_eq_true_2 by done; [done|].
    rewrite bool_decide_eq_false_2 by done. by rewrite IH.
Qed.

Lemma write_first_twice line l : write_first line (write_first line l) = write_first line l.
Proof.
  unfold write_first, _set_xml_space_preserve, set_text. simpl.
  by rewrite set_attr_twice.
Qed.

(** X10.  The body of the paragraph loop is idempotent: applying the same
    line to the same paragraph a second time changes nothing. *)
Theorem patch_paragraph_twice (root : Element) (p : path) (line : pystr) :
  patch_paragraph (patch_paragraph root p line) p line = patch_paragraph root p line.
Proof.
  unfold patch_paragraph at 1.
  destruct (truthy (strip (_visible_plaintext_outside_math
                             (patch_paragraph root p line) p))) eqn:Hvis; [|done].
  unfold patch_paragraph in *.
  destruct (truthy (strip (_visible_plaintext_outside_math root p))) eqn:Hvis0.
  2:{ by rewrite Hvis0 in Hvis. }
  set (root1 := _replace_plaintext_preserving_math root p line) in *.
  rewrite (replace_plaintext_unfold root1).
  assert (plain_t_nodes root1 p = plain_t_nodes root p) as Hts
    by apply plain_t_nodes_replace.
  rewrite Hts.
  pose proof (NoDup_plain_t_nodes root p) as Hnd.
  pose proof (replace_plaintext_label root p line) as Hlab. fold root1 in Hlab.
  destruct (plain_t_nodes root p) as [|t1 rest]; [done|].
  apply NoDup_cons in Hnd as [Hnotin _].
  assert (relabel (write_first line) root1 t1 = root1) as ->.
  { apply relabel_fixed. intros d Hd. specialize (Hlab t1). rewrite Hd in Hlab.
    simpl in Hlab. destruct (node root t1) as [d0|]; [|done]. simpl in Hlab.
    rewrite decide_True in Hlab by done. injection Hlab as ->.
    apply write_first_twice. }
  apply relabel_all_fixed, Forall_forall. intros t Ht d Hd.
  specialize (Hlab t). rewrite Hd in Hlab. simpl in Hlab.
  destruct (node root t) as [d0|]; [|done]. simpl in Hlab.
  rewrite decide_False in Hlab by (by intros ->).
  rewrite decide_True in Hlab by done. by injection Hlab as ->.
Qed.

(** ** The run writer *)

Lemma segment_elements_count_other t text :
  run_writer_tag t = false → count_tag t (segment_elements text) = 0.
Proof.
  intros Ht. apply bool_decide_eq_false in Ht.
  pose proof (segment_elements_leaves text) as H.
  induction H as [|d ds [Hd Hx] _ IH]; [done|].
  rewrite count_tag_cons, Hd, IH. unfold has_tag.
  rewrite bool_decide_eq_false_2; [done|]. intros <-. apply Ht.
  destruct Hx as [[-> _]|[->| ->]].
  - by left.
  - by right; left.
  - by right; right; left.
Qed.

Lemma patch_runs_count_other t e lines :
  run_writer_tag t = false → t_leaves e = true →
  count_tag t (children (patch_runs e lines).1) = count_tag t (children e).
Proof.
  intros Hother. unfold t_leaves. fold leafy. revert lines.
  induction e as [l ks IH] using Element_ind'. intros lines Hleaf.
  rewrite patch_runs_unfold. simpl in *.
  assert (∀ k, has_tag a_t k = true → has_tag t k = false) as Hnot_t.
  { intros k Hk. apply bool_decide_eq_true in Hk. unfold has_tag. rewrite Hk.
    apply bool_decide_eq_false_2. intros <-.
    apply bool_decide_eq_false in Hother. apply Hother. by left. }
  assert (count_tag t ((patch_runs_kids ks lines).1.1 ++ (patch_runs_kids ks lines).1.2)
          = count_tag t ks) as Hks.
  { revert lines. induction ks as [|k ks IHks]; intros lines; [done|].
    apply Forall_cons in IH as [Hk Hks].
    simpl in Hleaf. apply andb_true_iff in Hleaf as [Hlk Hleaf].
    rewrite forallb_app in Hleaf. apply andb_true_iff in Hleaf as [Hleafk Hleaf].
    specialize (IHks Hks Hleaf).
    rewrite count_tag_cons. simpl. destruct (has_tag a_t k) eqn:Ht.
    - unfold leafy in Hlk. rewrite Ht in Hlk. simpl in Hlk.
      apply bool_decide_eq_true in Hlk. rewrite Hlk.
      rewrite (Hnot_t k Ht).
      destruct lines as [|text lines'].
      + specialize (IHks []). destruct (patch_runs_kids ks []) as [[kept added] rest].
        simpl in *. by rewrite count_tag_cons, Hlk, IHks, (Hnot_t k Ht).
      + specialize (IHks (drop (length (findall_desc a_t k)) lines')).
        destruct (patch_runs_kids ks _) as [[kept added] rest]. simpl in *.
        rewrite !count_tag_app, segment_elements_count_other in * by done.
        simpl. lia.
    - pose proof (patch_runs_tag k lines) as Htag.
      specialize (Hk lines Hleafk).
      destruct (patch_runs k lines) as [k' lines1]. simpl in *.
      specialize (IHks lines1).
      destruct (patch_runs_kids ks _) as [[kept added] rest]. simpl in *.
      rewrite count_tag_cons, Hk, IHks. unfold has_tag. by rewrite Htag. }
  destruct (patch_runs_kids ks lines) as [[kept added] rest]. done.
Qed.

(** X11.  The run-level patch removes and creates text, break and tab
    elements only: on a slide whose [a:t] elements have no children, the
    number of elements of every other tag is the same before and after
    [_patch_slide_runs]. *)
Theorem run_patch_keeps_other_elements
    (root : Element) (lines : list pystr) (t : string) :
  run_writer_tag t = false → t_leaves root = true →
  length (findall_desc t (_patch_slide_runs root lines).1.1)
  = length (findall_desc t root).
Proof.
  intros Hother Hleaf. unfold _patch_slide_runs.
  destruct (fit_lines (length (_find_runs root)) lines) as [lines' dropped].
  simpl. rewrite !findall_desc_length. by apply patch_runs_count_other.
Qed.

Lemma run_patch_keeps_other_elements_witness :
  run_writer_tag a_r = false ∧ t_leaves slide_break = true
  ∧ length (findall_desc a_r
              (_patch_slide_runs slide_break [s2u "one"; s2u "two\nthree"]).1.1)
    = length (findall_desc a_r slide_break).
Proof.
  split; [reflexivity|]. split; [reflexivity|].
  apply (run_patch_keeps_other_elements slide_break [s2u "one"; s2u "two\nthree"] a_r);
    reflexivity.
Defined.

(* ================================================================== *)
(** * Further properties: the container rewrites *)
(* ================================================================== *)



(** ** The manifest *)

Lemma declares_m4a_appended l ks :
  declares_m4a
    (Elem l (ks ++ [Elem (mkLabel ct_Default
                            [("Extension", s2u "m4a");
                             ("ContentType", s2u "audio/mp4")] None) []]))
  = true.
Proof.
  unfold declares_m4a, findall_desc. simpl.
  rewrite flat_map_app, List.filter_app, existsb_app. simpl.
  apply orb_true_iff. right. by vm_compute.
Qed.

(** X12.  The manifest patch of [reintegrate_audio_to_pptx] is idempotent
    and touches the manifest only: a second run changes nothing, every
    other part is as it was, and a manifest that parses declares the
    [m4a] extension afterwards. *)
Theorem ensure_m4a_declared_once (tmp : Container) :
  (ensure_m4a_declared (ensure_m4a_declared tmp).1).1 = (ensure_m4a_declared tmp).1
  ∧ (∀ k, k ≠ ContentTypesXml →
          read_part (ensure_m4a_declared tmp).1 k = read_part tmp k)
  ∧ (∀ root, read_part tmp ContentTypesXml = Some (Parsed root) →
             ∃ root', read_part (ensure_m4a_declared tmp).1 ContentTypesXml
                      = Some (Parsed root')
                      ∧ declares_m4a root' = true).
Proof.
  unfold ensure_m4a_declared at 2 3 4 5.
  destruct (read_part tmp ContentTypesXml) as [[raw|root]|] eqn:Hct; simpl.
  - split; [|split]; [|done|done]. unfold ensure_m4a_declared. by rewrite Hct.
  - fold (declares_m4a root). destruct (declares_m4a root) eqn:Hdecl; simpl.
    + split; [|split]; [|done|].
      * unfold ensure_m4a_declared. rewrite Hct. fold (declares_m4a root).
        by rewrite Hdecl.
      * intros ? [= <-]. exists root. by rewrite Hct.
    + split; [|split].
      * unfold ensure_m4a_declared. rewrite read_write_part, decide_True by done.
        match goal with
        | |- context [existsb ?f (findall_desc ct_Default ?r)] =>
            change (existsb f (findall_desc ct_Default r)) with (declares_m4a r)
        end.
        by rewrite declares_m4a_appended.
      * intros k Hk. rewrite read_write_part. by rewrite decide_False.
      * intros ? [= <-]. rewrite read_write_part, decide_True by done.
        eexists. split; [done|]. apply declares_m4a_appended.
  - split; [|split]; [|done|done]. unfold ensure_m4a_declared. by rewrite Hct.
Qed.

(** ** The audio parts *)



Lemma audio_rewrite_other fs pptx_path tts_dir fault other :
  other ≠ pptx_path → other ≠ with_suffix pptx_path ".tmp.pptx" →
  (reintegrate_audio_to_pptx fs pptx_path tts_dir fault).1 !! other = fs !! other.
Proof.
  intros H1 H2. unfold reintegrate_audio_to_pptx.
  destruct (fs !! pptx_path) as [zin|] eqn:Hzin; [|done].
  destruct (ensure_m4a_declared zin) as [tmp1 log1].
  destruct (replace_audio tts_dir tmp1 0) as [[tmp2 log2] replaced]. simpl.
  set (tmp_path := with_suffix pptx_path ".tmp.pptx") in *.
  assert (∀ members,
            move (<[tmp_path := members]> fs) tmp_path pptx_path !! other
            = fs !! other) as Hmove_other.
  { intros members. unfold move. rewrite lookup_insert_eq.
    rewrite lookup_insert_ne, lookup_delete_ne, lookup_insert_ne by done. done. }
  unfold zip_write. destruct fault as [k|]; [case_bool_decide|]; simpl.
  - by rewrite lookup_insert_ne.
  - apply Hmove_other.
  - apply Hmove_other.
Qed.


(** ** The text rewrite *)





(** X16.  [reintegrate_text_and_audio] leaves the input deck as it was,
    whatever happens, when the output path is another one and the input
    is not the temporary path that the audio rewrite uses beside the
    output. *)
Theorem combined_rewrite_keeps_input
    (fs : FS) (pptx_in pptx_out : string) (txt_dir : gmap nat pystr)
    (tts_dir : list (string * list N)) (fault_text fault_audio : option nat) :
  pptx_in ≠ pptx_out → pptx_in ≠ with_suffix pptx_out ".tmp.pptx" →
  (reintegrate_text_and_audio fs pptx_in txt_dir tts_dir pptx_out
     fault_text fault_audio).1 !! pptx_in
  = fs !! pptx_in.
Proof.
  intros Hout Htmp. unfold reintegrate_text_and_audio.
  destruct (fs !! pptx_in) as [c|] eqn:Hin; [|done].
  set (fs0 := <[pptx_out := c]> fs).
  assert (fs0 !! pptx_in = Some c) as H0.
  { unfold fs0. by rewrite lookup_insert_ne. }
  assert ((reintegrate_translated_slide_text fs0 pptx_out txt_dir pptx_out
             fault_text).1 !! pptx_in = Some c) as H1.
  { unfold reintegrate_translated_slide_text.
    destruct (fs0 !! pptx_out) as [zin|]; [|done].
    destruct (reintegrate_slides _ _ _ _) as [[[tmp log] modified]|e]; [|done].
    pose proof (zip_write_other fs0 pptx_out tmp fault_text pptx_in) as Hother.
    destruct (zip_write fs0 pptx_out tmp fault_text) as [fs' [[]|e]]; simpl in *;
      by rewrite Hother. }
  destruct (reintegrate_translated_slide_text fs0 pptx_out txt_dir pptx_out fault_text)
    as [fs1 [r1|e1]]; simpl in *; [|done].
  pose proof (audio_rewrite_other fs1 pptx_out tts_dir fault_audio pptx_in Hout Htmp)
    as Hother.
  destruct (reintegrate_audio_to_pptx fs1 pptx_out tts_dir fault_audio)
    as [fs2 [r2|e2]]; simpl in *; congruence.
Qed.

Lemma combined_rewrite_keeps_input_witness :
  (reintegrate_text_and_audio fs_small "deck.pptx" txt_three
     [("media3.m4a", [7; 8; 9]%N)] "out.pptx" None None).1 !! "deck.pptx"
  = fs_small !! "deck.pptx".
Proof.
  apply (combined_rewrite_keeps_input fs_small "deck.pptx" "out.pptx" txt_three
           [("media3.m4a", [7; 8; 9]%N)] None None).
  - vm_compute. discriminate.
  - vm_compute. discriminate.
Defined.

(* ================================================================== *)
(** * Further properties: the chooser on larger slides *)
(* ================================================================== *)

Lemma runs_from_20_below_64_holds : runs_from_20_below_64 = true.
Proof. by vm_compute. Qed.

(** X17.  From twenty lines on the two ratio thresholds of
    [_choose_method] decide nothing: the run-level method is chosen
    exactly when the number of [a:t] elements and the number of lines
    differ by at most two. *)
Theorem large_slides_choose_by_difference (n_runs n_lines : nat) :
  20 ≤ n_lines →
  (Z.of_nat n_runs < 2 ^ 53)%Z → (Z.of_nat n_lines < 2 ^ 53)%Z →
  _choose_method n_runs n_lines
  = if (Z.abs (Z.of_nat n_runs - Z.of_nat n_lines) <=? 2)%Z then "runs"
    else "paragraphs".
Proof.
  intros Hbig Hruns Hlines. unfold _choose_method.
  rewrite bool_decide_eq_false_2 by lia.
  destruct (Z.leb_spec (Z.abs (Z.of_nat n_runs - Z.of_nat n_lines)) 2) as [Hdiff|Hdiff];
    [|by rewrite !andb_false_r].
  rewrite !andb_true_r.
  destruct (Z.lt_ge_cases (Z.of_nat n_lines) 64) as [Hsmall|Hlarge].
  - pose proof runs_from_20_below_64_holds as Hfin. unfold runs_from_20_below_64 in Hfin.
    rewrite forallb_forall in Hfin. specialize (Hfin n_lines).
    rewrite forallb_forall in Hfin.
    assert (bool_decide (_choose_method n_runs n_lines = "runs") = true) as Hag.
    { apply Hfin; apply in_seq; lia. }
    apply bool_decide_eq_true in Hag. unfold _choose_method in Hag.
    rewrite bool_decide_eq_false_2 in Hag by lia.
    destruct (Z.leb_spec (Z.abs (Z.of_nat n_runs - Z.of_nat n_lines)) 2); [|lia].
    by rewrite !andb_true_r in Hag.
  - destruct (ratio_near_one n_runs n_lines) as [-> ->]; [lia..|]. done.
Qed.

Lemma large_slides_choose_by_difference_witness :
  _choose_method 22 20
  = if (Z.abs (Z.of_nat 22 - Z.of_nat 20) <=? 2)%Z then "runs" else "paragraphs".
Proof.
  apply (large_slides_choose_by_difference 22 20).
  - lia.
  - vm_compute. reflexivity.
  - vm_compute. reflexivity.
Defined.

(* ================================================================== *)
(** * Further properties: the audio extractor *)
(* ================================================================== *)

Lemma split_slash_plain l cur :
  Forall (fun a => is_char "/" a = false) l →
  split_slash l cur = [string_of_list_ascii (rev cur ++ l)].
Proof.
  intros Hl. revert cur. induction Hl as [|a l Ha _ IH]; intros cur; simpl.
  - by rewrite app_nil_r.
  - rewrite Ha, IH. simpl. by rewrite <- app_assoc.
Qed.

Lemma split_slash_parts l cur :
  Forall (fun a => is_char "/" a = false) cur →
  Forall (fun part => Forall (fun a => is_char "/" a = false)
                             (list_ascii_of_string part))
         (split_slash l cur).
Proof.
  revert cur. induction l as [|a l IH]; intros cur Hcur; simpl.
  - constructor; [|constructor].
    rewrite list_ascii_of_string_of_list_ascii. by apply Forall_rev.
  - destruct (is_char "/" a) eqn:Ha.
    + constructor; [|by apply IH].
      rewrite list_ascii_of_string_of_list_ascii. by apply Forall_rev.
    + apply IH. by constructor.
Qed.

Lemma path_name_idem file : path_name (path_name file) = path_name file.
Proof.
  unfold path_name at 2 3.
  destruct (last (path_parts file)) as [name|] eqn:Hlast; [|done]. simpl.
  assert (name ∈ path_parts file) as Hin.
  { apply last_Some in Hlast as [l' ->]. apply elem_of_app. right. by left. }
  unfold path_parts in Hin.
  apply list_elem_of_In, filter_In in Hin as [Hin Hname].
  pose proof (split_slash_parts (list_ascii_of_string file) [] ltac:(constructor))
    as Hparts.
  rewrite Forall_forall in Hparts. apply list_elem_of_In in Hin.
  specialize (Hparts name Hin).
  unfold path_name, path_parts. rewrite split_slash_plain by done.
  simpl. rewrite string_of_list_ascii_of_string, Hname. done.
Qed.

Lemma has_audio_suffix_name file :
  has_audio_suffix (path_name file) = has_audio_suffix file.
Proof. unfold has_audio_suffix. by rewrite path_name_idem. Qed.

Lemma write_audio_spec archive names media_dir :
  (write_audio archive names media_dir).2
  = map path_name (List.filter audio_member names)
  ∧ (∀ n, n ∈ (write_audio archive names media_dir).2 →
          is_Some ((write_audio archive names media_dir).1 !! n))
  ∧ (∀ n, n ∉ (write_audio archive names media_dir).2 →
          (write_audio archive names media_dir).1 !! n = media_dir !! n).
Proof.
  revert media_dir. induction names as [|file names IH]; intros media_dir.
  - simpl. split; [done|]. split; [by intros ? ?%elem_of_nil|done].
  - simpl. destruct (audio_member file) eqn:Haudio; [|apply IH].
    specialize (IH (<[path_name file := default [] (zip_read archive file)]> media_dir)).
    destruct (write_audio archive names _) as [dir extracted]. simpl in *.
    destruct IH as (Hfiles & Hin & Hout). split; [by rewrite Hfiles|]. split.
    + intros n Hn. destruct (decide (n ∈ extracted)) as [?|Hnot]; [by apply Hin|].
      rewrite Hout by done. apply elem_of_cons in Hn as [->|?]; [|done].
      rewrite lookup_insert_eq. eauto.
    + intros n Hn. apply not_elem_of_cons in Hn as [Hne Hn].
      rewrite Hout by done. by rewrite lookup_insert_ne.
Qed.

(** X18.  [extract_audio_from_pptx], when it returns: it lists the final
    path component of every archive member below [ppt/media/] that has an
    audio extension, in archive order; each listed name has an audio
    extension and is a file of the media directory afterwards; and of the
    other files of that directory, those with an audio extension are gone
    (unless removing them failed) while the rest are as they were. *)
Theorem extracted_audio_directory
    (decks : gmap string RawArchive) (pptx_path : string)
    (unlink_fails : string → bool) (media_dir dir : gmap string (list N))
    (files : list string) :
  extract_audio_from_pptx decks pptx_path unlink_fails media_dir
  = (dir, Extracted files) →
  (∃ archive, decks !! pptx_path = Some archive
              ∧ files = map path_name (List.filter audio_member archive.*1))
  ∧ Forall (fun n => has_audio_suffix n = true ∧ is_Some (dir !! n)) files
  ∧ ∀ n, n ∉ files →
         dir !! n = if has_audio_suffix n && negb (unlink_fails n) then None
                    else media_dir !! n.
Proof.
  unfold extract_audio_from_pptx.
  destruct (decks !! pptx_path) as [archive|]; [|done].
  case_bool_decide; [|done].
  pose proof (write_audio_spec archive archive.*1
                (remove_old_audio unlink_fails media_dir)) as (Hfiles & Hin & Hout).
  destruct (write_audio archive archive.*1 _) as [dir' files']. simpl in *.
  intros [= <- <-]. split; [eauto|]. split.
  - apply Forall_forall. intros n Hn. split; [|by apply Hin].
    rewrite Hfiles in Hn. apply list_elem_of_fmap in Hn as (file & -> & Hfile).
    apply list_elem_of_In, filter_In in Hfile as [_ Hfile].
    rewrite has_audio_suffix_name. unfold audio_member in Hfile.
    by apply andb_true_iff in Hfile as [_ ?].
  - intros n Hn. rewrite Hout by done. unfold remove_old_audio.
    rewrite map_lookup_filter.
    destruct (media_dir !! n) as [data|]; simpl.
    + case_guard as Hg; simpl.
      * by destruct Hg as [-> | ->]; rewrite ?andb_false_r.
      * destruct (has_audio_suffix n); [|by destruct Hg; left].
        destruct (unlink_fails n); [by destruct Hg; right|done].
    + by destruct (has_audio_suffix n && negb (unlink_fails n)).
Qed.

Lemma extracted_audio_directory_witness :
  let out := extract_audio_from_pptx decks_raw "deck.pptx" (fun _ => false)
               media_before in
  (∃ archive, decks_raw !! "deck.pptx" = Some archive
              ∧ ["media3.m4a"; "media7.WAV"]
                = map path_name (List.filter audio_member archive.*1))
  ∧ Forall (fun n => has_audio_suffix n = true ∧ is_Some (out.1 !! n))
           ["media3.m4a"; "media7.WAV"]
  ∧ ∀ n, n ∉ ["media3.m4a"; "media7.WAV"] →
         out.1 !! n = if has_audio_suffix n && negb ((fun _ => false) n) then None
                      else media_before !! n.
Proof.
  apply (extracted_audio_directory decks_raw "deck.pptx" (fun _ => false) media_before
           (extract_audio_from_pptx decks_raw "deck.pptx" (fun _ => false)
              media_before).1
           ["media3.m4a"; "media7.WAV"]).
  vm_compute. reflexivity.
Defined.

(* ================================================================== *)
(** * Further properties: lines and paragraphs on slides of plain shapes *)
(* ================================================================== *)

Lemma filter_concat {A} (P : A → bool) (ls : list (list A)) :
  List.filter P (concat ls) = concat (map (List.filter P) ls).
Proof.
  induction ls as [|l ls IH]; [done|]. simpl. by rewrite List.filter_app, IH.
Qed.

Lemma filter_all {A} (P : A → bool) (l : list A) :
  Forall (fun x => P x = true) l → List.filter P l = l.
Proof. induction 1 as [|x l Hx _ IH]; [done|]. simpl. by rewrite Hx, IH. Qed.

Lemma filter_map_app (P : path → bool) (p : path) (l : list path) :
  List.filter P (map (app p) l) = map (app p) (List.filter (fun q => P (p ++ q)) l).
Proof.
  induction l as [|q l IH]; [done|]. simpl. destruct (P (p ++ q)); simpl; by rewrite IH.
Qed.

Lemma tag_paths_unfold t l ks :
  tag_paths t (Elem l ks)
  = concat (imap (fun j k => (if has_tag t k then [[j]] else [])
                             ++ map (cons j) (tag_paths t k)) ks).
Proof.
  unfold tag_paths at 1. rewrite desc_paths_unfold, filter_concat. simpl.
  f_equal. rewrite <- (list_fmap_id (imap _ ks)) at 1.
  change (map ?f (id <$> ?l)) with (f <$> (id <$> l)).
  rewrite <- list_fmap_compose, fmap_imap. apply imap_ext. intros j k Hk. simpl.
  rewrite Hk. simpl. rewrite filter_map_cons.
  assert (List.filter (fun a => match node (Elem l ks) (j :: a) with
                                | Some d => has_tag t d
                                | None => false
                                end) (desc_paths k)
          = tag_paths t k) as ->.
  { unfold tag_paths. apply filter_ext. intros q. simpl. by rewrite Hk. }
  by destruct (has_tag t k).
Qed.

Lemma concat_imap_nil {A B} (f : nat → A → list B) (ks : list A) :
  (∀ j k, ks !! j = Some k → f j k = []) → concat (imap f ks) = [].
Proof.
  revert f. induction ks as [|k ks IH]; intros f Hf; [done|].
  simpl. rewrite (Hf 0 k) by done. simpl. apply IH.
  intros j k' Hk'. by apply (Hf (S j)).
Qed.

Lemma tag_paths_none t e :
  forallb (fun d => negb (has_tag t d)) (descendants e) = true →
  tag_paths t e = [].
Proof.
  induction e as [l ks IH] using Element_ind'. intros Hnone.
  rewrite tag_paths_unfold. apply concat_imap_nil. intros j k Hk.
  rewrite descendants_unfold in Hnone. simpl in Hnone.
  rewrite forallb_forall in Hnone.
  assert (k ∈ ks) as Hin by (by eapply list_elem_of_lookup_2).
  assert (has_tag t k = false) as ->.
  { apply negb_true_iff, Hnone, in_flat_map. exists k.
    split; [by apply list_elem_of_In|by left]. }
  rewrite Forall_forall in IH. rewrite IH; [done|done|].
  apply forallb_forall. intros d Hd. apply Hnone, in_flat_map. exists k.
  split; [by apply list_elem_of_In|by right].
Qed.

Lemma step_desc_at root t p e :
  node root p = Some e → step_desc root t [p] = map (app p) (tag_paths t e).
Proof.
  intros Hp. unfold step_desc. simpl. rewrite Hp, app_nil_r.
  unfold with_tag, tag_paths. rewrite filter_map_app. f_equal.
  apply filter_ext. intros q. by rewrite node_app, Hp.
Qed.

Lemma step_child_all root t tb e :
  node root tb = Some e →
  Forall (fun k => has_tag t k = true) (children e) →
  step_child root t [tb] = map (fun j => tb ++ [j]) (seq 0 (length (children e))).
Proof.
  intros Htb Hall. unfold step_child. simpl. rewrite Htb, app_nil_r.
  apply filter_all, Forall_forall. intros q (j & -> & Hj)%list_elem_of_fmap.
  apply list_elem_of_In, in_seq in Hj. rewrite node_app, Htb. simpl.
  destruct (children e !! j) as [k|] eqn:Hk.
  - rewrite Forall_forall in Hall. apply Hall. by eapply list_elem_of_lookup_2.
  - apply lookup_ge_None in Hk. lia.
Qed.

(** ** The parts of a plain shape *)

Lemma inline_paragraph_tag par : inline_paragraph par = true → etag par = a_p.
Proof. intros [Ht _]%andb_true_iff. by apply bool_decide_eq_true in Ht. Qed.

Lemma inline_paragraph_none t par :
  t ∈ structural_tags → inline_paragraph par = true → tag_paths t par = [].
Proof.
  intros Ht [_ Hdesc]%andb_true_iff. apply tag_paths_none.
  rewrite forallb_forall in *. intros d Hd. specialize (Hdesc d Hd).
  apply negb_true_iff, bool_decide_eq_false in Hdesc.
  apply negb_true_iff, bool_decide_eq_false. by intros <-.
Qed.

(** Below a text body of inline paragraphs only the paragraphs themselves
    carry a structural tag. *)
Lemma tag_paths_txBody t ps :
  t ∈ structural_tags → forallb inline_paragraph ps = true →
  tag_paths t (mk_txBody ps)
  = if bool_decide (t = a_p) then map (fun j => [j]) (seq 0 (length ps)) else [].
Proof.
  intros Ht Hps. unfold mk_txBody, el. rewrite tag_paths_unfold.
  rewrite forallb_forall in Hps.
  rewrite (imap_ext _ (fun j _ => if bool_decide (t = a_p) then [[j]] else [])).
  2:{ intros j par Hpar. simpl.
      assert (inline_paragraph par = true) as Hin.
      { apply Hps, list_elem_of_In. by eapply list_elem_of_lookup_2. }
      rewrite inline_paragraph_none by done. simpl. rewrite app_nil_r.
      unfold has_tag. rewrite (inline_paragraph_tag par Hin).
      case_bool_decide; case_bool_decide; congruence. }
  case_bool_decide.
  - clear.
    assert (∀ (f : nat → nat) , concat (imap (fun j (_ : Element) => [[f j]]) ps)
                                = map (fun j => [f j]) (seq 0 (length ps))) as Hgen.
    { induction ps as [|par ps IH]; intros f; [done|]. simpl. f_equal.
      rewrite <- seq_shift, map_map. apply (IH (fun j => f (S j))). }
    apply (Hgen id).
  - by apply concat_imap_nil.
Qed.

Lemma tag_paths_mk_sp t ty ps :
  t ∈ structural_tags → forallb inline_paragraph ps = true →
  tag_paths t (mk_sp ty ps)
  = (if bool_decide (t = p_nvSpPr) then [[0]] else [])
    ++ (if bool_decide (t = p_ph) then
          match ty with Some _ => [[0; 0; 0]] | None => [] end
        else [])
    ++ (if bool_decide (t = p_txBody) then [[1]] else [])
    ++ (if bool_decide (t = a_p) then map (fun j => [1; j]) (seq 0 (length ps))
        else []).
Proof.
  intros Ht Hps. unfold mk_sp, el. rewrite tag_paths_unfold.
  cbn [imap concat]. unfold compose. cbn beta. rewrite app_nil_r.
  rewrite (tag_paths_txBody t ps Ht Hps).
  unfold structural_tags in Ht.
  repeat (apply elem_of_cons in Ht as [->|Ht]); [..|by apply elem_of_nil in Ht];
    destruct ty; try (by vm_compute).
  - change (bool_decide (a_p = a_p)) with true. cbn match.
    rewrite map_map. by vm_compute.
  - change (bool_decide (a_p = a_p)) with true. cbn match.
    rewrite map_map. by vm_compute.
Qed.

Lemma structural_not_frame t :
  t ∈ structural_tags → t ≠ p_cSld ∧ t ≠ p_spTree.
Proof.
  unfold structural_tags. intros Ht.
  repeat (apply elem_of_cons in Ht as [->|Ht]); [..|by apply elem_of_nil in Ht];
    by vm_compute.
Qed.

Lemma tag_paths_slide_of t specs :
  t ∈ structural_tags →
  tag_paths t (slide_of specs)
  = concat (imap (fun i spec =>
                    map (fun q => 0 :: 0 :: i :: q)
                        ((if bool_decide (t = p_sp) then [[]] else [])
                         ++ tag_paths t (mk_sp spec.1 spec.2)))
                 specs).
Proof.
  intros Ht. destruct (structural_not_frame t Ht) as [HcSld HspTree].
  unfold slide_of, mk_slide, el.
  rewrite tag_paths_unfold. cbn [imap concat]. rewrite app_nil_r.
  unfold has_tag at 1. cbn [etag label tag].
  rewrite bool_decide_eq_false_2 by done. cbn [app].
  rewrite tag_paths_unfold. cbn [imap concat]. rewrite app_nil_r.
  unfold has_tag at 1. cbn [etag label tag].
  rewrite bool_decide_eq_false_2 by done. cbn [app].
  rewrite tag_paths_unfold, imap_fmap.
  rewrite !concat_map. f_equal.
  change (map ?f (map ?g ?l)) with (f <$> (g <$> l)).
  rewrite <- list_fmap_compose, fmap_imap. apply imap_ext.
  intros i [ty ps] _. simpl. rewrite map_app, !map_map.
  unfold mk_sp at 1, el, has_tag. cbn [etag label tag].
  rewrite map_app, map_map.
  rewrite (map_app _ (if bool_decide (t = p_sp) then _ else _)), map_map.
  f_equal. case_bool_decide; case_bool_decide; done || congruence.
Qed.

(** ** The slide *)

Lemma node_slide_of specs i q :
  node (slide_of specs) (0 :: 0 :: i :: q)
  = specs !! i ≫= fun spec => node (mk_sp spec.1 spec.2) q.
Proof.
  unfold slide_of, mk_slide, el. cbn [node children lookup list_lookup].
  rewrite list_lookup_fmap. by destruct (specs !! i).
Qed.

Lemma plain_shapes_lookup specs i ty ps :
  plain_shapes specs = true → specs !! i = Some (ty, ps) →
  forallb inline_paragraph ps = true.
Proof.
  unfold plain_shapes. rewrite forallb_forall. intros Hall Hi.
  apply (Hall (ty, ps)), list_elem_of_In. by eapply list_elem_of_lookup_2.
Qed.

Lemma concat_imap_singleton {A B} (g : nat → A → B) (l : list A) :
  concat (imap (fun i x => [g i x]) l) = imap g l.
Proof.
  revert g. induction l as [|x l IH]; intros g; [done|]. simpl. f_equal. apply IH.
Qed.

Lemma flat_map_imap {A B C} (F : B → list C) (g : nat → A → B) (l : list A) :
  flat_map F (imap g l) = concat (imap (fun i x => F (g i x)) l).
Proof.
  revert g. induction l as [|x l IH]; intros g; [done|]. simpl. f_equal. apply IH.
Qed.

Lemma tx_bodies_slide_of specs :
  plain_shapes specs = true →
  tx_bodies (slide_of specs) = imap (fun i _ => [0; 0; i; 1]) specs.
Proof.
  intros Hplain. unfold tx_bodies. rewrite !step_desc_root.
  fold (tag_paths a_txBody (slide_of specs)) (tag_paths p_txBody (slide_of specs)).
  rewrite !tag_paths_slide_of by (by vm_compute; set_solver).
  rewrite concat_imap_nil.
  2:{ intros i [ty ps] Hi. simpl.
      rewrite tag_paths_mk_sp;
        [by destruct ty|by vm_compute; set_solver|by eapply plain_shapes_lookup]. }
  simpl.
  rewrite <- (concat_imap_singleton (fun i _ => [0; 0; i; 1]) specs).
  f_equal. apply imap_ext.
  intros i [ty ps] Hi. simpl.
  rewrite tag_paths_mk_sp;
    [by destruct ty|by vm_compute; set_solver|by eapply plain_shapes_lookup].
Qed.

Lemma first_ph_is_skipped_slide_of specs i ty ps :
  plain_shapes specs = true → specs !! i = Some (ty, ps) →
  first_ph_is_skipped (slide_of specs) [0; 0; i] = opt_in ty _SKIP_PH_TYPES.
Proof.
  intros Hplain Hi. unfold first_ph_is_skipped.
  rewrite (step_desc_at _ _ _ (mk_sp ty ps)).
  2:{ rewrite node_slide_of, Hi. done. }
  rewrite tag_paths_mk_sp;
    [|by vm_compute; set_solver|by eapply plain_shapes_lookup].
  destruct ty as [ty|]; [|done].
  change (head _) with (Some [0; 0; i; 0; 0; 0]). cbn match.
  rewrite node_slide_of, Hi. done.
Qed.

Lemma skip_this_slide_of specs i ty ps :
  plain_shapes specs = true → specs !! i = Some (ty, ps) →
  skip_this (slide_of specs) [0; 0; i; 1] = opt_in ty _SKIP_PH_TYPES.
Proof.
  intros Hplain Hi. unfold skip_this.
  rewrite (deciding_shape (slide_of specs) [0; 0; i] (mk_sp ty ps)).
  - by eapply first_ph_is_skipped_slide_of.
  - rewrite node_slide_of, Hi. done.
  - done.
  - done.
  - unfold no_shape_above. by vm_compute.
  - by exists [1].
Qed.

Lemma paragraphs_have_tag ps :
  forallb inline_paragraph ps = true →
  Forall (fun k => has_tag a_p k = true) ps.
Proof.
  rewrite forallb_forall, Forall_forall. intros Hps par Hpar.
  apply list_elem_of_In, Hps in Hpar. by apply andb_true_iff in Hpar as [? _].
Qed.

Lemma retained_slide_of specs :
  plain_shapes specs = true →
  (retained_paragraphs (slide_of specs)).*1 = slide_paragraphs specs.
Proof.
  intros Hplain. unfold retained_paragraphs, slide_paragraphs.
  rewrite tx_bodies_slide_of, flat_map_imap by done.
  change (?l.*1) with (map fst l). rewrite concat_map.
  change (map ?f (imap ?g ?l)) with (f <$> imap g l).
  rewrite fmap_imap. f_equal. apply imap_ext. intros i [ty ps] Hi.
  unfold compose. cbn beta.
  rewrite (skip_this_slide_of specs i ty ps) by done.
  unfold shape_paragraphs. cbn [fst snd].
  destruct (opt_in ty _SKIP_PH_TYPES); [done|].
  rewrite map_map. cbn [fst]. rewrite map_id.
  rewrite (step_child_all _ _ _ (mk_txBody ps)).
  - done.
  - rewrite node_slide_of, Hi. done.
  - apply paragraphs_have_tag. by eapply plain_shapes_lookup.
Qed.

(** ** The collector of the paragraph writer *)

Lemma shape_tree_slide_of specs :
  head (step_child (slide_of specs) p_spTree (step_desc (slide_of specs) p_cSld [[]]))
  = Some [0; 0].
Proof.
  rewrite step_desc_root. fold (tag_paths p_cSld (slide_of specs)).
  unfold slide_of, mk_slide, el. rewrite tag_paths_unfold.
  cbn [imap concat].
  change (has_tag p_cSld (Elem (mkLabel p_cSld [] None) ?x)) with true. cbn match.
  cbn [app]. unfold step_child. cbn [flat_map node children lookup list_lookup].
  cbn [length seq map app]. unfold with_tag.
  cbn [List.filter node children lookup list_lookup].
  change (has_tag p_spTree (Elem (mkLabel p_spTree [] None) ?x)) with true. done.
Qed.

Lemma filter_none_forallb {A} (P : A → bool) (l : list A) :
  forallb (fun x => negb (P x)) l = true → List.filter P l = [].
Proof.
  induction l as [|x l IH]; [done|]. simpl. intros [Hx Hl]%andb_true_iff.
  apply negb_true_iff in Hx. rewrite Hx. by apply IH.
Qed.

Lemma findall_desc_txBody t ps :
  t ∈ structural_tags → t ≠ a_p → forallb inline_paragraph ps = true →
  findall_desc t (mk_txBody ps) = [].
Proof.
  intros Ht Hne Hps. unfold findall_desc, mk_txBody, el. simpl.
  induction ps as [|par ps IH]; [done|].
  simpl in Hps. apply andb_true_iff in Hps as [Hpar Hps].
  cbn [flat_map]. rewrite List.filter_app, IH, app_nil_r by done.
  apply andb_true_iff in Hpar as [Htag Hdesc].
  apply bool_decide_eq_true in Htag. simpl. unfold has_tag at 1.
  rewrite Htag, bool_decide_eq_false_2 by done.
  apply filter_none_forallb. rewrite forallb_forall in *. intros d Hd.
  specialize (Hdesc d Hd). apply negb_true_iff, bool_decide_eq_false in Hdesc.
  apply negb_true_iff, bool_decide_eq_false. by intros <-.
Qed.

Lemma opt_in_skipped ty :
  opt_in ty [s2u "sldNum"; s2u "dt"; s2u "ftr"; s2u "hdr"] = opt_in ty _SKIP_PH_TYPES.
Proof.
  destruct ty as [v|]; [|done]. unfold opt_in, _SKIP_PH_TYPES.
  apply bool_decide_ext. rewrite !elem_of_cons, !elem_of_nil. tauto.
Qed.

Lemma shape_is_skipped_mk_sp ty ps :
  forallb inline_paragraph ps = true →
  _shape_is_skipped_placeholder (mk_sp ty ps) = opt_in ty _SKIP_PH_TYPES.
Proof.
  intros Hps. rewrite <- opt_in_skipped.
  unfold _shape_is_skipped_placeholder, find_nv_ph.
  pose proof (findall_desc_txBody p_nvSpPr ps) as Htx.
  unfold findall_desc in *. unfold mk_sp, el. rewrite descendants_unfold.
  cbn [children flat_map]. rewrite app_nil_r.
  change (Elem (mkLabel p_txBody [] None) ps) with (mk_txBody ps).
  cbn [List.filter]. change (has_tag p_nvSpPr (Elem (mkLabel p_nvSpPr _ _) _)) with true.
  cbn match. rewrite List.filter_app. cbn [List.filter].
  change (has_tag p_nvSpPr (mk_txBody ps)) with false. cbn match.
  rewrite Htx; [|by vm_compute; set_solver|by vm_compute|done].
  rewrite app_nil_r.
  destruct ty as [ty|]; [|by vm_compute].
  cbn. done.
Qed.

Lemma collect_mk_sp pre ty ps :
  forallb inline_paragraph ps = true →
  _collect_paragraphs_from_node pre (mk_sp ty ps)
  = if opt_in ty _SKIP_PH_TYPES then []
    else map (fun j => pre ++ [1; j]) (seq 0 (length ps)).
Proof.
  intros Hps. pose proof (shape_is_skipped_mk_sp ty ps Hps) as Hskip.
  unfold mk_sp, el in *. rewrite collect_unfold. cbn [tag].
  rewrite bool_decide_eq_true_2 by done. rewrite Hskip.
  destruct (opt_in ty _SKIP_PH_TYPES); [done|].
  cbn [find_child_from].
  change (has_tag p_txBody (Elem (mkLabel p_nvSpPr _ _) _)) with false.
  cbn match. change (has_tag p_txBody (mk_txBody ps)) with true. cbn match.
  unfold paragraphs_under. fold (tag_paths a_p (mk_txBody ps)).
  rewrite tag_paths_txBody; [|by vm_compute; set_solver|done].
  rewrite bool_decide_eq_true_2 by done. rewrite map_map.
  apply map_ext. intros j. by rewrite <- app_assoc.
Qed.

Lemma collect_slide_of specs :
  plain_shapes specs = true →
  _collect_paragraphs (slide_of specs) = slide_paragraphs specs.
Proof.
  intros Hplain. unfold _collect_paragraphs. rewrite shape_tree_slide_of.
  unfold slide_of at 1, mk_slide, el. cbn [node children lookup list_lookup].
  rewrite imap_fmap, flat_map_imap. unfold slide_paragraphs. f_equal.
  apply imap_ext. intros i [ty ps] Hi. unfold compose. cbn beta. cbn [fst snd].
  rewrite collect_mk_sp by (by eapply plain_shapes_lookup).
  unfold shape_paragraphs. cbn [fst snd]. done.
Qed.

(** X22.  On a slide that holds shapes only, each with a text body of
    paragraphs with inline content, the paragraphs whose lines the
    extractor writes are the paragraphs [_collect_paragraphs] gives the
    paragraph writer, in the same order: line [i] of the file meets the
    paragraph it was read from. *)
Theorem lines_meet_their_paragraphs (specs : list (option pystr * list Element)) :
  plain_shapes specs = true →
  (retained_paragraphs (slide_of specs)).*1 = _collect_paragraphs (slide_of specs).
Proof.
  intros Hplain. by rewrite retained_slide_of, collect_slide_of.
Qed.

Lemma lines_meet_their_paragraphs_witness :
  let specs := [(None, [mk_p [mk_run (s2u "A")]]);
                (Some (s2u "ftr"), [mk_p [mk_run (s2u "F")]]);
                (None, [mk_p [mk_run (s2u "B")]; mk_p [mk_run (s2u "C")]])] in
  plain_shapes specs = true
  ∧ (retained_paragraphs (slide_of specs)).*1 = _collect_paragraphs (slide_of specs).
Proof.
  intros specs. split; [vm_compute; reflexivity|].
  apply (lines_meet_their_paragraphs specs). vm_compute. reflexivity.
Defined.

(* ================================================================== *)
(** * Sample inputs evaluated *)
(* ================================================================== *)

(** C1: on a slide with a shape followed by a table, the extractor
    lists the line of the table cell before the line of the shape, and
    both writers take the units in document order, the shape first: after
    the round trip of the unedited file the shape shows the text of the
    cell and the cell the text of the shape. *)
Theorem roundtrip_swaps_shape_and_table :
  let lines := _iter_all_paragraphs_from_slide_xml slide_shape_table in
  lines = [s2u "cell"; s2u "shape"]
  ∧ _collect_paragraphs slide_shape_table = [first_paragraph; table_paragraph]
  ∧ visible_text slide_shape_table first_paragraph = s2u "shape"
  ∧ visible_text slide_shape_table table_paragraph = s2u "cell"
  ∧ (_patch_slide_hybrid slide_shape_table lines).2 = ("runs", 2, 2)
  ∧ n_paragraphs (roundtrip_slide slide_shape_table) = n_paragraphs slide_shape_table
  ∧ visible_text (roundtrip_slide slide_shape_table) first_paragraph = s2u "cell"
  ∧ visible_text (roundtrip_slide slide_shape_table) table_paragraph = s2u "shape"
  ∧ visible_text (_patch_slide_paragraphs slide_shape_table lines).1.1 first_paragraph
    = s2u "cell"
  ∧ visible_text (_patch_slide_paragraphs slide_shape_table lines).1.1 table_paragraph
    = s2u "shape".
Proof. by vm_compute. Qed.

(** X20.  On [slide_break] the only paragraph reads "AB" before the round
    trip and "A\nB", with a backslash and an n, after: the paragraph
    writer puts the line into the first text unit as it is. *)
Lemma roundtrip_changes_text :
  _collect_paragraphs slide_break = [first_paragraph]
  ∧ _visible_plaintext_outside_math slide_break first_paragraph = s2u "AB"
  ∧ _visible_plaintext_outside_math (roundtrip_slide slide_break) first_paragraph
    = s2u "A" ++ LIT_N ++ s2u "B"
  ∧ _visible_plaintext_outside_math (roundtrip_slide slide_break) first_paragraph
    ≠ _visible_plaintext_outside_math slide_break first_paragraph.
Proof. by vm_compute. Qed.

(** X21.  On [slide_field] the line of the paragraph holds the text of the
    field, and the paragraph writer, whose targets are the text units of
    runs, leaves the field as it is: afterwards the run shows the whole
    line and the field still shows its own text. *)
Lemma field_text_kept_beside_line :
  _iter_all_paragraphs_from_slide_xml slide_field = [s2u "Page 7"]
  ∧ text_units slide_field first_paragraph
    = [first_paragraph ++ [0; 0]; first_paragraph ++ [1; 0]]
  ∧ plain_t_nodes slide_field first_paragraph = [first_paragraph ++ [0; 0]]
  ∧ text_in_runs slide_field first_paragraph = false
  ∧ text_at (roundtrip_slide slide_field) (first_paragraph ++ [0; 0]) = s2u "Page 7"
  ∧ text_at (roundtrip_slide slide_field) (first_paragraph ++ [1; 0]) = s2u "7".
Proof. by vm_compute. Qed.

Lemma roundtrip_keeps_paragraph_count_witness :
  t_leaves slide_break = true
  ∧ n_paragraphs (roundtrip_slide slide_break) = n_paragraphs slide_break.
Proof.
  split; [vm_compute; reflexivity|].
  apply (roundtrip_keeps_paragraph_count slide_break). vm_compute. reflexivity.
Defined.

(** C2: the text rewrite of a container onto itself, as
    [reintegrate_text_and_audio] calls it, with the write of the second
    member failing: the container is left with its first member only. *)
Theorem text_rewrite_in_place_is_not_atomic :
  let fs : FS := {["deck.pptx" := deck_small]} in
  let after :=
    reintegrate_translated_slide_text fs "deck.pptx" txt_three "deck.pptx" (Some 1) in
  after.2 = Raise ZipWriteError
  ∧ after.1 !! "deck.pptx" = Some (take 1 deck_small)
  ∧ after.1 !! "deck.pptx" ≠ fs !! "deck.pptx".
Proof. by vm_compute. Qed.

(** C3, as stated, fails: with the second slide of three unparsable,
    extraction raises after the first slide and writes no file for the
    third; reintegration raises and returns no count. *)
Lemma parse_failure_is_not_isolated :
  let fs : FS := {["deck.pptx" := deck_broken]} in
  (extract_slide_text deck_broken ∅).2 = Raise (ParseError 2)
  ∧ (extract_slide_text deck_broken ∅).1 !! 3 = None
  ∧ reintegrate_translated_slide_text fs "deck.pptx" txt_three "out.pptx" None
    = (fs, Raise (ParseError 2)).
Proof. by vm_compute. Qed.

Lemma parse_failure_aborts_witness :
  let fs : FS := {["deck.pptx" := deck_broken]} in
  (extract_slide_text deck_broken ∅).2 = Raise (ParseError 2)
  ∧ (∀ i, (extract_slide_text deck_broken ∅).1 !! i
          = if bool_decide (1 ≤ i < 2)
            then Some (line_file (_iter_all_paragraphs_from_slide_xml slide_break))
            else (∅ : gmap nat pystr) !! i)
  ∧ reintegrate_translated_slide_text fs "deck.pptx" txt_three "out.pptx" None
    = (fs, Raise (ParseError 2)).
Proof.
  apply (parse_failure_aborts deck_broken 2 (s2u "<p:sld") (fun _ => slide_break) ∅
           {["deck.pptx" := deck_broken]} "deck.pptx" "out.pptx" txt_three None 2).
  - lia.
  - intros i Hi. assert (i = 1) as -> by lia. vm_compute. reflexivity.
  - vm_compute. reflexivity.
  - vm_compute. reflexivity.
  - vm_compute. reflexivity.
Defined.

(** C5, as stated, fails: the paragraph of [slide_blank] has the visible
    text " ", which is not empty, and the patch writes nothing into it. *)
Lemma whitespace_paragraph_is_not_written :
  _visible_plaintext_outside_math slide_blank first_paragraph = s2u " "
  ∧ plain_t_nodes slide_blank first_paragraph = [first_paragraph ++ [0; 0]]
  ∧ text_at (patch_paragraph slide_blank first_paragraph (s2u "X"))
            (first_paragraph ++ [0; 0]) ≠ s2u "X"
  ∧ (_patch_slide_paragraphs slide_blank [s2u "X"]).1.1 = slide_blank.
Proof. by vm_compute. Qed.

Lemma paragraph_patch_frame_witness :
  text_in_runs slide_break first_paragraph = true
  ∧ (let root' := patch_paragraph slide_break first_paragraph (s2u "X") in
     if truthy (strip (visible_text slide_break first_paragraph)) then
       desc_paths root' = desc_paths slide_break
       ∧ label <$> node root' (first_paragraph ++ [0; 0])
         = patched_label (text_units slide_break first_paragraph) (s2u "X")
                         (first_paragraph ++ [0; 0])
             <$> (label <$> node slide_break (first_paragraph ++ [0; 0]))
     else root' = slide_break).
Proof.
  split; [vm_compute; reflexivity|].
  apply (paragraph_patch_frame slide_break first_paragraph (s2u "X")
           (first_paragraph ++ [0; 0])).
  vm_compute. reflexivity.
Defined.

(** C6, as stated, fails: on a slide with a footer placeholder and one
    line, the run-level method is chosen and writes the line into the
    footer. *)
Lemma run_level_patches_placeholder :
  node slide_footer [0; 0; 0] = Some footer_shape
  ∧ _shape_is_skipped_placeholder footer_shape = true
  ∧ _iter_all_paragraphs_from_slide_xml slide_footer = []
  ∧ (_patch_slide_hybrid slide_footer [s2u "X"]).2 = ("runs", 1, 1)
  ∧ text_at (_patch_slide_hybrid slide_footer [s2u "X"]).1.1
            (first_paragraph ++ [0; 0]) = s2u "X"
  ∧ node (_patch_slide_hybrid slide_footer [s2u "X"]).1.1 [0; 0; 0]
    ≠ Some footer_shape.
Proof. by vm_compute. Qed.

Lemma skipped_placeholder_untouched_witness :
  Forall (fun pl => ¬ [0; 0; 0] `prefix_of` pl.1)
         (retained_paragraphs slide_footer_title)
  ∧ Forall (fun p => ¬ [0; 0; 0] `prefix_of` p)
           (_collect_paragraphs slide_footer_title)
  ∧ node (_patch_slide_paragraphs slide_footer_title [s2u "X"; s2u "Y"]).1.1 [0; 0; 0]
    = Some footer_shape.
Proof.
  apply (skipped_placeholder_untouched slide_footer_title [0; 0; 0] footer_shape
           [s2u "X"; s2u "Y"]); vm_compute; reflexivity.
Defined.

(** C7, as stated, fails: the tab of [slide_tab] is written as the tab
    character. *)
Lemma tab_is_written_as_tab :
  line_file (_iter_all_paragraphs_from_slide_xml slide_tab) = [65; TAB; 66]%N
  ∧ TAB ∈ line_file (_iter_all_paragraphs_from_slide_xml slide_tab).
Proof. split; [by vm_compute|]. vm_compute. apply elem_of_cons. right. left. Qed.

(** C8, as worded, fails.  The text of [paragraph_en_dash] begins with an
    en dash, a dash variant, and the space after the bullet is written;
    the explicit bullet of [paragraph_empty_bullet] has an empty [char],
    and the bullet of the list style is written. *)
Lemma bullet_rule_as_worded_fails :
  nesting_level paragraph_en_dash = Some 0%Z
  ∧ _extract_paragraph_text paragraph_en_dash None = [8226; 32; 8211; 120]%N
  ∧ worded_line 0 paragraph_en_dash None = [8226; 8211; 120]%N
  ∧ nesting_level paragraph_empty_bullet = Some 0%Z
  ∧ _extract_paragraph_text paragraph_empty_bullet (Some list_style_bullet)
    = [8226; 32; 120]%N
  ∧ worded_line 0 paragraph_empty_bullet (Some list_style_bullet) = [120]%N.
Proof. by vm_compute. Qed.

Lemma extracted_paragraph_bullet_witness :
  nesting_level paragraph_level_2 = Some 2%Z
  ∧ bulleted_line 2 paragraph_level_2 (Some list_style_bullet) = [8211; 32; 120]%N
  ∧ _extract_paragraph_text paragraph_level_2 (Some list_style_bullet)
    = bulleted_line 2 paragraph_level_2 (Some list_style_bullet).
Proof.
  split; [vm_compute; reflexivity|]. split; [vm_compute; reflexivity|].
  apply (extracted_paragraph_bullet paragraph_level_2 (Some list_style_bullet) 2).
  vm_compute. reflexivity.
Defined.


